(** * linguify: the object utilities (flatten, unflatten, clear, sort, isAssignable)

    A shallow embedding of the object utilities of linguify and the
    verification of their documented behaviour.

    Modelling conventions.
    - A JavaScript value is a JSON-like tree: [undefined], [null], booleans,
      numbers (the integers and NaN), strings, and objects.  An object
      carries its class (plain object or array) and the list of its own
      enumerable properties in own-property order: canonical array indices
      first, in ascending numeric order, then the other keys in the order
      in which they were created.  An array [[x, y]] is the object of class
      [KArray] with the properties ["0"] and ["1"]; its [length] is one more
      than its largest index.
    - An object has the prototype of its class, [Object.prototype] or
      [Array.prototype]; the members of the prototypes are functions and
      accessors, which are no values of the model.  The call
      [object.hasOwnProperty(key)] of [flatten] is modelled with its
      lookup on the object itself: an own property [hasOwnProperty]
      shadows the method and the call throws a [TypeError].
    - Every other read of a property consults the own properties, and
      every write creates or updates an own property.  The code does so
      unless a key, or a part of a flat key, is the name of a member of
      [Object.prototype] ([__proto__], [constructor], [hasOwnProperty],
      [toString], ...), is [prototype] (which lodash refuses to set) or
      [__wrapped__] (by which lodash recognises its wrappers), or names a
      member of [Array.prototype] below an array.  The predicates
      [ordinary_keys], [ordinary_flat] and [ordinary_separator] exclude
      these keys, and the statements that depend on it assume them.
      The [length] of an array or of a string is an own property, which
      [isAssignable] sees.
    - The file is an ECMAScript module, hence strict code: assigning a
      property on a primitive value throws a [TypeError].
    - Strings are sequences of 8-bit code units.
    - The [init] command is the tree of its interactions with the console,
      the file system, the prompt and the process; what these answer is the
      world of a run, and a run is the list of its events. *)

From Stdlib Require Import List String Ascii ZArith NArith Bool Lia DecimalString.
From Stdlib Require Import Permutation Sorted.
Import ListNotations.
Local Open Scope string_scope.
Local Open Scope list_scope.

Set Implicit Arguments.

(** ** Values *)

Inductive okind : Type := KObject | KArray.

#[local] Unset Elimination Schemes.

Inductive value : Type :=
| VUndef
| VNull
| VBool (b : bool)
| VNum (z : Z)
| VNaN
| VStr (s : string)
| VObj (c : okind) (props : list (string * value)).

#[local] Set Elimination Schemes.

(** [DynamicObject] of [./types]: the own enumerable properties of an
    object, as key/value entries. *)
Definition DynamicObject : Type := list (string * value).

Definition okind_eqb (a b : okind) : bool :=
  match a, b with
  | KObject, KObject | KArray, KArray => true
  | _, _ => false
  end.

(** The result of the [typeof] operator. *)
Inductive jstype : Type := TUndefined | TObject | TBoolean | TNumber | TString.

Definition typeof (v : value) : jstype :=
  match v with
  | VUndef => TUndefined
  | VNull => TObject
  | VBool _ => TBoolean
  | VNum _ | VNaN => TNumber
  | VStr _ => TString
  | VObj _ _ => TObject
  end.

Definition jstype_eqb (a b : jstype) : bool :=
  match a, b with
  | TUndefined, TUndefined | TObject, TObject | TBoolean, TBoolean
  | TNumber, TNumber | TString, TString => true
  | _, _ => false
  end.

(** lodash [_.isObject]: [value != null && (typeof value == 'object' ||
    typeof value == 'function')]; arrays are objects. *)
Definition isObject (v : value) : bool :=
  match v with
  | VObj _ _ => true
  | _ => false
  end.

(** The test of [flatten]: [object[key] !== null && typeof object[key] == 'object']. *)
Definition is_nonnull_object (v : value) : bool :=
  match v with
  | VNull => false
  | _ => jstype_eqb (typeof v) TObject
  end.

(** ToBoolean, as used by [||]. *)
Definition truthy (v : value) : bool :=
  match v with
  | VUndef | VNull | VNaN => false
  | VBool b => b
  | VNum z => negb (Z.eqb z 0)
  | VStr s => negb (s =? "")
  | VObj _ _ => true
  end.

(** ** Induction over nested values *)

Section ValueInd.
Variable P : value -> Prop.
Hypothesis Hundef : P VUndef.
Hypothesis Hnull : P VNull.
Hypothesis Hbool : forall b, P (VBool b).
Hypothesis Hnum : forall z, P (VNum z).
Hypothesis Hnan : P VNaN.
Hypothesis Hstr : forall s, P (VStr s).
Hypothesis Hobj : forall c ps, Forall (fun e => P (snd e)) ps -> P (VObj c ps).

Fixpoint value_nested_ind (v : value) : P v :=
  match v with
  | VUndef => Hundef
  | VNull => Hnull
  | VBool b => Hbool b
  | VNum z => Hnum z
  | VNaN => Hnan
  | VStr s => Hstr s
  | VObj c ps =>
      Hobj c
        ((fix go (l : list (string * value)) : Forall (fun e => P (snd e)) l :=
            match l with
            | [] => Forall_nil _
            | e :: l' => Forall_cons e (value_nested_ind (snd e)) (go l')
            end) ps)
  end.
End ValueInd.

(** ** Property keys and own-property order *)

(** The decimal representation of a number, [String(n)]. *)
Definition index_key (n : N) : string := NilZero.string_of_uint (N.to_uint n).

(** An array index is a canonical numeric string (the decimal
    representation of the number it denotes: no sign, no leading zero)
    whose value is below 2^32 - 1. *)
Definition array_index (s : string) : option N :=
  match NilZero.uint_of_string s with
  | Some d =>
      let n := N.of_uint d in
      if (index_key n =? s) && (n <? 4294967295)%N then Some n else None
  | None => None
  end.

Fixpoint lookup (k : string) (o : DynamicObject) : option value :=
  match o with
  | [] => None
  | (k', v) :: o' => if k =? k' then Some v else lookup k o'
  end.

Definition has_key (k : string) (o : DynamicObject) : bool :=
  match lookup k o with Some _ => true | None => false end.

Definition keys (o : DynamicObject) : list string := map fst o.

(** Overwriting an existing property keeps its position. *)
Fixpoint replace (k : string) (v : value) (o : DynamicObject) : DynamicObject :=
  match o with
  | [] => []
  | (k', v') :: o' =>
      if k =? k' then (k, v) :: o' else (k', v') :: replace k v o'
  end.

(** A new array index [n] goes before the first property that is not a
    smaller array index. *)
Fixpoint insert_index (n : N) (k : string) (v : value) (o : DynamicObject)
  : DynamicObject :=
  match o with
  | [] => [(k, v)]
  | (k', v') :: o' =>
      match array_index k' with
      | Some m =>
          if (m <? n)%N then (k', v') :: insert_index n k v o'
          else (k, v) :: o
      | None => (k, v) :: o
      end
  end.

Definition insert_new (k : string) (v : value) (o : DynamicObject) : DynamicObject :=
  match array_index k with
  | Some n => insert_index n k v o
  | None => o ++ [(k, v)]
  end.

(** [o[k] = v] on an object. *)
Definition obj_set (k : string) (v : value) (o : DynamicObject) : DynamicObject :=
  if has_key k o then replace k v o else insert_new k v o.

(** Building an object by successive assignments, from the empty object. *)
Definition assign_all (entries : list (string * value)) (o : DynamicObject)
  : DynamicObject :=
  fold_left (fun acc e => obj_set (fst e) (snd e) acc) entries o.

(** ** Errors *)

(** [ErrorInvalidObject] is [new Error("'object' parameter must be a valid
    object")], the InvalidArgument failure of the documentation;
    [TypeError] is raised by the engine when strict code assigns a
    property on a primitive. *)
Inductive error : Type := ErrorInvalidObject | TypeError.

Inductive result (A : Type) : Type :=
| Ok (a : A)
| Throw (e : error).
Arguments Ok {A} a.
Arguments Throw {A} e.

Definition bind {A B : Type} (r : result A) (f : A -> result B) : result B :=
  match r with
  | Ok a => f a
  | Throw e => Throw e
  end.

Notation "x <- r ;; k" := (bind r (fun x => k))
  (at level 61, r at next level, right associativity).

(** ** String.prototype.split with a string separator *)

Fixpoint split_go (sep : string) (skip : nat) (cur : string) (s : string)
  : list string :=
  match s with
  | EmptyString => [cur]
  | String ch s' =>
      match skip with
      | S n => split_go sep n cur s'
      | O =>
          if prefix sep s then cur :: split_go sep (String.length sep - 1) "" s'
          else split_go sep 0 (cur ++ String ch "")%string s'
      end
  end.

Definition split (sep s : string) : list string :=
  if sep =? "" then map (fun a => String a "") (list_ascii_of_string s)
  else split_go sep 0 "" s.

(** ** flatten *)

(** [object.hasOwnProperty(key)].  The method is looked up on the object
    itself: an own property named [hasOwnProperty] shadows the method of
    [Object.prototype] and, the values of the model being no functions,
    calling it throws a [TypeError]. *)
Definition hasOwnProperty (object : DynamicObject) (key : string) : result bool :=
  if has_key "hasOwnProperty" object then Throw TypeError
  else Ok (has_key key object).

(** The inner loop of [flatten]: every own entry [x] of the flattened
    child is stored under [key + separator + x]. *)
Definition assign_prefixed (key sep : string) (flatObject flattened : DynamicObject)
  : result DynamicObject :=
  fold_left
    (fun acc e =>
       flattened <- acc ;;
       own <- hasOwnProperty flatObject (fst e) ;;
       Ok (if own
           then obj_set (key ++ sep ++ fst e)%string (snd e) flattened
           else flattened))
    flatObject (Ok flattened).

(** The body of [flatten] after its guard.  The recursive call is made on
    values that are non-null with [typeof] ['object'] only, on which the
    [_.isObject] guard passes. *)
Fixpoint flatten_value (sep : string) (object : value) {struct object}
  : result DynamicObject :=
  match object with
  | VObj _ props =>
      (fix loop (ps : list (string * value)) (flattened : DynamicObject)
         {struct ps} : result DynamicObject :=
         match ps with
         | [] => Ok flattened
         | (key, child) :: rest =>
             own <- hasOwnProperty props key ;;
             if own then
               if is_nonnull_object child then
                 flatObject <- flatten_value sep child ;;
                 flattened' <- assign_prefixed key sep flatObject flattened ;;
                 loop rest flattened'
               else loop rest (obj_set key child flattened)
             else loop rest flattened
         end) props []
  | _ => Ok []
  end.

Definition flatten (object : value) (separator : string) : result value :=
  if isObject object then
    flattened <- flatten_value separator object ;;
    Ok (VObj KObject flattened)
  else Throw ErrorInvalidObject.

(** ** unflatten *)

(** [currentNode[keyPart]], read, for a key part that names no member
    of the prototype of [currentNode]: the own property, or [undefined]. *)
Definition get (currentNode : value) (keyPart : string) : value :=
  match currentNode with
  | VObj _ ps => match lookup keyPart ps with Some v => v | None => VUndef end
  | _ => VUndef
  end.

(** [currentNode[keyPart] = v], for a key part other than [__proto__]:
    an own property is created or updated; a [TypeError] on a primitive. *)
Definition put (currentNode : value) (keyPart : string) (v : value) : result value :=
  match currentNode with
  | VObj c ps => Ok (VObj c (obj_set keyPart v ps))
  | _ => Throw TypeError
  end.

(** The loop over [keyParts] for one flat key, from index [i] on; the
    result is [currentNode] after the in-place updates made below it.  The
    last part is the one at index [keyParts.length - 1], empty or not. *)
Fixpoint assign_parts (keyParts : list string) (v : value) (currentNode : value)
  {struct keyParts} : result value :=
  match keyParts with
  | [] => Ok currentNode
  | keyPart :: rest =>
      if keyPart =? "" then assign_parts rest v currentNode
      else
        match rest with
        | [] => put currentNode keyPart v
        | _ :: _ =>
            let child :=
              if truthy (get currentNode keyPart) then get currentNode keyPart
              else VObj KObject [] in
            _ <- put currentNode keyPart child ;;
            child' <- assign_parts rest v child ;;
            put currentNode keyPart child'
        end
  end.

(** The loop over the keys of the flat object.  The call
    [flatObject.hasOwnProperty(key)] answers [true] for every key of the
    loop, as long as [hasOwnProperty] is no key of the flat object. *)
Definition unflatten_loop (sep : string) (flatObject : DynamicObject) (nested : value)
  : result value :=
  fold_left
    (fun acc e => nested' <- acc ;; assign_parts (split sep (fst e)) (snd e) nested')
    flatObject (Ok nested).

Definition unflatten (flatObject : value) (separator : string) : result value :=
  match flatObject with
  | VObj _ ps => unflatten_loop separator ps (VObj KObject [])
  | _ => Throw ErrorInvalidObject
  end.

(** ** lodash helpers *)

(** [length] of an array: one more than its largest index. *)
Definition arr_length (ps : DynamicObject) : N :=
  fold_left
    (fun acc e => match array_index (fst e) with
                  | Some n => N.max acc (n + 1)
                  | None => acc
                  end) ps 0%N.

Definition indices (len : N) : list N := map N.of_nat (seq 0 (N.to_nat len)).

Definition is_index_key (k : string) : bool :=
  match array_index k with Some _ => true | None => false end.

(** [_.toPairs]: the entries lodash iterates over ([keys] / [keysIn]).  For an
    array these are all the indices below [length], a hole reading
    [undefined], followed by the other own keys. *)
Definition toPairs (c : okind) (ps : DynamicObject) : list (string * value) :=
  match c with
  | KObject => ps
  | KArray =>
      map (fun i => (index_key i, get (VObj c ps) (index_key i)))
          (indices (arr_length ps))
      ++ filter (fun e => negb (is_index_key (fst e))) ps
  end.

(** [_.pickBy] and [_.omitBy] build a plain object by assigning the entries
    they keep, in iteration order.  (lodash skips an entry whose key is
    [__proto__], [constructor] or [prototype]; [ordinary_keys] excludes
    these keys.) *)
Definition pickBy (p : value -> bool) (entries : list (string * value))
  : DynamicObject :=
  assign_all (filter (fun e => p (snd e)) entries) [].

Definition omitBy (p : value -> bool) (entries : list (string * value))
  : DynamicObject :=
  pickBy (fun v => negb (p v)) entries.

(** [_.mapValues] on an object: the same keys, in the same order. *)
Definition mapValues (f : value -> value) (o : DynamicObject) : DynamicObject :=
  map (fun e => (fst e, f (snd e))) o.

(** [_.assign(object, source)]. *)
Definition assign (object source : DynamicObject) : DynamicObject :=
  assign_all source object.

(** [_.fromPairs]: [result[key] = value] for each pair, in order, for keys
    other than [__proto__]. *)
Definition fromPairs (pairs : list (string * value)) : DynamicObject :=
  assign_all pairs [].

(** [_.isEmpty]. *)
Definition isEmpty (v : value) : bool :=
  match v with
  | VObj KObject ps => match ps with [] => true | _ :: _ => false end
  | VObj KArray ps => (arr_length ps =? 0)%N
  | VStr s => s =? ""
  | _ => true
  end.

(** [_.sortBy(0)]: a stable sort of the pairs by their first component,
    compared as strings, code unit by code unit. *)
Fixpoint insert_by_key (e : string * value) (l : list (string * value))
  : list (string * value) :=
  match l with
  | [] => [e]
  | e' :: l' =>
      if String.ltb (fst e') (fst e) then e' :: insert_by_key e l'
      else e :: l
  end.

Definition sortBy0 (pairs : list (string * value)) : list (string * value) :=
  fold_right insert_by_key [] pairs.

(** ** clear *)

(** [clear] without [skipFirstDepth].  [mapValues(clear)] calls
    [clear(value, key)]: the options argument is the key, a string, whose
    [skipFirstDepth] is undefined, so nested calls run in this mode.
    The inner loop applies [clear] to the object-valued properties before
    the picking; [clear_default_unfold] below gives the chain as written. *)
Fixpoint clear_default (object : value) {struct object} : DynamicObject :=
  match object with
  | VObj c ps =>
      let entries :=
        toPairs c
          ((fix each (ps : list (string * value)) {struct ps} :=
              match ps with
              | [] => []
              | (key, v) :: rest =>
                  (key, if isObject v then VObj KObject (clear_default v) else v)
                    :: each rest
              end) ps) in
      assign (omitBy isEmpty (pickBy isObject entries)) (omitBy isObject entries)
  | _ => []
  end.

Definition clear (object : value) (skipFirstDepth : bool) : DynamicObject :=
  match object with
  | VObj c ps =>
      if skipFirstDepth then
        mapValues (fun v => if isObject v then v else VObj KObject [])
          (assign
             (mapValues (fun v => VObj KObject (clear_default v))
                (pickBy isObject (toPairs c ps)))
             (omitBy isObject (toPairs c ps)))
      else clear_default object
  | _ => []
  end.

(** ** sort *)

(** The inner loop maps the values before [toPairs]; [sort_unfold] below
    gives the chain as written. *)
Fixpoint sort (object : value) {struct object} : DynamicObject :=
  match object with
  | VObj c ps =>
      fromPairs
        (sortBy0
           (toPairs c
              ((fix each (ps : list (string * value)) {struct ps} :=
                  match ps with
                  | [] => []
                  | (key, v) :: rest =>
                      (key, if isObject v then VObj KObject (sort v) else v)
                        :: each rest
                  end) ps)))
  | _ => []
  end.

(** ** isAssignable *)

(** The own property [key] of [v], as [hasOwnProperty] and [v[key]] see it:
    an array and a string have the own property [length], and a string
    has its code units as indexed properties. *)
Definition own_get (v : value) (key : string) : option value :=
  match v with
  | VObj KObject ps => lookup key ps
  | VObj KArray ps =>
      if key =? "length" then Some (VNum (Z.of_N (arr_length ps)))
      else lookup key ps
  | VStr s =>
      if key =? "length" then Some (VNum (Z.of_nat (String.length s)))
      else
        match array_index key with
        | Some i => match String.get (N.to_nat i) s with
                    | Some ch => Some (VStr (String ch ""))
                    | None => None
                    end
        | None => None
        end
  | _ => None
  end.

(** lodash [hasPath] with [baseHas]: every key of the path is an own
    property; at the last key an array also has its holes. *)
Fixpoint hasPath (object : value) (path : list string) : bool :=
  match path with
  | [] => false
  | key :: rest =>
      match own_get object key with
      | Some v => match rest with [] => true | _ :: _ => hasPath v rest end
      | None =>
          match rest, object with
          | [], VObj KArray ps =>
              match array_index key with
              | Some i => (i <? arr_length ps)%N
              | None => false
              end
          | _, _ => false
          end
      end
  end.

(** lodash [baseGet]. *)
Fixpoint baseGet (object : value) (path : list string) : value :=
  match path with
  | [] => object
  | key :: rest =>
      match own_get object key with
      | Some v => baseGet v rest
      | None => VUndef
      end
  end.

Definition has_char (a : ascii) (s : string) : bool :=
  existsb (Ascii.eqb a) (list_ascii_of_string s).

Definition has_bracket (s : string) : bool := has_char "["%char s || has_char "]"%char s.

Inductive path : Type :=
| PathString (s : string)
| PathArray (segments : list string).

(** The result of [isAssignable]: [true], or the colliding point. *)
Inductive assignable : Type :=
| Assignable
| Collision (point : string).

Section LodashPath.

(** lodash parses a property path written with brackets ([a[0].b],
    [a["b"]]) with [stringToPath]; that parser is a parameter: for a
    string with a bracket it gives the path lodash uses when the string
    is not itself a key of the object. *)
Variable bracketPath : string -> list string.

(** lodash [castPath(value, object)] on a string: the string itself when
    it is a key ([isKey]: no dot and no bracket expression, or a property
    of the object), its dot-separated parts otherwise. *)
Definition castPath (point : string) (object : DynamicObject) : list string :=
  if has_key point object then [point]
  else if has_bracket point then bracketPath point
  else if has_char "."%char point then split "." point
  else [point].

(** [_.has(object, point)] and [_.get(object, point)]. *)
Definition has (object : DynamicObject) (point : string) : bool :=
  hasPath (VObj KObject object) (castPath point object).

Definition get_ (object : DynamicObject) (point : string) : value :=
  match castPath point object with
  | [] => VUndef
  | p => baseGet (VObj KObject object) p
  end.

Definition pathArray (p : path) (separator : string) : list string :=
  match p with
  | PathString s => split separator s
  | PathArray segments => segments
  end.

(** The [reduce] that builds the cumulative points; [arr[index - 1]] is
    the last point built so far. *)
Definition pathPoints (pathArray : list string) : list string :=
  fold_left
    (fun arr point =>
       let index := List.length arr in
       let previous := nth (index - 1) arr "" in
       let next :=
         if (0 <? index)%nat then (previous ++ "." ++ point)%string else point in
       arr ++ [next])
    pathArray [].

Fixpoint first_collision (object : DynamicObject) (points : list string)
  : assignable :=
  match points with
  | [] => Assignable
  | point :: rest =>
      if has object point
         && negb (jstype_eqb (typeof (get_ object point)) TObject)
      then Collision point
      else first_collision object rest
  end.

Definition isAssignable (object : DynamicObject) (p : path) (separator : string)
  : assignable :=
  first_collision object (pathPoints (pathArray p separator)).

End LodashPath.

(** ** Literals used in the examples *)

Definition obj (ps : list (string * value)) : value := VObj KObject ps.
Definition arr (ps : list (string * value)) : value := VObj KArray ps.

(** ** Comparing structures *)

(** The equality of the documentation's [==]: the same class, the same
    keys, and equal values under each key, whatever the order of the keys. *)
Inductive same_structure : value -> value -> Prop :=
| same_primitive : forall v, isObject v = false -> same_structure v v
| same_object : forall c o1 o2,
    (forall k, lookup k o1 = None <-> lookup k o2 = None) ->
    (forall k v1 v2,
        lookup k o1 = Some v1 -> lookup k o2 = Some v2 -> same_structure v1 v2) ->
    same_structure (VObj c o1) (VObj c o2).

Fixpoint nodup_keys (l : list string) : bool :=
  match l with
  | [] => true
  | k :: l' => negb (existsb (String.eqb k) l') && nodup_keys l'
  end.

(** Keys are unique in every object of the tree. *)
Fixpoint well_formed (v : value) : bool :=
  match v with
  | VObj _ ps =>
      nodup_keys (keys ps)
      && (fix all (ps : list (string * value)) : bool :=
            match ps with
            | [] => true
            | (_, child) :: rest => well_formed child && all rest
            end) ps
  | _ => true
  end.

(** No array anywhere in the tree. *)
Fixpoint no_arrays (v : value) : bool :=
  match v with
  | VObj c ps =>
      okind_eqb c KObject
      && (fix all (ps : list (string * value)) : bool :=
            match ps with
            | [] => true
            | (_, child) :: rest => no_arrays child && all rest
            end) ps
  | _ => true
  end.

(** ** Auxiliary definitions for the statements *)

(** What [flatten] assigns when none of its calls throws: the inner loop,
    every entry [x] of the flattened child stored under
    [key + separator + x], and the outer loop. *)
Definition prefixed_entries (key sep : string) (flatObject flattened : DynamicObject)
  : DynamicObject :=
  assign_all (map (fun e => ((key ++ sep ++ fst e)%string, snd e)) flatObject) flattened.

Fixpoint flattened_entries (sep : string) (object : value) {struct object}
  : DynamicObject :=
  match object with
  | VObj _ ps =>
      (fix loop (ps : list (string * value)) (flattened : DynamicObject)
         {struct ps} : DynamicObject :=
         match ps with
         | [] => flattened
         | (key, child) :: rest =>
             loop rest
               (if is_nonnull_object child
                then prefixed_entries key sep (flattened_entries sep child) flattened
                else obj_set key child flattened)
         end) ps []
  | _ => []
  end.

(** One iteration of the outer loop of [flatten] when no call throws. *)
Definition flatten_step (sep : string) (flattened : DynamicObject)
  (e : string * value) : DynamicObject :=
  if is_nonnull_object (snd e)
  then prefixed_entries (fst e) sep (flattened_entries sep (snd e)) flattened
  else obj_set (fst e) (snd e) flattened.

(** One iteration of the outer loop of [flatten] with its call of
    [hasOwnProperty], on the object [props]. *)
Definition flatten_iteration (sep : string) (props flattened : DynamicObject)
  (e : string * value) : result DynamicObject :=
  own <- hasOwnProperty props (fst e) ;;
  if own then
    if is_nonnull_object (snd e) then
      flatObject <- flatten_value sep (snd e) ;;
      assign_prefixed (fst e) sep flatObject flattened
    else Ok (obj_set (fst e) (snd e) flattened)
  else Ok flattened.

(** The same tree with every array turned into the plain object that has
    the same properties. *)
Fixpoint as_structure (v : value) : value :=
  match v with
  | VObj _ ps =>
      VObj KObject
        ((fix each (ps : list (string * value)) : list (string * value) :=
            match ps with
            | [] => []
            | (k, child) :: rest => (k, as_structure child) :: each rest
            end) ps)
  | _ => v
  end.

(** [clear] as [mapValues] applies it, and the callback of [sort]. *)
Definition clear_nested (v : value) : value := VObj KObject (clear_default v).

(** What the fused loop of [clear_default] applies to each property. *)
Definition clear_callback (v : value) : value :=
  if isObject v then clear_nested v else v.

Definition sort_nested (v : value) : value :=
  if isObject v then VObj KObject (sort v) else v.

(** The image of [clear]: plain objects with unique keys whose nested
    objects are non-empty. *)
Inductive clean : value -> Prop :=
| clean_object : forall ps,
    NoDup (keys ps) ->
    (forall k v, In (k, v) ps -> isObject v = true -> clean v) ->
    (forall k v, In (k, v) ps -> isObject v = true -> isEmpty v = false) ->
    clean (VObj KObject ps).

(** [key_before k1 k2]: the key [k1] comes before [k2] in the own-property
    order of an object built from alphabetically sorted pairs: the array
    indices first, in ascending numeric order, then the other keys in
    ascending order of their code units. *)
Definition key_before (k1 k2 : string) : bool :=
  match array_index k1, array_index k2 with
  | Some a, Some b => (a <? b)%N
  | Some _, None => true
  | None, Some _ => false
  | None, None => String.ltb k1 k2
  end.

Fixpoint ascending (lt : string -> string -> bool) (l : list string) : bool :=
  match l with
  | [] => true
  | k :: l' =>
      match l' with
      | [] => true
      | k' :: _ => lt k k' && ascending lt l'
      end
  end.

(** The keys of every object of the tree are in the order [key_before]. *)
Fixpoint sorted_deep (v : value) : bool :=
  match v with
  | VObj _ ps =>
      ascending key_before (keys ps)
      && (fix all (ps : list (string * value)) : bool :=
            match ps with
            | [] => true
            | (_, child) :: rest => sorted_deep child && all rest
            end) ps
  | _ => true
  end.

(** [k1] is not after [k2] alphabetically. *)
Definition key_le (k1 k2 : string) : Prop := String.ltb k2 k1 = false.

(** The separator occurs in [key + separator] before its final position,
    that is, inside the key or overlapping its end. *)
Fixpoint occurs_early (sep key : string) : bool :=
  match key with
  | EmptyString => false
  | String _ key' => prefix sep (key ++ sep)%string || occurs_early sep key'
  end.

(** A key that [split] gives back whole: it is not cut by the separator,
    nor together with the separator that follows it. *)
Definition separable (sep key : string) : bool := negb (occurs_early sep key).

(** The cumulative prefixes of a path, shortest first. *)
Fixpoint prefixes_from (pre segments : list string) : list (list string) :=
  match segments with
  | [] => []
  | s :: rest => (pre ++ [s]) :: prefixes_from (pre ++ [s]) rest
  end.

Definition prefixes (segments : list string) : list (list string) :=
  prefixes_from [] segments.

(** A segment without dot or bracket, which lodash reads as one key. *)
Definition plain_segment (s : string) : bool :=
  negb (has_char "."%char s) && negb (has_bracket s).

Definition is_null (v : value) : bool :=
  match v with VNull => true | _ => false end.

(** The object holds, at the path [p], a value that is neither a Structure
    nor an array. *)
Definition holds_scalar (object : DynamicObject) (p : list string) : bool :=
  hasPath (VObj KObject object) p
  && negb (isObject (baseGet (VObj KObject object) p)).

(** ** The domain of the round trip *)

(** The separator occurs in the key. *)
Fixpoint contains (sep key : string) : bool :=
  prefix sep key
  || match key with
     | EmptyString => false
     | String _ key' => contains sep key'
     end.

(** A key that survives [flatten] then [unflatten]: it is not empty and
    does not contain the separator; the key of a nested Structure,
    followed by the separator, must moreover contain the separator at that
    final position only. *)
Definition key_ok (sep k : string) (v : value) : bool :=
  negb (k =? "")
  && (if isObject v then separable sep k else negb (contains sep k)).

(** The path of a leaf whose keys are admissible. *)
Fixpoint path_ok (sep : string) (p : list string) : Prop :=
  match p with
  | [] => False
  | k :: q =>
      k <> ""
      /\ match q with
         | [] => contains sep k = false
         | _ :: _ => separable sep k = true /\ path_ok sep q
         end
  end.

(** A value below a key that the round trip preserves: a primitive, or a
    non-empty Structure (not an array) with unique admissible keys whose
    values are of the same kind. *)
Fixpoint faithful (sep : string) (v : value) : bool :=
  match v with
  | VObj c ps =>
      okind_eqb c KObject
      && negb (match ps with [] => true | _ :: _ => false end)
      && nodup_keys (keys ps)
      && (fix all (ps : list (string * value)) : bool :=
            match ps with
            | [] => true
            | (k, child) :: rest =>
                key_ok sep k child && faithful sep child && all rest
            end) ps
  | _ => true
  end.

(** The Structures on which the round trip holds; the root may be empty. *)
Definition roundtrip_domain (sep : string) (ps : DynamicObject) : bool :=
  nodup_keys (keys ps)
  && forallb (fun e => key_ok sep (fst e) (snd e) && faithful sep (snd e)) ps.

(** The leaves of a tree with their paths, in depth-first order. *)
Fixpoint leaves (v : value) : list (list string * value) :=
  match v with
  | VObj _ ps =>
      (fix each (ps : list (string * value)) : list (list string * value) :=
         match ps with
         | [] => []
         | (k, child) :: rest =>
             (if isObject child
              then map (fun pv => (k :: fst pv, snd pv)) (leaves child)
              else [([k], child)])
             ++ each rest
         end) ps
  | _ => []
  end.

(** [unflatten] on keys already split into their parts. *)
Definition build (L : list (list string * value)) (nested : value) : result value :=
  fold_left (fun acc pv => n <- acc ;; assign_parts (fst pv) (snd pv) n) L (Ok nested).

(** The entries of [L] whose path starts with [k], without that first part. *)
Fixpoint under (k : string) (L : list (list string * value))
  : list (list string * value) :=
  match L with
  | [] => []
  | (p, v) :: L' =>
      match p with
      | k' :: q => if k' =? k then (q, v) :: under k L' else under k L'
      | [] => under k L'
      end
  end.

(** The node the loop of [unflatten] descends into at [k]:
    [currentNode[k] || {}] when [currentNode[k]] is not a truthy primitive. *)
Definition node (k : string) (N : DynamicObject) : value :=
  match lookup k N with
  | Some (VObj c m) => VObj c m
  | _ => VObj KObject []
  end.

Definition truthy_primitive_at (k : string) (N : DynamicObject) : bool :=
  match lookup k N with
  | Some w => truthy w && negb (isObject w)
  | None => false
  end.

Definition object_at (k : string) (N : DynamicObject) : bool :=
  match lookup k N with
  | Some w => isObject w
  | None => false
  end.

(** Every part of every path is non-empty. *)
Definition parts_ok (L : list (list string * value)) : Prop :=
  forall p v, In (p, v) L -> forall s, In s p -> s <> "".

(** What one entry of an object contributes to its leaves. *)
Definition leaves_of_entry (e : string * value) : list (list string * value) :=
  if isObject (snd e)
  then map (fun pv => (fst e :: fst pv, snd pv)) (leaves (snd e))
  else [([fst e], snd e)].

(** Unique keys, each admissible, with values the round trip preserves. *)
Definition entries_ok (sep : string) (ps : DynamicObject) : Prop :=
  NoDup (keys ps)
  /\ forall e, In e ps ->
               key_ok sep (fst e) (snd e) = true /\ faithful sep (snd e) = true.

(** What one entry of an object contributes to the flattened output. *)
Definition flat_of_entry (sep : string) (e : string * value) : list (string * value) :=
  if isObject (snd e)
  then map (fun x => ((fst e ++ sep ++ fst x)%string, snd x))
         (flattened_entries sep (snd e))
  else [e].

(** A leaf with its path joined into a flat key, and back. *)
Definition join_path (sep : string) (pv : list string * value) : string * value :=
  (String.concat sep (fst pv), snd pv).

Definition split_key (sep : string) (e : string * value) : list string * value :=
  (split sep (fst e), snd e).

(** ** Own-property order, as a predicate *)

(** [k1] may precede [k2] among the own properties of an object: an array
    index precedes a larger array index and every other key. *)
Definition order_before (k1 k2 : string) : bool :=
  match array_index k1, array_index k2 with
  | Some a, Some b => (a <? b)%N
  | Some _, None => true
  | None, Some _ => false
  | None, None => true
  end.

(** The keys are listed as an engine enumerates them. *)
Fixpoint own_property_order (ks : list string) : bool :=
  match ks with
  | [] => true
  | k :: ks' => forallb (order_before k) ks' && own_property_order ks'
  end.

(** An object as the engine holds it: unique keys in own-property order. *)
Definition enumerable (ps : DynamicObject) : bool :=
  nodup_keys (keys ps) && own_property_order (keys ps).

(** No value of the object is itself an object: a single-depth object. *)
Definition single_depth (ps : DynamicObject) : bool :=
  forallb (fun e => negb (isObject (snd e))) ps.

(** [n] copies of [s], one after the other. *)
Fixpoint repeat_string (s : string) (n : nat) : string :=
  match n with
  | O => ""
  | S n' => (s ++ repeat_string s n')%string
  end.

Definition nonempty (s : string) : bool := negb (s =? "").

(** No nested object of the tree is empty. *)
Fixpoint no_empty_nested (v : value) : bool :=
  match v with
  | VObj _ ps =>
      (fix all (ps : list (string * value)) : bool :=
         match ps with
         | [] => true
         | (_, child) :: rest =>
             (if isObject child then negb (isEmpty child) && no_empty_nested child
              else true)
             && all rest
         end) ps
  | _ => true
  end.

(** ** The domain of the round trip from a flat object *)

(** [p] is an initial part of [q], or equal to it. *)
Fixpoint is_prefix (p q : list string) : bool :=
  match p, q with
  | [], _ => true
  | a :: p', b :: q' => (a =? b) && is_prefix p' q'
  | _ :: _, [] => false
  end.

(** No path is an initial part of another one, or equal to it. *)
Fixpoint prefix_free (l : list (list string)) : bool :=
  match l with
  | [] => true
  | p :: l' =>
      forallb (fun q => negb (is_prefix p q) && negb (is_prefix q p)) l'
      && prefix_free l'
  end.

(** A path with at least one part and no empty part. *)
Definition proper_path (p : list string) : bool :=
  match p with
  | [] => false
  | _ :: _ => forallb nonempty p
  end.

(** The flat objects that [unflatten] then [flatten] give back: no value
    is an object, no key has an empty part (a leading, trailing or doubled
    separator), and no key continues another one after a separator. *)
Definition flat_domain (sep : string) (F : DynamicObject) : bool :=
  single_depth F
  && forallb (fun k => proper_path (split sep k)) (keys F)
  && prefix_free (map (split sep) (keys F)).

(** Every nested object of the tree has a leaf below it. *)
Fixpoint leafy (v : value) : bool :=
  match v with
  | VObj _ ps =>
      (fix all (ps : list (string * value)) : bool :=
         match ps with
         | [] => true
         | (_, child) :: rest =>
             (if isObject child
              then negb (match leaves child with [] => true | _ :: _ => false end)
                   && leafy child
              else true)
             && all rest
         end) ps
  | _ => true
  end.

(** The flat keys under which [flatten] stores the leaves of a tree. *)
Definition flat_keys (sep : string) (v : value) : list string :=
  map (fun pv => String.concat sep (fst pv)) (leaves v).

(** ** Ordinary keys *)

(** The names of the members of [Object.prototype], the keys that lodash
    refuses to set ([__proto__], [constructor], [prototype]) and the key
    by which lodash recognises its own wrappers.  On an object that has
    such a key, or under such a part of a flat key, the engine or lodash
    does something else than reading or writing an own property (the
    inherited member is read, the prototype is set, the key is skipped):
    apart from the call of [hasOwnProperty] in [flatten], this is outside
    the model, and the statements exclude these keys. *)
Definition reserved_names : list string :=
  ["__proto__"; "constructor"; "prototype"; "hasOwnProperty"; "isPrototypeOf";
   "propertyIsEnumerable"; "toString"; "toLocaleString"; "valueOf";
   "__defineGetter__"; "__defineSetter__"; "__lookupGetter__"; "__lookupSetter__";
   "__wrapped__"].

Definition reserved (k : string) : bool := existsb (String.eqb k) reserved_names.

(** No key of the tree, at any depth, is reserved. *)
Fixpoint ordinary_keys (v : value) : bool :=
  match v with
  | VObj _ ps =>
      (fix all (ps : list (string * value)) : bool :=
         match ps with
         | [] => true
         | (k, child) :: rest => negb (reserved k) && ordinary_keys child && all rest
         end) ps
  | _ => true
  end.

(** The separator occurs in no reserved name, so that no key made of two
    keys and the separator is reserved. *)
Definition ordinary_separator (sep : string) : bool :=
  forallb (fun name => negb (contains sep name)) reserved_names.

(** No key of the flat object, and no part of a key, is reserved. *)
Definition ordinary_flat (sep : string) (F : DynamicObject) : bool :=
  forallb
    (fun k => negb (reserved k) && forallb (fun p => negb (reserved p)) (split sep k))
    (keys F).

(** ** The init command *)

(** The outcome of a call that may throw; an exception is kept as its
    [message]. *)
Inductive outcome (A : Type) : Type :=
| Returned (a : A)
| Raised (message : string).
Arguments Returned {A} a.
Arguments Raised {A} message.

(** The styles of [chalk] the command uses. *)
Inductive style : Type := Blue | Yellow | Cyan | Underline | Green | Red.

(** A command, as the tree of its interactions with the console, the file
    system, the prompt and the process.  [ProcessExit] does not return;
    [Resolve] is the normal end of the asynchronous function. *)
Inductive command : Type :=
| Resolve
| ProcessExit (code : Z)
| ConsoleLog (text : string) (next : command)
| ConsoleError (text : string) (next : command)
| ExistsSync (file : string) (next : bool -> command)
| PromptToggle (message : string) (next : outcome value -> command)
| StringifyConfig (next : outcome string -> command)
| WriteFileSync (file data : string) (next : outcome unit -> command).

Section InitCommand.

(** [configPath] of [@lib/utils] and the styling functions of [chalk]. *)
Variable configPath : string.
Variable chalk : style -> string -> string.

(** The [catch] clause. *)
Definition on_error (message : string) : command :=
  ConsoleError (chalk Red message) (ProcessExit 0).

(** Saving the config file: [JSON.stringify(defaultConfig, null,
    defaultConfig.jsonIndentation)] is evaluated, then written. *)
Definition save_config : command :=
  StringifyConfig
    (fun json =>
       match json with
       | Raised message => on_error message
       | Returned data =>
           WriteFileSync configPath data
             (fun written =>
                match written with
                | Raised message => on_error message
                | Returned _ =>
                    ConsoleLog
                      ("Linguify config saved to "
                         ++ chalk Cyan (chalk Underline configPath)
                         ++ " successfully")%string
                      (ConsoleLog (chalk Green "Linguify initiated successfully")
                         Resolve)
                end)
       end).

Definition overwrite_question : string :=
  "A linguify config file already exists. Do you want to overwrite it?".

(** [init]; the answer of the prompt is the value of its [overwrite]
    property. *)
Definition init : command :=
  ConsoleLog (chalk Blue "Initiating linguify")
    (ExistsSync configPath
       (fun found =>
          if found then
            PromptToggle overwrite_question
              (fun answer =>
                 match answer with
                 | Raised message => on_error message
                 | Returned overwrite =>
                     if negb (truthy overwrite) then
                       ConsoleLog (chalk Yellow "Exiting linguify initiating")
                         (ProcessExit 0)
                     else
                       ConsoleLog (chalk Yellow "Overwriting linguify config")
                         save_config
                 end)
          else save_config)).

End InitCommand.

(** What a run of a command does, in order. *)
Inductive event : Type :=
| Logged (text : string)
| LoggedError (text : string)
| Checked (file : string) (found : bool)
| Prompted (message : string) (answer : outcome value)
| Serialized (json : outcome string)
| Wrote (file data : string) (written : outcome unit)
| Exited (code : Z).

(** The world a command runs in: what the file system, the user and the
    serializer answer. *)
Record world : Type := {
  file_exists : string -> bool;
  user_answer : string -> outcome value;
  config_json : outcome string;
  write_result : string -> string -> outcome unit
}.

Fixpoint run (w : world) (c : command) : list event :=
  match c with
  | Resolve => []
  | ProcessExit code => [Exited code]
  | ConsoleLog text next => Logged text :: run w next
  | ConsoleError text next => LoggedError text :: run w next
  | ExistsSync file next =>
      Checked file (file_exists w file) :: run w (next (file_exists w file))
  | PromptToggle message next =>
      Prompted message (user_answer w message) :: run w (next (user_answer w message))
  | StringifyConfig next => Serialized (config_json w) :: run w (next (config_json w))
  | WriteFileSync file data next =>
      Wrote file data (write_result w file data)
        :: run w (next (write_result w file data))
  end.

Definition is_write (e : event) : bool :=
  match e with Wrote _ _ _ => true | _ => false end.

Definition is_exit (e : event) : bool :=
  match e with Exited _ => true | _ => false end.

(** The user agrees to overwrite: the prompt returns a truthy [overwrite]. *)
Definition consents (w : world) : bool :=
  match user_answer w overwrite_question with
  | Returned overwrite => truthy overwrite
  | Raised _ => false
  end.

(** Some call of the run threw an exception with this message. *)
Definition raised (message : string) (e : event) : Prop :=
  e = Prompted overwrite_question (Raised message)
  \/ e = Serialized (Raised message)
  \/ exists file data, e = Wrote file data (Raised message).

(** The keys of the tree survive the round trip, at every depth: as
    [faithful], but a nested Structure may be empty. *)
Fixpoint keys_ok_deep (sep : string) (v : value) : bool :=
  match v with
  | VObj c ps =>
      okind_eqb c KObject
      && nodup_keys (keys ps)
      && (fix all (ps : list (string * value)) : bool :=
            match ps with
            | [] => true
            | (k, child) :: rest =>
                key_ok sep k child && keys_ok_deep sep child && all rest
            end) ps
  | _ => true
  end.

(** * Properties *)

(** ** Own properties: lookup and assignment *)

Lemma lookup_replace (k k' : string) (v : value) (o : DynamicObject) :
  lookup k (replace k' v o) =
  if k =? k' then (if has_key k' o then Some v else None) else lookup k o.
Proof.
  unfold has_key. induction o as [|[k0 v0] o IH]; simpl.
  - destruct (k =? k'); reflexivity.
  - destruct (String.eqb_spec k' k0) as [->|Hne]; simpl.
    + destruct (String.eqb_spec k k0) as [->|Hne']; reflexivity.
    + rewrite IH. destruct (String.eqb_spec k k') as [->|Hne'].
      * rewrite (proj2 (String.eqb_neq k' k0) Hne). reflexivity.
      * reflexivity.
Qed.

Lemma lookup_insert_index (n : N) (k k' : string) (v : value) (o : DynamicObject) :
  lookup k' o = None ->
  lookup k (insert_index n k' v o) = if k =? k' then Some v else lookup k o.
Proof.
  induction o as [|[k0 v0] o IH]; simpl; intros Hnone.
  - reflexivity.
  - destruct (String.eqb_spec k' k0) as [->|Hne]; [discriminate|].
    destruct (array_index k0) as [m|]; [destruct (m <? n)%N|]; simpl;
      try reflexivity.
    rewrite IH by assumption.
    destruct (String.eqb_spec k k0) as [->|Hne'].
    + rewrite (proj2 (String.eqb_neq k0 k')) by congruence. reflexivity.
    + reflexivity.
Qed.

Lemma lookup_app (k : string) (o1 o2 : DynamicObject) :
  lookup k (o1 ++ o2) =
  match lookup k o1 with Some v => Some v | None => lookup k o2 end.
Proof.
  induction o1 as [|[k0 v0] o1 IH]; simpl; [reflexivity|].
  destruct (k =? k0); [reflexivity|apply IH].
Qed.

Lemma lookup_insert_new (k k' : string) (v : value) (o : DynamicObject) :
  lookup k' o = None ->
  lookup k (insert_new k' v o) = if k =? k' then Some v else lookup k o.
Proof.
  intros Hnone. unfold insert_new. destruct (array_index k') as [n|].
  - apply lookup_insert_index; assumption.
  - rewrite lookup_app. simpl.
    destruct (String.eqb_spec k k') as [->|Hne].
    + rewrite Hnone. reflexivity.
    + destruct (lookup k o); reflexivity.
Qed.

Lemma lookup_obj_set (k k' : string) (v : value) (o : DynamicObject) :
  lookup k (obj_set k' v o) = if k =? k' then Some v else lookup k o.
Proof.
  unfold obj_set. destruct (has_key k' o) eqn:Hhas.
  - rewrite lookup_replace, Hhas. reflexivity.
  - apply lookup_insert_new. unfold has_key in Hhas.
    destruct (lookup k' o); [discriminate|reflexivity].
Qed.

Lemma lookup_obj_set_same (k : string) (v : value) (o : DynamicObject) :
  lookup k (obj_set k v o) = Some v.
Proof. rewrite lookup_obj_set, String.eqb_refl. reflexivity. Qed.

Lemma lookup_obj_set_other (k k' : string) (v : value) (o : DynamicObject) :
  k <> k' -> lookup k (obj_set k' v o) = lookup k o.
Proof.
  intros Hne. rewrite lookup_obj_set.
  rewrite (proj2 (String.eqb_neq k k') Hne). reflexivity.
Qed.

Lemma lookup_None_keys (k : string) (o : DynamicObject) :
  lookup k o = None <-> ~ In k (keys o).
Proof.
  unfold keys. induction o as [|[k0 v0] o IH]; simpl.
  - tauto.
  - destruct (String.eqb_spec k k0) as [->|Hne].
    + split; [discriminate|]. intros H. exfalso. apply H. left. reflexivity.
    + rewrite IH. split.
      * intros H [Heq|Hin]; [congruence|tauto].
      * intros H Hin. apply H. right. assumption.
Qed.

Lemma lookup_Some_In (k : string) (v : value) (o : DynamicObject) :
  lookup k o = Some v -> In (k, v) o.
Proof.
  induction o as [|[k0 v0] o IH]; simpl; [discriminate|].
  destruct (String.eqb_spec k k0) as [->|Hne].
  - intros [= ->]. left. reflexivity.
  - intros H. right. apply IH. assumption.
Qed.

Lemma nodup_keys_NoDup (l : list string) :
  nodup_keys l = true <-> NoDup l.
Proof.
  induction l as [|k l IH]; simpl.
  - split; [constructor|reflexivity].
  - rewrite andb_true_iff, negb_true_iff, IH. split.
    + intros [Hex Hnd]. constructor; [|assumption].
      intros Hin. assert (existsb (String.eqb k) l = true) as Habs.
      { apply existsb_exists. exists k. split; [assumption|apply String.eqb_refl]. }
      congruence.
    + intros Hnd. inversion Hnd as [|x l' Hnin Hnd']; subst. split; [|assumption].
      destruct (existsb (String.eqb k) l) eqn:Hex; [|reflexivity].
      apply existsb_exists in Hex. destruct Hex as [x [Hin Heq]].
      apply String.eqb_eq in Heq. subst x. contradiction.
Qed.

Lemma In_lookup_NoDup (k : string) (v : value) (o : DynamicObject) :
  NoDup (keys o) -> In (k, v) o -> lookup k o = Some v.
Proof.
  unfold keys. induction o as [|[k0 v0] o IH]; simpl; intros Hnd Hin; [contradiction|].
  inversion Hnd as [|x l Hnin Hnd']; subst.
  destruct Hin as [[= -> ->]|Hin].
  - rewrite String.eqb_refl. reflexivity.
  - destruct (String.eqb_spec k k0) as [->|Hne].
    + exfalso. apply Hnin. apply in_map_iff. exists (k0, v). split; [reflexivity|assumption].
    + apply IH; assumption.
Qed.

Lemma In_replace (e : string * value) (k : string) (v : value) (o : DynamicObject) :
  In e (replace k v o) -> e = (k, v) \/ In e o.
Proof.
  induction o as [|[k0 v0] o IH]; simpl; [tauto|].
  destruct (k =? k0); simpl; intros [H|H]; auto.
  destruct (IH H); auto.
Qed.

Lemma In_insert_index (e : string * value) (n : N) (k : string) (v : value)
  (o : DynamicObject) :
  In e (insert_index n k v o) <-> e = (k, v) \/ In e o.
Proof.
  induction o as [|[k0 v0] o IH]; simpl.
  - intuition congruence.
  - destruct (array_index k0) as [m|]; [destruct (m <? n)%N|]; simpl;
      rewrite ?IH; intuition congruence.
Qed.

Lemma In_insert_new (e : string * value) (k : string) (v : value) (o : DynamicObject) :
  In e (insert_new k v o) <-> e = (k, v) \/ In e o.
Proof.
  unfold insert_new. destruct (array_index k).
  - apply In_insert_index.
  - rewrite in_app_iff. simpl. intuition congruence.
Qed.

Lemma In_obj_set (e : string * value) (k : string) (v : value) (o : DynamicObject) :
  In e (obj_set k v o) -> e = (k, v) \/ In e o.
Proof.
  unfold obj_set. destruct (has_key k o).
  - apply In_replace.
  - apply In_insert_new.
Qed.

Lemma In_assign_all (e : string * value) (entries : list (string * value))
  (o : DynamicObject) :
  In e (assign_all entries o) -> In e entries \/ In e o.
Proof.
  unfold assign_all. revert o.
  induction entries as [|[k v] entries IH]; simpl; intros o H; [tauto|].
  destruct (IH _ H) as [Hin|Hin]; [tauto|].
  apply In_obj_set in Hin. simpl in Hin. destruct Hin as [->|Hin]; auto.
Qed.

(** ** flatten *)

Lemma flattened_entries_fold (sep : string) (c : okind) (ps : DynamicObject) :
  flattened_entries sep (VObj c ps) = fold_left (flatten_step sep) ps [].
Proof.
  simpl. generalize (@nil (string * value)) as acc.
  induction ps as [|[k v] ps IH]; intros acc; simpl; [reflexivity|].
  rewrite IH. reflexivity.
Qed.

Lemma is_nonnull_object_isObject (v : value) :
  is_nonnull_object v = isObject v.
Proof. destruct v; reflexivity. Qed.

Lemma flattened_entries_primitive (sep : string) (X : value) :
  forall e, In e (flattened_entries sep X) -> isObject (snd e) = false.
Proof.
  induction X as [| | | | | |c ps IH] using value_nested_ind; try (simpl; tauto).
  rewrite flattened_entries_fold.
  assert (forall acc,
             (forall e, In e acc -> isObject (snd e) = false) ->
             forall e, In e (fold_left (flatten_step sep) ps acc) ->
                       isObject (snd e) = false) as Hgen.
  { induction ps as [|[k v] ps IHps]; simpl; intros acc Hacc e He.
    - apply Hacc. assumption.
    - inversion IH as [|x l Hv Hps]; subst.
      apply (IHps Hps) with (acc := flatten_step sep acc (k, v)); [|assumption].
      intros e' He'. unfold flatten_step in He'. simpl in He'.
      rewrite is_nonnull_object_isObject in He'.
      destruct (isObject v) eqn:Hobj.
      + unfold prefixed_entries in He'. apply In_assign_all in He'.
        destruct He' as [Hin|Hin]; [|apply Hacc; assumption].
        apply in_map_iff in Hin. destruct Hin as [x [<- Hx]]. simpl.
        apply Hv. assumption.
      + apply In_obj_set in He'. destruct He' as [->|Hin]; [assumption|].
        apply Hacc. assumption. }
  apply Hgen. simpl. tauto.
Qed.

Lemma as_structure_isObject (v : value) :
  isObject (as_structure v) = isObject v.
Proof. destruct v; reflexivity. Qed.

Lemma as_structure_obj (c : okind) (ps : DynamicObject) :
  as_structure (VObj c ps)
  = VObj KObject (map (fun e => (fst e, as_structure (snd e))) ps).
Proof.
  simpl. f_equal. induction ps as [|[k v] ps IH]; simpl; [reflexivity|].
  rewrite IH. reflexivity.
Qed.

(** ** The guard of flatten and unflatten *)

Lemma put_throws_TypeError (cur : value) (k : string) (v : value) (e : error) :
  put cur k v = Throw e -> e = TypeError.
Proof. destruct cur; simpl; congruence. Qed.

Lemma assign_parts_intermediate (p q : string) (rest : list string) (v cur : value) :
  p <> "" ->
  assign_parts (p :: q :: rest) v cur
  = (let child := if truthy (get cur p) then get cur p else VObj KObject [] in
     _ <- put cur p child ;;
     child' <- assign_parts (q :: rest) v child ;;
     put cur p child').
Proof.
  intros Hne. cbn [assign_parts]. rewrite (proj2 (String.eqb_neq p "") Hne).
  reflexivity.
Qed.

Lemma assign_parts_skip (rest : list string) (v cur : value) :
  assign_parts ("" :: rest) v cur = assign_parts rest v cur.
Proof. reflexivity. Qed.

Lemma assign_parts_last (p : string) (v cur : value) :
  p <> "" -> assign_parts [p] v cur = put cur p v.
Proof.
  intros Hne. cbn [assign_parts]. rewrite (proj2 (String.eqb_neq p "") Hne).
  reflexivity.
Qed.

Lemma assign_parts_throws_TypeError (parts : list string) (v cur : value) (e : error) :
  assign_parts parts v cur = Throw e -> e = TypeError.
Proof.
  revert cur. induction parts as [|p rest IH]; intros cur; [discriminate|].
  destruct (String.eqb_spec p "") as [->|Hne]; [rewrite assign_parts_skip; apply IH|].
  destruct rest as [|q rest'].
  - rewrite assign_parts_last by assumption. apply put_throws_TypeError.
  - rewrite assign_parts_intermediate by assumption. cbv zeta.
    set (child := if truthy (get cur p) then get cur p else VObj KObject []).
    destruct (put cur p child) eqn:Hput; cbn [bind].
    + destruct (assign_parts (q :: rest') v child) eqn:Hrec; cbn [bind].
      * apply put_throws_TypeError.
      * intros [= <-]. apply (IH child). assumption.
    + intros [= <-]. apply put_throws_TypeError in Hput. assumption.
Qed.

Lemma unflatten_loop_throws_TypeError (sep : string) (F : DynamicObject)
  (nested : value) (e : error) :
  unflatten_loop sep F nested = Throw e -> e = TypeError.
Proof.
  unfold unflatten_loop.
  assert (forall acc,
             (forall e', acc = Throw e' -> e' = TypeError) ->
             fold_left
               (fun acc e0 =>
                  nested' <- acc ;; assign_parts (split sep (fst e0)) (snd e0) nested')
               F acc = Throw e -> e = TypeError) as Hgen.
  { induction F as [|[k v] F IH]; simpl; intros acc Hacc H.
    - apply Hacc. assumption.
    - apply IH in H; [assumption|]. intros e' He'.
      destruct acc as [n|e0]; simpl in He'.
      + apply assign_parts_throws_TypeError in He'. assumption.
      + apply Hacc. assumption. }
  apply Hgen. discriminate.
Qed.

(** ** unflatten: an intermediate segment that holds a scalar *)

(** ** unflatten: empty segments *)

(** ** flatten: empty Structures *)

(** ** Assignment keeps keys unique *)

Lemma keys_replace (k : string) (v : value) (o : DynamicObject) :
  keys (replace k v o) = keys o.
Proof.
  unfold keys. induction o as [|[k0 v0] o IH]; simpl; [reflexivity|].
  destruct (String.eqb_spec k k0) as [->|Hne]; simpl; [reflexivity|].
  rewrite IH. reflexivity.
Qed.

Lemma insert_index_Permutation (n : N) (k : string) (v : value) (o : DynamicObject) :
  Permutation ((k, v) :: o) (insert_index n k v o).
Proof.
  induction o as [|[k0 v0] o IH]; simpl; [reflexivity|].
  destruct (array_index k0) as [m|]; [destruct (m <? n)%N|]; try reflexivity.
  rewrite perm_swap. apply perm_skip. assumption.
Qed.

Lemma insert_new_Permutation (k : string) (v : value) (o : DynamicObject) :
  Permutation ((k, v) :: o) (insert_new k v o).
Proof.
  unfold insert_new. destruct (array_index k).
  - apply insert_index_Permutation.
  - apply Permutation_cons_append.
Qed.

Lemma has_key_In (k : string) (o : DynamicObject) :
  has_key k o = true <-> In k (keys o).
Proof.
  unfold has_key. pose proof (lookup_None_keys k o) as H.
  destruct (lookup k o).
  - split; [|reflexivity]. intros _.
    destruct (in_dec string_dec k (keys o)) as [Hin|Hnin]; [assumption|].
    apply H in Hnin. discriminate.
  - split; [discriminate|]. intros Hin. exfalso. apply (proj1 H); auto.
Qed.

Lemma obj_set_NoDup (k : string) (v : value) (o : DynamicObject) :
  NoDup (keys o) -> NoDup (keys (obj_set k v o)).
Proof.
  intros Hnd. unfold obj_set. destruct (has_key k o) eqn:Hhas.
  - rewrite keys_replace. assumption.
  - apply (Permutation_NoDup (l := k :: keys o)).
    + unfold keys. change (k :: map fst o) with (map fst ((k, v) :: o)).
      apply Permutation_map. apply insert_new_Permutation.
    + constructor; [|assumption]. intros Hin. apply has_key_In in Hin. congruence.
Qed.

Lemma assign_all_NoDup (entries : list (string * value)) (o : DynamicObject) :
  NoDup (keys o) -> NoDup (keys (assign_all entries o)).
Proof.
  unfold assign_all. revert o.
  induction entries as [|[k v] entries IH]; simpl; intros o Hnd; [assumption|].
  apply IH. apply obj_set_NoDup. assumption.
Qed.

Lemma lookup_assign_all (k : string) (entries : list (string * value))
  (o : DynamicObject) :
  NoDup (keys entries) ->
  lookup k (assign_all entries o) =
  match lookup k entries with Some v => Some v | None => lookup k o end.
Proof.
  unfold assign_all. revert o.
  induction entries as [|[k0 v0] entries IH]; simpl; intros o Hnd; [reflexivity|].
  inversion Hnd as [|x l Hnin Hnd']; subst.
  rewrite IH by assumption.
  destruct (String.eqb_spec k k0) as [->|Hne].
  - rewrite (proj2 (lookup_None_keys k0 entries)) by assumption.
    apply lookup_obj_set_same.
  - rewrite lookup_obj_set_other by assumption. reflexivity.
Qed.

Lemma keys_filter_NoDup (p : string * value -> bool) (o : DynamicObject) :
  NoDup (keys o) -> NoDup (keys (filter p o)).
Proof.
  unfold keys. induction o as [|[k0 v0] o IH]; simpl; intros Hnd; [constructor|].
  inversion Hnd as [|x l Hnin Hnd']; subst.
  destruct (p (k0, v0)); simpl; [|apply IH; assumption].
  constructor; [|apply IH; assumption].
  intros Hin. apply Hnin. apply in_map_iff in Hin. destruct Hin as [e [He Hin]].
  apply filter_In in Hin. apply in_map_iff. exists e. tauto.
Qed.

Lemma lookup_filter (k : string) (p : string * value -> bool) (o : DynamicObject) :
  NoDup (keys o) ->
  lookup k (filter p o) =
  match lookup k o with
  | Some v => if p (k, v) then Some v else None
  | None => None
  end.
Proof.
  unfold keys. induction o as [|[k0 v0] o IH]; simpl; intros Hnd; [reflexivity|].
  inversion Hnd as [|x l Hnin Hnd']; subst.
  destruct (String.eqb_spec k k0) as [->|Hne].
  - destruct (p (k0, v0)) eqn:Hp; simpl.
    + rewrite String.eqb_refl. reflexivity.
    + rewrite IH by assumption.
      rewrite (proj2 (lookup_None_keys k0 o)) by assumption. reflexivity.
  - destruct (p (k0, v0)); simpl.
    + rewrite (proj2 (String.eqb_neq k k0) Hne). apply IH. assumption.
    + apply IH. assumption.
Qed.

Lemma lookup_mapValues (k : string) (f : value -> value) (o : DynamicObject) :
  lookup k (mapValues f o) = option_map f (lookup k o).
Proof.
  unfold mapValues. induction o as [|[k0 v0] o IH]; simpl; [reflexivity|].
  destruct (k =? k0); [reflexivity|apply IH].
Qed.

Lemma keys_mapValues (f : value -> value) (o : DynamicObject) :
  keys (mapValues f o) = keys o.
Proof.
  unfold keys, mapValues. rewrite map_map. reflexivity.
Qed.

Lemma lookup_pickBy (k : string) (p : value -> bool) (o : DynamicObject) :
  NoDup (keys o) ->
  lookup k (pickBy p o) =
  match lookup k o with
  | Some v => if p v then Some v else None
  | None => None
  end.
Proof.
  intros Hnd. unfold pickBy.
  rewrite lookup_assign_all by (apply keys_filter_NoDup; assumption).
  rewrite lookup_filter by assumption. simpl.
  destruct (lookup k o) as [v|]; [destruct (p v)|]; reflexivity.
Qed.

Lemma pickBy_NoDup (p : value -> bool) (entries : list (string * value)) :
  NoDup (keys (pickBy p entries)).
Proof. apply assign_all_NoDup. constructor. Qed.

Lemma In_pickBy (e : string * value) (p : value -> bool)
  (entries : list (string * value)) :
  In e (pickBy p entries) -> In e entries /\ p (snd e) = true.
Proof.
  unfold pickBy. intros H. apply In_assign_all in H.
  destruct H as [H|[]]. apply filter_In in H. assumption.
Qed.

(** ** mapValues commutes with the construction of objects *)

Lemma has_key_mapValues (k : string) (f : value -> value) (o : DynamicObject) :
  has_key k (mapValues f o) = has_key k o.
Proof.
  unfold has_key. rewrite lookup_mapValues. destruct (lookup k o); reflexivity.
Qed.

Lemma mapValues_replace (f : value -> value) (k : string) (v : value)
  (o : DynamicObject) :
  mapValues f (replace k v o) = replace k (f v) (mapValues f o).
Proof.
  unfold mapValues. induction o as [|[k0 v0] o IH]; simpl; [reflexivity|].
  destruct (k =? k0); simpl; [reflexivity|]. rewrite IH. reflexivity.
Qed.

Lemma mapValues_insert_index (f : value -> value) (n : N) (k : string) (v : value)
  (o : DynamicObject) :
  mapValues f (insert_index n k v o) = insert_index n k (f v) (mapValues f o).
Proof.
  unfold mapValues. induction o as [|[k0 v0] o IH]; simpl; [reflexivity|].
  destruct (array_index k0) as [m|]; [destruct (m <? n)%N|]; simpl;
    try reflexivity.
  rewrite IH. reflexivity.
Qed.

Lemma mapValues_obj_set (f : value -> value) (k : string) (v : value)
  (o : DynamicObject) :
  mapValues f (obj_set k v o) = obj_set k (f v) (mapValues f o).
Proof.
  unfold obj_set. rewrite has_key_mapValues. destruct (has_key k o).
  - apply mapValues_replace.
  - unfold insert_new. destruct (array_index k).
    + apply mapValues_insert_index.
    + unfold mapValues. rewrite map_app. reflexivity.
Qed.

Lemma mapValues_assign_all (f : value -> value) (entries : list (string * value))
  (o : DynamicObject) :
  mapValues f (assign_all entries o)
  = assign_all (mapValues f entries) (mapValues f o).
Proof.
  unfold assign_all. revert o.
  induction entries as [|[k v] entries IH]; simpl; intros o; [reflexivity|].
  rewrite IH, mapValues_obj_set. reflexivity.
Qed.

Lemma filter_mapValues (p : value -> bool) (f : value -> value)
  (l : list (string * value)) :
  filter (fun e => p (snd e)) (mapValues f l)
  = mapValues f (filter (fun e => p (f (snd e))) l).
Proof.
  unfold mapValues. induction l as [|[k v] l IH]; simpl; [reflexivity|].
  destruct (p (f v)); simpl; rewrite IH; reflexivity.
Qed.

Lemma filter_keys_mapValues (q : string -> bool) (f : value -> value)
  (l : list (string * value)) :
  filter (fun e => q (fst e)) (mapValues f l)
  = mapValues f (filter (fun e => q (fst e)) l).
Proof.
  unfold mapValues. induction l as [|[k v] l IH]; simpl; [reflexivity|].
  destruct (q k); simpl; rewrite IH; reflexivity.
Qed.

Lemma arr_length_mapValues (f : value -> value) (ps : DynamicObject) :
  arr_length (mapValues f ps) = arr_length ps.
Proof.
  unfold arr_length, mapValues. generalize 0%N as acc.
  induction ps as [|[k v] ps IH]; simpl; intros acc; [reflexivity|]. apply IH.
Qed.

Lemma toPairs_mapValues (f : value -> value) (c : okind) (ps : DynamicObject) :
  f VUndef = VUndef ->
  toPairs c (mapValues f ps) = mapValues f (toPairs c ps).
Proof.
  intros Hundef. destruct c; simpl; [reflexivity|].
  rewrite arr_length_mapValues.
  rewrite (filter_keys_mapValues (fun k => negb (is_index_key k))).
  unfold mapValues at 3. rewrite map_app, map_map. f_equal.
  apply map_ext. intros i. simpl. rewrite lookup_mapValues.
  destruct (lookup (index_key i) ps); simpl; congruence.
Qed.

Lemma mapValues_ext_in (f g : value -> value) (l : list (string * value)) :
  (forall e, In e l -> f (snd e) = g (snd e)) -> mapValues f l = mapValues g l.
Proof.
  intros H. unfold mapValues. apply map_ext_in. intros e He.
  rewrite (H e He). reflexivity.
Qed.

Lemma pickBy_mapValues (p : value -> bool) (f : value -> value)
  (l : list (string * value)) :
  (forall v, p (f v) = p v) ->
  pickBy p (mapValues f l) = mapValues f (pickBy p l).
Proof.
  intros Hp. unfold pickBy. rewrite filter_mapValues, mapValues_assign_all.
  simpl. f_equal. f_equal. apply filter_ext. intros e. apply Hp.
Qed.

(** ** clear: the chain as written *)

Lemma clear_default_each (c : okind) (ps : DynamicObject) :
  clear_default (VObj c ps)
  = let entries := toPairs c (mapValues clear_callback ps) in
    assign (omitBy isEmpty (pickBy isObject entries)) (omitBy isObject entries).
Proof.
  cbn [clear_default]. cbv zeta. f_equal; f_equal; try f_equal; f_equal;
    (induction ps as [|[k v] ps IH]; simpl; [reflexivity|]; rewrite IH; reflexivity).
Qed.

Lemma clear_default_unfold (c : okind) (ps : DynamicObject) :
  clear_default (VObj c ps)
  = assign
      (omitBy isEmpty (mapValues clear_nested (pickBy isObject (toPairs c ps))))
      (omitBy isObject (toPairs c ps)).
Proof.
  rewrite clear_default_each. cbv zeta.
  rewrite toPairs_mapValues by reflexivity.
  assert (forall v, isObject (clear_callback v) = isObject v) as Hobj.
  { intros v. unfold clear_callback. destruct (isObject v) eqn:H; [reflexivity|assumption]. }
  f_equal.
  - f_equal. rewrite pickBy_mapValues by assumption.
    apply mapValues_ext_in. intros e He. apply In_pickBy in He.
    unfold clear_callback. rewrite (proj2 He). reflexivity.
  - unfold omitBy. rewrite pickBy_mapValues by (intros v; rewrite Hobj; reflexivity).
    transitivity (mapValues (fun v => v) (pickBy (fun v => negb (isObject v)) (toPairs c ps))).
    + apply mapValues_ext_in. intros e He. apply In_pickBy in He.
      unfold clear_callback. destruct (isObject (snd e)); [|reflexivity].
      destruct He as [_ He]. discriminate.
    + unfold mapValues. rewrite <- (map_id (pickBy _ _)) at 2.
      apply map_ext. intros [k v]. reflexivity.
Qed.

Example clear_spec_example_default :
  clear (obj [("a", obj []); ("b", obj [("c", VNum 1)])]) false
  = [("b", obj [("c", VNum 1)])].
Proof. reflexivity. Qed.

Example clear_spec_example_skipFirstDepth :
  clear (obj [("a", obj []); ("b", VNum 1)]) true = [("a", obj []); ("b", obj [])].
Proof. reflexivity. Qed.

(** ** clear with skipFirstDepth *)

(** ** clear is idempotent *)

Lemma In_toPairs_object (c : okind) (ps : DynamicObject) (k : string) (v : value) :
  In (k, v) (toPairs c ps) -> isObject v = true -> exists k', In (k', v) ps.
Proof.
  destruct c; simpl; intros Hin Hobj.
  - exists k. assumption.
  - apply in_app_iff in Hin. destruct Hin as [Hin|Hin].
    + apply in_map_iff in Hin. destruct Hin as [i [[= <- <-] _]].
      destruct (lookup (index_key i) ps) as [w|] eqn:Hl; [|discriminate].
      exists (index_key i). apply lookup_Some_In. assumption.
    + apply filter_In in Hin. exists k. tauto.
Qed.

Lemma clear_nested_clean (X : value) : clean (clear_nested X).
Proof.
  unfold clear_nested.
  induction X as [| | | | | |c ps IH] using value_nested_ind;
    try (constructor; [constructor|intros ? ? []|intros ? ? []]).
  rewrite clear_default_unfold. unfold assign.
  constructor.
  - apply assign_all_NoDup. apply pickBy_NoDup.
  - intros k v Hin Hobj. apply In_assign_all in Hin. destruct Hin as [Hin|Hin].
    + apply In_pickBy in Hin. simpl in Hin. rewrite Hobj in Hin. destruct Hin. discriminate.
    + apply In_pickBy in Hin. destruct Hin as [Hin _].
      unfold mapValues in Hin. apply in_map_iff in Hin.
      destruct Hin as [[k0 v0] [[= <- <-] Hin]].
      apply In_pickBy in Hin. destruct Hin as [Hin Hobj0]. simpl in Hobj0.
      destruct (In_toPairs_object c ps k0 v0 Hin Hobj0) as [k' Hk'].
      rewrite Forall_forall in IH. apply (IH (k', v0)). assumption.
  - intros k v Hin Hobj. apply In_assign_all in Hin. destruct Hin as [Hin|Hin].
    + apply In_pickBy in Hin. simpl in Hin. rewrite Hobj in Hin. destruct Hin. discriminate.
    + apply In_pickBy in Hin. destruct Hin as [_ Hne]. simpl in Hne.
      apply negb_true_iff in Hne. assumption.
Qed.




Lemma clear_skip_values (c : okind) (ps : DynamicObject) (k : string) (v : value) :
  In (k, v) (clear (VObj c ps) true) -> clean v.
Proof.
  cbn [clear]. intros Hin. unfold mapValues at 1 in Hin.
  apply in_map_iff in Hin. destruct Hin as [[k0 v0] [[= <- <-] Hin]].
  unfold assign in Hin. apply In_assign_all in Hin. destruct Hin as [Hin|Hin].
  - apply In_pickBy in Hin. destruct Hin as [_ Hp]. simpl in Hp.
    apply negb_true_iff in Hp. rewrite Hp.
    constructor; [constructor|intros ? ? []|intros ? ? []].
  - unfold mapValues in Hin. apply in_map_iff in Hin.
    destruct Hin as [[k1 v1] [[= <- <-] _]]. simpl.
    apply clear_nested_clean.
Qed.


(** ** The order of strings and of keys *)

Lemma string_compare_refl (s : string) : String.compare s s = Eq.
Proof.
  induction s as [|a s IH]; simpl; [reflexivity|].
  unfold Ascii.compare. rewrite N.compare_refl. assumption.
Qed.

Lemma string_compare_lt_trans (a b c : string) :
  String.compare a b = Lt -> String.compare b c = Lt -> String.compare a c = Lt.
Proof.
  revert b c. induction a as [|x a IH]; intros [|y b] [|z c]; simpl;
    try discriminate; try reflexivity.
  unfold Ascii.compare.
  destruct (N.compare_spec (N_of_ascii x) (N_of_ascii y)) as [Hxy|Hxy|Hxy];
    try discriminate;
    destruct (N.compare_spec (N_of_ascii y) (N_of_ascii z)) as [Hyz|Hyz|Hyz];
    try discriminate; intros H1 H2.
  - rewrite Hxy, Hyz, N.compare_refl. apply (IH b c); assumption.
  - rewrite Hxy. rewrite (proj2 (N.compare_lt_iff _ _) Hyz). reflexivity.
  - rewrite <- Hyz. rewrite (proj2 (N.compare_lt_iff _ _) Hxy). reflexivity.
  - rewrite (proj2 (N.compare_lt_iff _ _) (N.lt_trans _ _ _ Hxy Hyz)). reflexivity.
Qed.

Lemma ltb_irrefl (s : string) : String.ltb s s = false.
Proof. unfold String.ltb. rewrite string_compare_refl. reflexivity. Qed.

Lemma ltb_trans (a b c : string) :
  String.ltb a b = true -> String.ltb b c = true -> String.ltb a c = true.
Proof.
  unfold String.ltb. intros H1 H2.
  destruct (String.compare a b) eqn:Hab; try discriminate.
  destruct (String.compare b c) eqn:Hbc; try discriminate.
  rewrite (string_compare_lt_trans a b c Hab Hbc). reflexivity.
Qed.

Lemma ltb_total (a b : string) :
  String.ltb a b = false -> String.ltb b a = false -> a = b.
Proof.
  unfold String.ltb. rewrite (String.compare_antisym a b).
  destruct (String.compare b a) eqn:Hba; simpl; try discriminate.
  intros _ _. symmetry. apply String.compare_eq_iff. assumption.
Qed.

Lemma key_le_trans (a b c : string) : key_le a b -> key_le b c -> key_le a c.
Proof.
  unfold key_le. intros Hab Hbc.
  destruct (String.ltb c a) eqn:Hca; [|reflexivity].
  destruct (String.ltb a b) eqn:Hlt.
  - rewrite (ltb_trans c a b Hca Hlt) in Hbc. discriminate.
  - rewrite (ltb_total a b Hlt Hab) in Hca. congruence.
Qed.

Lemma key_le_neq_ltb (a b : string) : key_le a b -> a <> b -> String.ltb a b = true.
Proof.
  unfold key_le. intros Hle Hne.
  destruct (String.ltb a b) eqn:Hlt; [reflexivity|].
  exfalso. apply Hne. apply ltb_total; assumption.
Qed.

Lemma array_index_canonical (s : string) (n : N) :
  array_index s = Some n -> index_key n = s.
Proof.
  unfold array_index. destruct (NilZero.uint_of_string s) as [d|]; [|discriminate].
  cbv zeta. destruct (index_key (N.of_uint d) =? s) eqn:Heq; simpl; [|discriminate].
  destruct (N.of_uint d <? 4294967295)%N; [|discriminate].
  intros [= <-]. apply String.eqb_eq. assumption.
Qed.

Lemma array_index_inj (k1 k2 : string) (n : N) :
  array_index k1 = Some n -> array_index k2 = Some n -> k1 = k2.
Proof.
  intros H1 H2. apply array_index_canonical in H1, H2. congruence.
Qed.

Lemma key_before_trans (a b c : string) :
  key_before a b = true -> key_before b c = true -> key_before a c = true.
Proof.
  unfold key_before.
  destruct (array_index a), (array_index b), (array_index c);
    try discriminate; try reflexivity.
  - rewrite !N.ltb_lt. apply N.lt_trans.
  - apply ltb_trans.
Qed.

(** ** sortBy *)

Lemma insert_by_key_Permutation (e : string * value) (l : list (string * value)) :
  Permutation (e :: l) (insert_by_key e l).
Proof.
  induction l as [|e' l IH]; simpl; [reflexivity|].
  destruct (String.ltb (fst e') (fst e)); [|reflexivity].
  rewrite perm_swap. apply perm_skip. assumption.
Qed.

Lemma sortBy0_Permutation (l : list (string * value)) : Permutation l (sortBy0 l).
Proof.
  unfold sortBy0. induction l as [|e l IH]; simpl; [reflexivity|].
  rewrite <- insert_by_key_Permutation. apply perm_skip. assumption.
Qed.

Lemma insert_by_key_sorted (e : string * value) (l : list (string * value)) :
  StronglySorted (fun a b => key_le (fst a) (fst b)) l ->
  StronglySorted (fun a b => key_le (fst a) (fst b)) (insert_by_key e l).
Proof.
  induction l as [|e' l IH]; simpl; intros Hs.
  - constructor; constructor.
  - inversion Hs as [|x l' Hs' Hall]; subst.
    destruct (String.ltb (fst e') (fst e)) eqn:Hlt.
    + constructor; [apply IH; assumption|].
      apply (Permutation_Forall (insert_by_key_Permutation e l)).
      constructor; [|assumption].
      unfold key_le. destruct (String.ltb (fst e) (fst e')) eqn:Hgt; [|reflexivity].
      pose proof (ltb_trans _ _ _ Hlt Hgt) as Hc.
      rewrite ltb_irrefl in Hc. discriminate.
    + constructor; [assumption|]. constructor; [exact Hlt|].
      apply (Forall_impl (P := fun b => key_le (fst e') (fst b))); [|assumption].
      intros b Hb. apply (key_le_trans (b := fst e')); assumption.
Qed.

Lemma sortBy0_sorted (l : list (string * value)) :
  StronglySorted (fun a b => key_le (fst a) (fst b)) (sortBy0 l).
Proof.
  unfold sortBy0. induction l as [|e l IH]; simpl; [constructor|].
  apply insert_by_key_sorted. assumption.
Qed.

(** ** fromPairs of sorted pairs *)

Lemma In_keys_obj_set (k' k : string) (v : value) (o : DynamicObject) :
  In k' (keys (obj_set k v o)) -> k' = k \/ In k' (keys o).
Proof.
  unfold keys. intros Hin. apply in_map_iff in Hin.
  destruct Hin as [[k0 v0] [<- Hin]]. apply In_obj_set in Hin.
  destruct Hin as [[= -> ->]|Hin]; [left; reflexivity|].
  right. apply in_map_iff. exists (k0, v0). split; [reflexivity|assumption].
Qed.

Lemma StronglySorted_snoc (R : string -> string -> Prop) (l : list string) (k : string) :
  StronglySorted R l -> Forall (fun x => R x k) l -> StronglySorted R (l ++ [k]).
Proof.
  induction l as [|x l IH]; simpl; intros Hs Hall.
  - constructor; constructor.
  - inversion Hs as [|y l' Hs' Hx]; subst. inversion Hall as [|y l' Hxk Hall']; subst.
    constructor; [apply IH; assumption|].
    apply Forall_app. split; [assumption|]. constructor; [assumption|constructor].
Qed.

Lemma insert_index_sorted (n : N) (k : string) (v : value) (o : DynamicObject) :
  array_index k = Some n ->
  ~ In k (keys o) ->
  StronglySorted (fun a b => key_before a b = true) (keys o) ->
  StronglySorted (fun a b => key_before a b = true) (keys (insert_index n k v o)).
Proof.
  intros Hidx. unfold keys.
  induction o as [|[k0 v0] o IH]; simpl; intros Hnin Hs.
  - constructor; constructor.
  - inversion Hs as [|x l Hs' Hall]; subst.
    assert (forall m, array_index k0 = Some m -> (m <? n)%N = false ->
                      key_before k k0 = true) as Hbefore.
    { intros m Hm Hge. unfold key_before. rewrite Hidx, Hm.
      apply N.ltb_lt. apply N.ltb_ge in Hge.
      destruct (N.eq_dec m n) as [->|Hmn]; [|lia].
      exfalso. apply Hnin. left. apply (array_index_inj k0 k Hm Hidx). }
    assert (key_before k k0 = true ->
            StronglySorted (fun a b => key_before a b = true)
              (k :: k0 :: map fst o)) as Hfront.
    { intros Hk. constructor; [assumption|]. constructor; [assumption|].
      apply (Forall_impl (P := fun b => key_before k0 b = true)); [|assumption].
      intros b Hb. apply (key_before_trans k k0 b); assumption. }
    destruct (array_index k0) as [m|] eqn:Hm.
    + destruct (m <? n)%N eqn:Hlt; simpl.
      * constructor; [apply IH; [tauto|assumption]|].
        apply (Permutation_Forall
                 (Permutation_map fst (insert_index_Permutation n k v o))).
        simpl. constructor; [|assumption].
        unfold key_before. rewrite Hm, Hidx. assumption.
      * apply Hfront. apply (Hbefore m); [reflexivity|assumption].
    + simpl. apply Hfront. unfold key_before. rewrite Hidx, Hm. reflexivity.
Qed.

Lemma obj_set_sorted (k : string) (v : value) (o : DynamicObject) :
  StronglySorted (fun a b => key_before a b = true) (keys o) ->
  (forall k', In k' (keys o) -> key_le k' k) ->
  StronglySorted (fun a b => key_before a b = true) (keys (obj_set k v o)).
Proof.
  intros Hs Hle. unfold obj_set. destruct (has_key k o) eqn:Hhas.
  - rewrite keys_replace. assumption.
  - assert (~ In k (keys o)) as Hnin
        by (intros Hin; apply has_key_In in Hin; congruence).
    unfold insert_new. destruct (array_index k) as [n|] eqn:Hidx.
    + apply insert_index_sorted; assumption.
    + unfold keys. rewrite map_app. simpl. apply StronglySorted_snoc; [assumption|].
      apply Forall_forall. intros k' Hin. unfold key_before. rewrite Hidx.
      destruct (array_index k'); [reflexivity|].
      apply key_le_neq_ltb; [apply Hle; assumption|].
      intros ->. contradiction.
Qed.

Lemma assign_all_sorted (pairs : list (string * value)) (o : DynamicObject) :
  StronglySorted (fun a b => key_le (fst a) (fst b)) pairs ->
  StronglySorted (fun a b => key_before a b = true) (keys o) ->
  (forall k' e, In k' (keys o) -> In e pairs -> key_le k' (fst e)) ->
  StronglySorted (fun a b => key_before a b = true) (keys (assign_all pairs o)).
Proof.
  unfold assign_all. revert o.
  induction pairs as [|[k v] pairs IH]; simpl; intros o Hp Hs Hle; [assumption|].
  inversion Hp as [|x l Hp' Hall]; subst.
  apply IH; [assumption| |].
  - apply obj_set_sorted; [assumption|].
    intros k' Hin. apply (Hle k' (k, v)); [assumption|left; reflexivity].
  - intros k' e Hin He. apply In_keys_obj_set in Hin. destruct Hin as [->|Hin].
    + rewrite Forall_forall in Hall. apply (Hall e He).
    + apply (Hle k' e); [assumption|right; assumption].
Qed.

Lemma StronglySorted_ascending (lt : string -> string -> bool) (l : list string) :
  StronglySorted (fun a b => lt a b = true) l -> ascending lt l = true.
Proof.
  induction l as [|k l IH]; intros Hs; [reflexivity|].
  inversion Hs as [|x l' Hs' Hall]; subst. simpl.
  destruct l as [|k' l]; [reflexivity|].
  inversion Hall as [|y l' Hk Hall']; subst.
  rewrite Hk. simpl. apply IH. assumption.
Qed.

Lemma fromPairs_sortBy0_ascending (pairs : list (string * value)) :
  ascending key_before (keys (fromPairs (sortBy0 pairs))) = true.
Proof.
  apply StronglySorted_ascending. unfold fromPairs.
  apply assign_all_sorted.
  - apply sortBy0_sorted.
  - constructor.
  - intros k' e [].
Qed.

(** ** sort: the chain as written *)

Lemma sort_unfold (c : okind) (ps : DynamicObject) :
  sort (VObj c ps)
  = fromPairs (sortBy0 (mapValues sort_nested (toPairs c ps))).
Proof.
  rewrite <- toPairs_mapValues by reflexivity.
  cbn [sort]. do 3 f_equal.
  induction ps as [|[k v] ps IH]; simpl; [reflexivity|].
  rewrite IH. reflexivity.
Qed.

Example sort_spec_example :
  sort (obj [("b", VNum 1); ("a", obj [("d", VNum 1); ("c", VNum 2)])])
  = [("a", obj [("c", VNum 2); ("d", VNum 1)]); ("b", VNum 1)].
Proof. reflexivity. Qed.

(** ** The deep predicates, entry by entry *)

Lemma well_formed_obj (c : okind) (ps : DynamicObject) :
  well_formed (VObj c ps) = true
  <-> NoDup (keys ps) /\ forall e, In e ps -> well_formed (snd e) = true.
Proof.
  cbn [well_formed]. rewrite andb_true_iff, nodup_keys_NoDup.
  apply and_iff_compat_l.
  induction ps as [|[k v] ps IH]; simpl.
  - split; [intros _ e []|reflexivity].
  - rewrite andb_true_iff, IH. split.
    + intros [Hv Hps] e [<-|He]; [assumption|apply Hps; assumption].
    + intros H. split; [apply (H (k, v)); left; reflexivity|].
      intros e He. apply H. right. assumption.
Qed.

Lemma no_arrays_obj (c : okind) (ps : DynamicObject) :
  no_arrays (VObj c ps) = true
  <-> c = KObject /\ forall e, In e ps -> no_arrays (snd e) = true.
Proof.
  cbn [no_arrays]. rewrite andb_true_iff.
  assert (okind_eqb c KObject = true <-> c = KObject) as ->
      by (destruct c; simpl; split; congruence).
  apply and_iff_compat_l.
  induction ps as [|[k v] ps IH]; simpl.
  - split; [intros _ e []|reflexivity].
  - rewrite andb_true_iff, IH. split.
    + intros [Hv Hps] e [<-|He]; [assumption|apply Hps; assumption].
    + intros H. split; [apply (H (k, v)); left; reflexivity|].
      intros e He. apply H. right. assumption.
Qed.

Lemma sorted_deep_obj (c : okind) (ps : DynamicObject) :
  sorted_deep (VObj c ps) = true
  <-> ascending key_before (keys ps) = true
      /\ forall e, In e ps -> sorted_deep (snd e) = true.
Proof.
  cbn [sorted_deep]. rewrite andb_true_iff.
  apply and_iff_compat_l.
  induction ps as [|[k v] ps IH]; simpl.
  - split; [intros _ e []|reflexivity].
  - rewrite andb_true_iff, IH. split.
    + intros [Hv Hps] e [<-|He]; [assumption|apply Hps; assumption].
    + intros H. split; [apply (H (k, v)); left; reflexivity|].
      intros e He. apply H. right. assumption.
Qed.

Lemma lookup_Permutation (k : string) (l l' : DynamicObject) :
  NoDup (keys l) -> Permutation l l' -> lookup k l = lookup k l'.
Proof.
  intros Hnd Hperm.
  assert (NoDup (keys l')) as Hnd'
      by (apply (Permutation_NoDup (Permutation_map fst Hperm)); assumption).
  destruct (lookup k l) as [v|] eqn:Hl.
  - symmetry. apply In_lookup_NoDup; [assumption|].
    apply (Permutation_in _ Hperm). apply lookup_Some_In. assumption.
  - destruct (lookup k l') as [v'|] eqn:Hl'; [|reflexivity].
    apply lookup_Some_In in Hl'. apply (Permutation_in _ (Permutation_sym Hperm)) in Hl'.
    apply In_lookup_NoDup in Hl'; [congruence|assumption].
Qed.

(** ** sort *)

Lemma sort_sorted_deep (X : value) : sorted_deep (VObj KObject (sort X)) = true.
Proof.
  induction X as [| | | | | |c ps IH] using value_nested_ind; try reflexivity.
  apply sorted_deep_obj. rewrite sort_unfold. split.
  - apply fromPairs_sortBy0_ascending.
  - intros [k v] Hin. unfold fromPairs in Hin. apply In_assign_all in Hin.
    destruct Hin as [Hin|[]].
    apply (Permutation_in _ (Permutation_sym (sortBy0_Permutation _))) in Hin.
    unfold mapValues in Hin. apply in_map_iff in Hin.
    destruct Hin as [[k0 v0] [[= <- <-] Hin]]. simpl.
    unfold sort_nested. destruct (isObject v0) eqn:Hobj.
    + destruct (In_toPairs_object c ps k0 v0 Hin Hobj) as [k' Hk'].
      rewrite Forall_forall in IH. apply (IH (k', v0)). assumption.
    + destruct v0; try reflexivity. discriminate.
Qed.

Lemma lookup_sort (k : string) (ps : DynamicObject) :
  NoDup (keys ps) ->
  lookup k (sort (VObj KObject ps)) = option_map sort_nested (lookup k ps).
Proof.
  intros Hnd. rewrite sort_unfold. cbn [toPairs]. unfold fromPairs.
  assert (NoDup (keys (mapValues sort_nested ps))) as Hnd'
      by (rewrite keys_mapValues; assumption).
  rewrite lookup_assign_all.
  - rewrite <- (lookup_Permutation k Hnd' (sortBy0_Permutation _)).
    rewrite lookup_mapValues.
    destruct (lookup k ps); reflexivity.
  - apply (Permutation_NoDup (Permutation_map fst (sortBy0_Permutation _))).
    assumption.
Qed.

Lemma sort_same_structure (X : value) :
  well_formed X = true -> no_arrays X = true ->
  same_structure (sort_nested X) X.
Proof.
  induction X as [| | | | | |c ps IH] using value_nested_ind;
    try (intros _ _; apply same_primitive; reflexivity).
  intros Hwf Hna. apply well_formed_obj in Hwf. apply no_arrays_obj in Hna.
  destruct Hwf as [Hnd Hwf]. destruct Hna as [-> Hna].
  unfold sort_nested. cbn [isObject]. rewrite Forall_forall in IH.
  constructor.
  - intros k. rewrite lookup_sort by assumption.
    destruct (lookup k ps); simpl; [split; discriminate|tauto].
  - intros k v1 v2 H1 H2. rewrite lookup_sort, H2 in H1 by assumption.
    injection H1 as <-. apply lookup_Some_In in H2.
    apply (IH (k, v2) H2); [apply (Hwf (k, v2) H2)|apply (Hna (k, v2) H2)].
Qed.

(** ** split *)

Lemma string_app_assoc (a b c : string) :
  ((a ++ b) ++ c)%string = (a ++ (b ++ c))%string.
Proof. induction a as [|x a IH]; simpl; [reflexivity|]. rewrite IH. reflexivity. Qed.

Lemma string_app_nil_r (a : string) : (a ++ "")%string = a.
Proof. induction a as [|x a IH]; simpl; [reflexivity|]. rewrite IH. reflexivity. Qed.

Lemma prefix_app (a b : string) : prefix a (a ++ b)%string = true.
Proof.
  induction a as [|x a IH]; simpl; [destruct b; reflexivity|].
  destruct (ascii_dec x x); [assumption|contradiction].
Qed.

Lemma prefix_app_long (sep a b : string) :
  (String.length sep <= String.length a)%nat ->
  prefix sep (a ++ b)%string = prefix sep a.
Proof.
  revert a. induction sep as [|x sep IH]; intros a Hlen; simpl.
  - destruct (a ++ b)%string, a; reflexivity.
  - destruct a as [|y a]; simpl in *; [lia|].
    destruct (ascii_dec x y); [|reflexivity]. apply IH. lia.
Qed.

Lemma string_length_app (a b : string) :
  String.length (a ++ b)%string = (String.length a + String.length b)%nat.
Proof. induction a as [|x a IH]; simpl; [reflexivity|]. rewrite IH. reflexivity. Qed.

Lemma split_go_skip (sep t x cur : string) :
  split_go sep (String.length t) cur (t ++ x)%string = split_go sep 0 cur x.
Proof.
  induction t as [|c t IH]; simpl; [|assumption].
  destruct x; reflexivity.
Qed.

Lemma split_go_separator (sep x cur : string) :
  sep <> "" ->
  split_go sep 0 cur (sep ++ x)%string = cur :: split_go sep 0 "" x.
Proof.
  intros Hne. destruct sep as [|c sep]; [contradiction|].
  change (String c sep ++ x)%string with (String c (sep ++ x)%string).
  cbn [split_go].
  change (String c (sep ++ x)%string) with (String c sep ++ x)%string.
  rewrite prefix_app. f_equal.
  replace (String.length (String c sep) - 1) with (String.length sep)
    by (simpl; lia).
  apply split_go_skip.
Qed.

Lemma split_go_key (sep key x cur : string) :
  sep <> "" ->
  separable sep key = true ->
  split_go sep 0 cur (key ++ sep ++ x)%string
  = (cur ++ key)%string :: split_go sep 0 "" x.
Proof.
  intros Hne. unfold separable. rewrite negb_true_iff. revert cur.
  induction key as [|c key IH]; intros cur Hsafe.
  - change ("" ++ sep ++ x)%string with (sep ++ x)%string.
    rewrite (string_app_nil_r cur). apply split_go_separator. assumption.
  - cbn [occurs_early] in Hsafe. apply orb_false_iff in Hsafe.
    destruct Hsafe as [Hhere Hlater].
    change (String c key ++ sep ++ x)%string
      with (String c (key ++ sep ++ x)%string).
    cbn [split_go].
    change (String c (key ++ sep ++ x)%string)
      with (String c key ++ (sep ++ x))%string.
    rewrite <- string_app_assoc, prefix_app_long, Hhere.
    + rewrite IH by assumption.
      rewrite string_app_assoc. reflexivity.
    + rewrite string_length_app. simpl. lia.
Qed.

Lemma split_go_whole (sep key : string) :
  sep <> "" -> occurs_early sep key = false ->
  forall cur, split_go sep 0 cur key = [(cur ++ key)%string].
Proof.
  intros Hne. induction key as [|c key IH]; intros Hsafe cur.
  - rewrite string_app_nil_r. reflexivity.
  - cbn [occurs_early] in Hsafe. apply orb_false_iff in Hsafe.
    destruct Hsafe as [Hhere Hlater].
    cbn [split_go].
    assert (prefix sep (String c key) = false) as Hpre.
    { destruct (prefix sep (String c key)) eqn:Hp; [|reflexivity].
      apply prefix_correct in Hp.
      assert (prefix sep (String c key ++ sep)%string = true) as Hp'.
      { rewrite <- Hp at 1.
        assert (forall n s t, (n <= String.length s)%nat ->
                   prefix (substring 0 n s) (s ++ t)%string = true) as Hsub.
        { clear. induction n as [|n IHn]; intros s t Hn.
          - destruct s; simpl; destruct t; try reflexivity;
              destruct (s ++ String a t)%string; reflexivity.
          - destruct s as [|a s]; simpl in *; [lia|].
            destruct (ascii_dec a a); [|contradiction]. apply IHn. lia. }
        apply Hsub.
        destruct (le_lt_dec (String.length sep) (String.length (String c key)))
          as [Hle|Hgt]; [assumption|].
        exfalso. clear - Hp Hgt.
        assert (forall n s, String.length (substring 0 n s) <= String.length s)%nat
          as Hlen.
        { clear. induction n as [|n IHn]; intros [|a s]; simpl; try lia.
          specialize (IHn s). lia. }
        specialize (Hlen (String.length sep) (String c key)).
        rewrite Hp in Hlen. lia. }
      congruence. }
    rewrite Hpre, (IH Hlater). rewrite string_app_assoc. reflexivity.
Qed.

Lemma split_separable (sep key : string) :
  sep <> "" -> separable sep key = true -> split sep key = [key].
Proof.
  intros Hne Hsafe. unfold split.
  rewrite (proj2 (String.eqb_neq sep "") Hne).
  unfold separable in Hsafe. apply negb_true_iff in Hsafe.
  apply (@split_go_whole sep key Hne Hsafe "").
Qed.

Lemma split_cons (sep key x : string) :
  sep <> "" -> separable sep key = true ->
  split sep (key ++ sep ++ x)%string = key :: split sep x.
Proof.
  intros Hne Hsafe. unfold split.
  rewrite (proj2 (String.eqb_neq sep "") Hne).
  apply (@split_go_key sep key x "" Hne Hsafe).
Qed.

Lemma split_concat (sep : string) (segments : list string) :
  sep <> "" -> segments <> [] ->
  Forall (fun k => separable sep k = true) segments ->
  split sep (String.concat sep segments) = segments.
Proof.
  intros Hne. induction segments as [|k rest IH]; intros Hnil Hall; [contradiction|].
  inversion Hall as [|x l Hk Hrest]; subst.
  destruct rest as [|k' rest].
  - simpl. apply split_separable; assumption.
  - change (String.concat sep (k :: k' :: rest))
      with (k ++ sep ++ String.concat sep (k' :: rest))%string.
    rewrite split_cons by assumption. f_equal. apply IH; [discriminate|assumption].
Qed.

(** ** isAssignable *)

Lemma has_char_app (a : ascii) (s t : string) :
  has_char a (s ++ t)%string = has_char a s || has_char a t.
Proof.
  unfold has_char. induction s as [|c s IH]; simpl; [reflexivity|].
  rewrite IH. apply orb_assoc.
Qed.

Lemma has_bracket_app (s t : string) :
  has_bracket (s ++ t)%string = has_bracket s || has_bracket t.
Proof.
  unfold has_bracket. rewrite !has_char_app.
  destruct (has_char "[" s), (has_char "]" s), (has_char "[" t), (has_char "]" t);
    reflexivity.
Qed.

Lemma prefix_single (a c : ascii) (t : string) :
  prefix (String a "") (String c t) = Ascii.eqb a c.
Proof.
  cbn [prefix]. destruct (ascii_dec a c) as [->|Hne].
  - rewrite Ascii.eqb_refl. destruct t; reflexivity.
  - symmetry. apply Ascii.eqb_neq. assumption.
Qed.

Lemma single_char_separable (a : ascii) (s : string) :
  separable (String a "") s = negb (has_char a s).
Proof.
  unfold separable, has_char. f_equal.
  induction s as [|c s IH]; [reflexivity|].
  cbn [occurs_early list_ascii_of_string existsb].
  change (String c s ++ String a "")%string with (String c (s ++ String a "")%string).
  rewrite prefix_single, IH. reflexivity.
Qed.

Lemma dot_free_separable (s : string) :
  has_char "."%char s = false -> separable "." s = true.
Proof. intros H. rewrite single_char_separable, H. reflexivity. Qed.

Lemma concat_snoc (pre : list string) (s : string) :
  pre <> [] ->
  String.concat "." (pre ++ [s]) = (String.concat "." pre ++ "." ++ s)%string.
Proof.
  induction pre as [|k pre IH]; intros Hne; [contradiction|].
  destruct pre as [|k' pre].
  - simpl. reflexivity.
  - change (String.concat "." ((k :: k' :: pre) ++ [s]))
      with (k ++ "." ++ String.concat "." ((k' :: pre) ++ [s]))%string.
    rewrite IH by discriminate.
    change (String.concat "." (k :: k' :: pre))
      with (k ++ "." ++ String.concat "." (k' :: pre))%string.
    rewrite !string_app_assoc. reflexivity.
Qed.

Lemma pathPoints_from (pre segments arr : list string) :
  (pre = [] /\ arr = []
   \/ pre <> [] /\ arr <> [] /\ last arr "" = String.concat "." pre) ->
  fold_left
    (fun arr point =>
       let index := List.length arr in
       let previous := nth (index - 1) arr "" in
       let next :=
         if (0 <? index)%nat then (previous ++ "." ++ point)%string else point in
       arr ++ [next]) segments arr
  = arr ++ map (String.concat ".") (prefixes_from pre segments).
Proof.
  revert pre arr. induction segments as [|s rest IH]; intros pre arr Hinv; simpl.
  - rewrite app_nil_r. reflexivity.
  - rewrite (IH (pre ++ [s])).
    + rewrite <- app_assoc. simpl. do 2 f_equal.
      destruct Hinv as [[-> ->]|[Hpre [Harr Hlast]]]; [reflexivity|].
      destruct arr as [|a arr]; [contradiction|].
      rewrite concat_snoc by assumption. rewrite <- Hlast.
      replace (0 <? List.length (a :: arr))%nat with true by reflexivity.
      f_equal.
      assert (forall (l : list string) d,
                 nth (List.length l - 1) l d = last l d) as Hnth.
      { clear. induction l as [|x l IHl]; intros d; [reflexivity|].
        destruct l as [|y l]; [reflexivity|].
        specialize (IHl d). simpl in *. rewrite Nat.sub_0_r in IHl. assumption. }
      apply Hnth.
    + right. split; [destruct pre; discriminate|].
      split; [destruct arr; discriminate|].
      rewrite last_last.
      destruct Hinv as [[-> ->]|[Hpre [Harr Hlast]]]; [reflexivity|].
      destruct arr as [|a arr]; [contradiction|].
      rewrite concat_snoc by assumption. rewrite <- Hlast.
      replace (0 <? List.length (a :: arr))%nat with true by reflexivity.
      f_equal.
      assert (forall (l : list string) d,
                 nth (List.length l - 1) l d = last l d) as Hnth.
      { clear. induction l as [|x l IHl]; intros d; [reflexivity|].
        destruct l as [|y l]; [reflexivity|].
        specialize (IHl d). simpl in *. rewrite Nat.sub_0_r in IHl. assumption. }
      apply Hnth.
Qed.

Lemma pathPoints_prefixes (segments : list string) :
  pathPoints segments = map (String.concat ".") (prefixes segments).
Proof.
  unfold pathPoints, prefixes.
  apply (@pathPoints_from [] segments []). left. split; reflexivity.
Qed.

Lemma In_prefixes_from (pre segments p : list string) :
  In p (prefixes_from pre segments) ->
  p <> [] /\ forall s, In s p -> In s pre \/ In s segments.
Proof.
  revert pre. induction segments as [|s rest IH]; intros pre Hin; [destruct Hin|].
  destruct Hin as [<-|Hin].
  - split; [destruct pre; discriminate|].
    intros s' Hs'. apply in_app_iff in Hs'. simpl in *. tauto.
  - destruct (IH _ Hin) as [Hne Hsub]. split; [assumption|].
    intros s' Hs'. destruct (Hsub s' Hs') as [H|H]; [|simpl; tauto].
    apply in_app_iff in H. simpl in *. tauto.
Qed.

Lemma has_concat_plain (p : list string) :
  Forall (fun s => plain_segment s = true) p ->
  has_bracket (String.concat "." p) = false
  /\ (forall s, p = [s] -> has_char "."%char (String.concat "." p) = false)
  /\ (forall s s' r, p = s :: s' :: r -> has_char "."%char (String.concat "." p) = true).
Proof.
  unfold plain_segment. induction p as [|k p IH]; intros Hall.
  - repeat split; intros; discriminate.
  - inversion Hall as [|x l Hk Hp]; subst.
    apply andb_true_iff in Hk. rewrite !negb_true_iff in Hk. destruct Hk as [Hdot Hbr].
    destruct p as [|k' p].
    + simpl. repeat split; try assumption.
      * intros s [= <-]. assumption.
      * intros; discriminate.
    + destruct (IH Hp) as [Hb _].
      change (String.concat "." (k :: k' :: p))
        with (k ++ "." ++ String.concat "." (k' :: p))%string.
      repeat split.
      * rewrite !has_bracket_app, Hbr, Hb. reflexivity.
      * intros; discriminate.
      * intros _ _ _ _. rewrite !has_char_app.
        replace (has_char "." ".") with true by reflexivity.
        rewrite orb_true_r. reflexivity.
Qed.

Section LodashPathFacts.

Variable bracketPath : string -> list string.

Lemma castPath_concat (object : DynamicObject) (p : list string) :
  p <> [] ->
  Forall (fun s => plain_segment s = true) p ->
  forallb (fun k => negb (has_char "."%char k)) (keys object) = true ->
  castPath bracketPath (String.concat "." p) object = p.
Proof.
  intros Hne Hplain Hkeys. unfold castPath.
  destruct (has_concat_plain Hplain) as [Hbr [Hone Hmany]].
  destruct p as [|s [|s' r]]; [contradiction| |].
  - destruct (has_key (String.concat "." [s]) object); [reflexivity|].
    rewrite Hbr, (Hone s eq_refl). reflexivity.
  - destruct (has_key (String.concat "." (s :: s' :: r)) object) eqn:Hhas.
    + apply has_key_In in Hhas. rewrite forallb_forall in Hkeys.
      apply Hkeys in Hhas. rewrite (Hmany s s' r eq_refl) in Hhas. discriminate.
    + rewrite Hbr, (Hmany s s' r eq_refl).
      apply split_concat; [discriminate|discriminate|].
      apply (Forall_impl (P := fun s => plain_segment s = true)); [|assumption].
      intros k Hk. apply dot_free_separable. unfold plain_segment in Hk.
      apply andb_true_iff in Hk. destruct Hk as [Hk _].
      apply negb_true_iff in Hk. assumption.
Qed.

Lemma first_collision_prefixes (object : DynamicObject) (ps : list (list string)) :
  (forall p, In p ps ->
             castPath bracketPath (String.concat "." p) object = p /\ p <> []) ->
  forallb (fun p => negb (is_null (baseGet (VObj KObject object) p))) ps = true ->
  first_collision bracketPath object (map (String.concat ".") ps)
  = match find (holds_scalar object) ps with
    | Some p => Collision (String.concat "." p)
    | None => Assignable
    end.
Proof.
  induction ps as [|p ps IH]; intros Hcast Hnull; [reflexivity|].
  simpl in Hnull. apply andb_true_iff in Hnull. destruct Hnull as [Hp Hnull].
  destruct (Hcast p (or_introl eq_refl)) as [Hpath Hne].
  cbn [map first_collision find].
  assert (has bracketPath object (String.concat "." p)
          = hasPath (VObj KObject object) p) as ->
      by (unfold has; rewrite Hpath; reflexivity).
  assert (get_ bracketPath object (String.concat "." p)
          = baseGet (VObj KObject object) p) as ->
      by (unfold get_; rewrite Hpath; destruct p; [contradiction|reflexivity]).
  unfold holds_scalar.
  assert (negb (jstype_eqb (typeof (baseGet (VObj KObject object) p)) TObject)
          = negb (isObject (baseGet (VObj KObject object) p))) as ->
      by (destruct (baseGet (VObj KObject object) p); try reflexivity; discriminate).
  destruct (hasPath (VObj KObject object) p
            && negb (isObject (baseGet (VObj KObject object) p)));
    [reflexivity|].
  apply IH; [|assumption]. intros q Hq. apply Hcast. right. assumption.
Qed.

End LodashPathFacts.

(** ** unflatten on split keys *)

Lemma build_app (L1 L2 : list (list string * value)) (N : value) :
  build (L1 ++ L2) N = match build L1 N with
                       | Ok N' => build L2 N'
                       | Throw e => fold_left
                                      (fun acc pv =>
                                         n <- acc ;; assign_parts (fst pv) (snd pv) n)
                                      L2 (Throw e)
                       end.
Proof.
  unfold build. rewrite fold_left_app.
  destruct (fold_left _ L1 (Ok N)); reflexivity.
Qed.

Lemma build_Throw (L : list (list string * value)) (e : error) :
  fold_left (fun acc pv => n <- acc ;; assign_parts (fst pv) (snd pv) n) L (Throw e)
  = Throw e.
Proof. induction L as [|pv L IH]; simpl; [reflexivity|assumption]. Qed.

Lemma build_cons (p : list string) (v : value) (L : list (list string * value))
  (N : value) :
  build ((p, v) :: L) N = (N' <- assign_parts p v N ;; build L N').
Proof.
  unfold build. simpl. destruct (assign_parts p v N); simpl; [reflexivity|].
  apply build_Throw.
Qed.

Lemma build_snoc (L : list (list string * value)) (p : list string) (v : value)
  (N : value) :
  build (L ++ [(p, v)]) N = (N' <- build L N ;; assign_parts p v N').
Proof.
  rewrite build_app. destruct (build L N); simpl; reflexivity.
Qed.

Lemma assign_parts_object (q : list string) (v : value) (c : okind)
  (m : DynamicObject) (n : value) :
  assign_parts q v (VObj c m) = Ok n -> exists m', n = VObj c m'.
Proof.
  induction q as [|k q IH]; [intros [= <-]; eexists; reflexivity|].
  destruct (String.eqb_spec k "") as [->|Hne]; [rewrite assign_parts_skip; assumption|].
  destruct q as [|k' q].
  - rewrite assign_parts_last by assumption. simpl. intros [= <-]. eexists. reflexivity.
  - rewrite assign_parts_intermediate by assumption. cbv zeta. cbn [put bind].
    clear IH.
    set (child := if truthy (get (VObj c m) k) then get (VObj c m) k
                  else VObj KObject []).
    destruct (assign_parts (k' :: q) v child); simpl; [|discriminate].
    intros [= <-]. eexists. reflexivity.
Qed.

Lemma assign_parts_primitive (k : string) (q : list string) (v w : value) :
  k <> "" -> isObject w = false -> assign_parts (k :: q) v w = Throw TypeError.
Proof.
  intros Hne Hprim. destruct q as [|k' q].
  - rewrite assign_parts_last by assumption. destruct w; try reflexivity. discriminate.
  - rewrite assign_parts_intermediate by assumption. cbv zeta.
    destruct w; try reflexivity. discriminate.
Qed.

Lemma assign_parts_descend (k k' : string) (q : list string) (v : value) (c : okind)
  (N : DynamicObject) :
  k <> "" -> k' <> "" ->
  assign_parts (k :: k' :: q) v (VObj c N)
  = if truthy_primitive_at k N then Throw TypeError
    else (w <- assign_parts (k' :: q) v (node k N) ;; Ok (VObj c (obj_set k w N))).
Proof.
  intros Hne Hne'. rewrite assign_parts_intermediate by assumption. cbv zeta.
  unfold truthy_primitive_at, node. cbn [get put bind].
  destruct (lookup k N) as [w|]; [|reflexivity].
  destruct (truthy w) eqn:Ht; cbn [andb].
  - destruct (isObject w) eqn:Hobj; cbn [negb].
    + destruct w; try discriminate. reflexivity.
    + rewrite (@assign_parts_primitive k' q v w Hne' Hobj). reflexivity.
  - destruct w; try reflexivity. discriminate.
Qed.

Lemma lookup_touched (k0 : string) (q : list string) (v : value) (c : okind)
  (N : DynamicObject) (n : value) :
  k0 <> "" -> (forall s, In s q -> s <> "") ->
  assign_parts (k0 :: q) v (VObj c N) = Ok n ->
  exists w, n = VObj c (obj_set k0 w N)
            /\ (q = [] -> w = v)
            /\ (q <> [] -> isObject w = true
                           /\ assign_parts q v (node k0 N) = Ok w).
Proof.
  intros Hne Hq. destruct q as [|k' q].
  - rewrite assign_parts_last by assumption. simpl. intros [= <-].
    exists v. split; [reflexivity|]. split; [reflexivity|]. intros H. contradiction.
  - assert (k' <> "") as Hne' by (apply Hq; left; reflexivity).
    rewrite assign_parts_descend by assumption.
    destruct (truthy_primitive_at k0 N); [discriminate|].
    destruct (assign_parts (k' :: q) v (node k0 N)) as [w|] eqn:Hw; simpl; [|discriminate].
    intros [= <-]. exists w. split; [reflexivity|]. split; [discriminate|].
    intros _. split; [|reflexivity].
    unfold node in Hw. destruct (lookup k0 N) as [[]|];
      apply assign_parts_object in Hw; destruct Hw as [m' ->]; reflexivity.
Qed.

Lemma node_obj_set_same (k : string) (w : value) (N : DynamicObject) :
  isObject w = true -> node k (obj_set k w N) = w.
Proof.
  intros Hobj. unfold node. rewrite lookup_obj_set_same.
  destruct w; try discriminate. reflexivity.
Qed.

Lemma node_obj_set_other (k k0 : string) (w : value) (N : DynamicObject) :
  k <> k0 -> node k (obj_set k0 w N) = node k N.
Proof. intros Hne. unfold node. rewrite lookup_obj_set_other by assumption. reflexivity. Qed.

Lemma parts_ok_cons (p : list string) (v : value) (L : list (list string * value)) :
  parts_ok ((p, v) :: L) -> (forall s, In s p -> s <> "") /\ parts_ok L.
Proof.
  unfold parts_ok. intros H. split.
  - intros s Hs. apply (H p v); [left; reflexivity|assumption].
  - intros p' v' Hin. apply (H p' v'). right. assumption.
Qed.

(** What [unflatten] builds below the key [k] is what it builds, from the
    node found at [k], out of the paths that start with [k]. *)
Lemma build_under (k : string) (L : list (list string * value)) (c : okind)
  (N Y : DynamicObject) :
  parts_ok L ->
  (forall v, ~ In ([k], v) L) ->
  build L (VObj c N) = Ok (VObj c Y) ->
  build (under k L) (node k N) = Ok (node k Y)
  /\ (object_at k N = true \/ under k L <> [] -> object_at k Y = true).
Proof.
  revert N. induction L as [|[p v] L IH]; intros N Hparts Hleaf Hbuild.
  - injection Hbuild as <-. split; [reflexivity|]. intros [H|H]; [assumption|contradiction].
  - apply parts_ok_cons in Hparts. destruct Hparts as [Hp Hparts].
    assert (forall v', ~ In ([k], v') L) as Hleaf'
        by (intros v' Hin; apply (Hleaf v'); right; assumption).
    rewrite build_cons in Hbuild.
    destruct (assign_parts p v (VObj c N)) as [n1|] eqn:H1; simpl in Hbuild;
      [|discriminate].
    destruct p as [|k0 q].
    + injection H1 as <-. cbn [under]. apply IH; assumption.
    + assert (k0 <> "") as Hne by (apply Hp; left; reflexivity).
      assert (forall s, In s q -> s <> "") as Hq
          by (intros s Hs; apply Hp; right; assumption).
      destruct (@lookup_touched k0 q v c N n1 Hne Hq H1) as [w [-> [Hlast Hdeep]]].
      specialize (IH (obj_set k0 w N) Hparts Hleaf' Hbuild).
      cbn [under]. destruct (String.eqb_spec k0 k) as [->|Hk].
      * assert (q <> []) as Hqne.
        { intros ->. apply (Hleaf v). left. reflexivity. }
        destruct (Hdeep Hqne) as [Hobj Hw].
        rewrite build_cons, Hw. cbn [bind].
        rewrite node_obj_set_same in IH by assumption.
        destruct IH as [IH1 IH2]. split; [assumption|].
        intros _. apply IH2. left. unfold object_at.
        rewrite lookup_obj_set_same. assumption.
      * rewrite node_obj_set_other in IH by congruence.
        destruct IH as [IH1 IH2]. split; [assumption|].
        intros H. apply IH2. destruct H as [H|H]; [left|right; assumption].
        unfold object_at in *. rewrite lookup_obj_set_other by congruence. assumption.
Qed.

(** A key that only leaves touch holds the leaf's value; an untouched key
    keeps what it held. *)
Lemma build_leaf (k : string) (v : value) (L : list (list string * value))
  (c : okind) (N Y : DynamicObject) :
  parts_ok L ->
  (forall q w, In (q, w) (under k L) -> q = [] /\ w = v) ->
  build L (VObj c N) = Ok (VObj c Y) ->
  lookup k Y = match under k L with [] => lookup k N | _ :: _ => Some v end.
Proof.
  revert N. induction L as [|[p w] L IH]; intros N Hparts Honly Hbuild.
  - injection Hbuild as <-. reflexivity.
  - apply parts_ok_cons in Hparts. destruct Hparts as [Hp Hparts].
    rewrite build_cons in Hbuild.
    destruct (assign_parts p w (VObj c N)) as [n1|] eqn:H1; simpl in Hbuild;
      [|discriminate].
    destruct p as [|k0 q].
    + injection H1 as <-. cbn [under] in *. apply IH; assumption.
    + assert (k0 <> "") as Hne by (apply Hp; left; reflexivity).
      assert (forall s, In s q -> s <> "") as Hq
          by (intros s Hs; apply Hp; right; assumption).
      destruct (@lookup_touched k0 q w c N n1 Hne Hq H1) as [w' [-> [Hlast Hdeep]]].
      cbn [under] in *. destruct (String.eqb_spec k0 k) as [->|Hk].
      * destruct (Honly q w (or_introl eq_refl)) as [-> ->].
        rewrite (Hlast eq_refl) in Hbuild.
        rewrite (IH (obj_set k v N) Hparts) ; [| |assumption].
        -- rewrite lookup_obj_set_same. destruct (under k L); reflexivity.
        -- intros q' w'' Hin. apply Honly. right. assumption.
      * rewrite (IH (obj_set k0 w' N) Hparts Honly Hbuild).
        rewrite lookup_obj_set_other by congruence. reflexivity.
Qed.

(** ** The leaves of a structure *)

Lemma leaves_obj (c : okind) (ps : DynamicObject) :
  leaves (VObj c ps) = flat_map leaves_of_entry ps.
Proof.
  simpl. induction ps as [|[k v] ps IH]; simpl; [reflexivity|].
  rewrite IH. reflexivity.
Qed.

Lemma faithful_obj (sep : string) (c : okind) (ps : DynamicObject) :
  faithful sep (VObj c ps) = true
  <-> c = KObject /\ ps <> [] /\ entries_ok sep ps.
Proof.
  cbn [faithful]. rewrite !andb_true_iff, nodup_keys_NoDup, negb_true_iff.
  assert (okind_eqb c KObject = true <-> c = KObject) as ->
      by (destruct c; simpl; split; congruence).
  assert (match ps with [] => true | _ :: _ => false end = false <-> ps <> []) as ->
      by (destruct ps; split; congruence).
  unfold entries_ok.
  assert ((fix all (ps0 : list (string * value)) : bool :=
             match ps0 with
             | [] => true
             | (k, child) :: rest =>
                key_ok sep k child && faithful sep child && all rest
             end) ps = true
          <-> forall e, In e ps ->
                        key_ok sep (fst e) (snd e) = true
                        /\ faithful sep (snd e) = true) as ->.
  { induction ps as [|[k v] ps IH]; simpl.
    - split; [intros _ e []|reflexivity].
    - rewrite !andb_true_iff, IH. split.
      + intros [[Hk Hv] Hps] e [<-|He]; [split; assumption|apply Hps; assumption].
      + intros H. split; [apply (H (k, v)); left; reflexivity|].
        intros e He. apply H. right. assumption. }
  tauto.
Qed.

Lemma roundtrip_domain_entries_ok (sep : string) (ps : DynamicObject) :
  roundtrip_domain sep ps = true <-> entries_ok sep ps.
Proof.
  unfold roundtrip_domain, entries_ok.
  rewrite andb_true_iff, nodup_keys_NoDup, forallb_forall.
  apply and_iff_compat_l. split; intros H e He; specialize (H e He).
  - apply andb_true_iff in H. assumption.
  - apply andb_true_iff. assumption.
Qed.

Lemma key_ok_nonempty (sep k : string) (v : value) :
  key_ok sep k v = true -> k <> "".
Proof.
  unfold key_ok. rewrite andb_true_iff, negb_true_iff.
  intros [H _]. apply String.eqb_neq. assumption.
Qed.

Lemma key_ok_nested (sep k : string) (v : value) :
  key_ok sep k v = true -> isObject v = true -> separable sep k = true.
Proof. unfold key_ok. rewrite andb_true_iff. intros [_ H] Hobj. rewrite Hobj in H. exact H. Qed.

Lemma key_ok_leaf (sep k : string) (v : value) :
  key_ok sep k v = true -> isObject v = false -> contains sep k = false.
Proof.
  unfold key_ok. rewrite andb_true_iff. intros [_ H] Hobj. rewrite Hobj in H.
  apply negb_true_iff. exact H.
Qed.

Lemma In_leaves_of_entry (e : string * value) (p : list string) (v : value) :
  In (p, v) (leaves_of_entry e) ->
  exists q, p = fst e :: q
            /\ (isObject (snd e) = false -> q = [] /\ v = snd e)
            /\ (isObject (snd e) = true -> In (q, v) (leaves (snd e))).
Proof.
  unfold leaves_of_entry. destruct (isObject (snd e)) eqn:Hobj.
  - intros Hin. apply in_map_iff in Hin. destruct Hin as [[q w] [[= <- <-] Hin]].
    exists q. split; [reflexivity|]. split; [discriminate|]. intros _. assumption.
  - intros [[= <- <-]|[]]. exists []. split; [reflexivity|].
    split; [tauto|discriminate].
Qed.

Lemma leaves_paths_nonempty (X : value) (p : list string) (v : value) :
  In (p, v) (leaves X) -> p <> [].
Proof.
  destruct X as [| | | | | |c ps]; try (intros []).
  rewrite leaves_obj. intros Hin. apply in_flat_map in Hin.
  destruct Hin as [e [_ Hin]]. apply In_leaves_of_entry in Hin.
  destruct Hin as [q [-> _]]. discriminate.
Qed.

Lemma leaves_path_ok (sep : string) (X : value) :
  forall c ps, X = VObj c ps -> entries_ok sep ps ->
  forall p v, In (p, v) (leaves X) -> path_ok sep p.
Proof.
  induction X as [| | | | | |c0 ps0 IH] using value_nested_ind;
    try (intros c ps H; discriminate H).
  intros c ps [= <- <-] [Hnd Hok] p v Hin.
  rewrite leaves_obj in Hin. apply in_flat_map in Hin.
  destruct Hin as [[k child] [He Hin]]. apply In_leaves_of_entry in Hin.
  destruct Hin as [q [-> [Hleaf Hdeep]]]. cbn [fst snd] in *.
  destruct (Hok _ He) as [Hk Hchild]. cbn [fst snd] in *.
  pose proof (@key_ok_nonempty sep k child Hk) as Hne.
  destruct (isObject child) eqn:Hobj.
  - specialize (Hdeep eq_refl).
    pose proof (@leaves_paths_nonempty child q v Hdeep) as Hq.
    destruct child as [| | | | | |cc pc]; try discriminate.
    pose proof Hchild as Hf. apply faithful_obj in Hf. destruct Hf as [_ [_ Hc]].
    rewrite Forall_forall in IH.
    pose proof (IH (k, VObj cc pc) He cc pc eq_refl Hc q v Hdeep) as Hpq.
    destruct q as [|k1 q']; [contradiction|].
    cbn [path_ok]. split; [assumption|]. split; [|exact Hpq].
    apply (@key_ok_nested sep k (VObj cc pc) Hk). reflexivity.
  - destruct (Hleaf eq_refl) as [-> ->]. cbn [path_ok]. split; [assumption|].
    apply (@key_ok_leaf sep k child Hk Hobj).
Qed.

Lemma path_ok_parts (sep : string) (p : list string) :
  path_ok sep p -> forall s, In s p -> s <> "".
Proof.
  induction p as [|k q IH]; [intros []|].
  cbn [path_ok]. intros [Hk Hq] s [<-|Hs]; [assumption|].
  destruct q as [|k1 q']; [destruct Hs|]. destruct Hq as [_ Hq]. apply IH; assumption.
Qed.

Lemma leaves_parts_ok (sep : string) (X : value) :
  forall c ps, X = VObj c ps -> entries_ok sep ps -> parts_ok (leaves X).
Proof.
  intros c ps HX Hok p v Hin.
  apply (@path_ok_parts sep). apply (@leaves_path_ok sep X c ps HX Hok p v Hin).
Qed.

Lemma faithful_leaves_nonempty (sep : string) (X : value) :
  isObject X = true -> faithful sep X = true -> leaves X <> [].
Proof.
  induction X as [| | | | | |c ps IH] using value_nested_ind; try discriminate.
  intros _ Hf. apply faithful_obj in Hf. destruct Hf as [_ [Hne [_ Hok]]].
  destruct ps as [|[k child] ps]; [contradiction|].
  rewrite leaves_obj. cbn [flat_map]. unfold leaves_of_entry at 1. cbn [fst snd].
  destruct (isObject child) eqn:Hobj; [|discriminate].
  inversion IH as [|x l Hchild _]; subst. cbn [snd] in Hchild.
  destruct (Hok (k, child) (or_introl eq_refl)) as [_ Hfc]. cbn [snd] in Hfc.
  specialize (Hchild Hobj Hfc).
  destruct (leaves child); [contradiction|discriminate].
Qed.

(** ** The paths below a key *)

Lemma under_app (k : string) (L1 L2 : list (list string * value)) :
  under k (L1 ++ L2) = under k L1 ++ under k L2.
Proof.
  induction L1 as [|[p v] L1 IH]; simpl; [reflexivity|].
  destruct p as [|k' q]; [assumption|].
  destruct (k' =? k); simpl; rewrite IH; reflexivity.
Qed.

Lemma In_under (k : string) (q : list string) (v : value)
  (L : list (list string * value)) :
  In (q, v) (under k L) <-> In (k :: q, v) L.
Proof.
  induction L as [|[p w] L IH]; simpl; [tauto|].
  destruct p as [|k' q'].
  - rewrite IH. split; [tauto|]. intros [H|H]; [discriminate|assumption].
  - destruct (String.eqb_spec k' k) as [->|Hne]; simpl; rewrite IH.
    + split; intros [H|H]; try tauto; left; congruence.
    + split; [tauto|]. intros [H|H]; [congruence|assumption].
Qed.

Lemma Permutation_under (k : string) (L L' : list (list string * value)) :
  Permutation L L' -> Permutation (under k L) (under k L').
Proof.
  induction 1 as [|[p v] L L' _ IH|[p v] [p' v'] L|L L' L'' _ IH1 _ IH2].
  - reflexivity.
  - simpl. destruct p as [|k' q]; [assumption|].
    destruct (k' =? k); [apply perm_skip|]; assumption.
  - simpl. destruct p as [|k1 q1], p' as [|k2 q2]; try reflexivity;
      destruct (k1 =? k); try destruct (k2 =? k); try reflexivity.
    apply perm_swap.
  - transitivity (under k L'); assumption.
Qed.

Lemma under_leaves_of_entry (k : string) (e : string * value) :
  under k (leaves_of_entry e)
  = if fst e =? k
    then (if isObject (snd e) then leaves (snd e) else [([], snd e)])
    else [].
Proof.
  unfold leaves_of_entry. destruct (isObject (snd e)).
  - induction (leaves (snd e)) as [|[q v] l IH]; simpl.
    + destruct (fst e =? k); reflexivity.
    + destruct (fst e =? k); [rewrite IH; reflexivity|assumption].
  - simpl. destruct (fst e =? k); reflexivity.
Qed.

Lemma under_leaves (k : string) (c : okind) (ps : DynamicObject) :
  NoDup (keys ps) ->
  under k (leaves (VObj c ps))
  = match lookup k ps with
    | Some child => if isObject child then leaves child else [([], child)]
    | None => []
    end.
Proof.
  rewrite leaves_obj. unfold keys.
  induction ps as [|[k0 child] ps IH]; intros Hnd; [reflexivity|].
  inversion Hnd as [|x l Hnin Hnd']; subst.
  cbn [flat_map lookup]. rewrite under_app, under_leaves_of_entry. cbn [fst snd].
  rewrite (String.eqb_sym k k0).
  destruct (String.eqb_spec k0 k) as [->|Hne].
  - rewrite (IH Hnd').
    rewrite (proj2 (lookup_None_keys k ps)) by assumption.
    apply app_nil_r.
  - apply IH. assumption.
Qed.

(** ** unflatten rebuilds a structure from its leaves *)

Lemma object_at_node (k : string) (Y : DynamicObject) :
  object_at k Y = true -> lookup k Y = Some (node k Y).
Proof.
  unfold object_at, node. destruct (lookup k Y) as [w|]; [|discriminate].
  destruct w; try discriminate. reflexivity.
Qed.

Lemma object_at_not_truthy_primitive (k : string) (Y : DynamicObject) :
  object_at k Y = true -> truthy_primitive_at k Y = false.
Proof.
  unfold object_at, truthy_primitive_at. destruct (lookup k Y) as [w|]; [|reflexivity].
  intros ->. apply andb_false_r.
Qed.

Lemma build_leaves (sep : string) (X : value) :
  forall ps, X = VObj KObject ps -> entries_ok sep ps ->
  forall L, incl L (leaves X) ->
  exists Y, build L (VObj KObject []) = Ok (VObj KObject Y)
            /\ (Permutation L (leaves X) -> same_structure (VObj KObject Y) X).
Proof.
  induction X as [| | | | | |c0 ps0 IH] using value_nested_ind;
    try (intros ps H; discriminate H).
  intros ps [= -> <-] Hok L Hincl.
  pose proof Hok as [Hnd Hentries].
  pose proof (@leaves_parts_ok sep (VObj KObject ps0) KObject ps0 eq_refl Hok) as Hparts.
  assert (forall p v, In (p, v) (leaves (VObj KObject ps0)) ->
            exists k q child,
              p = k :: q /\ lookup k ps0 = Some child
              /\ (isObject child = false -> q = [] /\ v = child)
              /\ (isObject child = true -> In (q, v) (leaves child))) as Hpath.
  { intros p v Hin. rewrite leaves_obj in Hin. apply in_flat_map in Hin.
    destruct Hin as [[k child] [He Hin]]. apply In_leaves_of_entry in Hin.
    destruct Hin as [q [-> [Hleaf Hdeep]]]. exists k, q, child.
    split; [reflexivity|]. split; [apply In_lookup_NoDup; assumption|].
    split; assumption. }
  assert (forall k child, lookup k ps0 = Some child -> isObject child = true ->
            forall L', incl L' (leaves (VObj KObject ps0)) ->
            forall v, ~ In ([k], v) L') as Hnoleaf.
  { intros k child Hl Hobj L' Hi v Hin. apply Hi in Hin.
    destruct (Hpath _ _ Hin) as [k' [q [child' [[= <- <-] [Hl' [_ Hdeep]]]]]].
    rewrite Hl in Hl'. injection Hl' as <-.
    apply (@leaves_paths_nonempty child [] v (Hdeep Hobj)). reflexivity. }
  assert (forall k child, lookup k ps0 = Some child -> isObject child = true ->
            forall Lc, incl Lc (leaves child) ->
            exists Yc, build Lc (VObj KObject []) = Ok (VObj KObject Yc)
                       /\ (Permutation Lc (leaves child) ->
                           same_structure (VObj KObject Yc) child)) as Hchild.
  { intros k child Hl Hobj Lc Hi. apply lookup_Some_In in Hl.
    destruct (Hentries _ Hl) as [_ Hf]. cbn [snd] in Hf.
    destruct child as [| | | | | |cc pc]; try discriminate.
    apply faithful_obj in Hf. destruct Hf as [-> [_ Hc]].
    rewrite Forall_forall in IH.
    apply (IH (k, VObj KObject pc) Hl pc eq_refl Hc Lc Hi). }
  assert (forall L', incl L' (leaves (VObj KObject ps0)) ->
            parts_ok L') as Hparts'.
  { intros L' Hi p v Hin. apply (Hparts p v). apply Hi. assumption. }
  assert (forall k L', incl L' (leaves (VObj KObject ps0)) ->
            incl (under k L') (under k (leaves (VObj KObject ps0)))) as Hunder.
  { intros k L' Hi [q v] Hin. apply In_under. apply Hi. apply In_under. assumption. }
  assert (forall L', incl L' (leaves (VObj KObject ps0)) ->
            exists Y, build L' (VObj KObject []) = Ok (VObj KObject Y)) as Hsucc.
  { induction L' as [|[p v] L' IHL] using rev_ind; intros Hi.
    - exists []. reflexivity.
    - assert (incl L' (leaves (VObj KObject ps0))) as Hi'
          by (intros x Hx; apply Hi; apply in_or_app; left; assumption).
      destruct (IHL Hi') as [Y' HY']. rewrite build_snoc, HY'. cbn [bind].
      assert (In (p, v) (leaves (VObj KObject ps0))) as Hin
          by (apply Hi; apply in_or_app; right; left; reflexivity).
      destruct (Hpath _ _ Hin) as [k [q [child [-> [Hl [Hleaf Hdeep]]]]]].
      assert (k <> "") as Hk by (apply (Hparts _ _ Hin); left; reflexivity).
      destruct (isObject child) eqn:Hobj.
      + specialize (Hdeep eq_refl).
        destruct q as [|k1 q'];
          [exfalso; apply (@leaves_paths_nonempty child [] v Hdeep); reflexivity|].
        assert (k1 <> "") as Hk1
            by (apply (Hparts _ _ Hin); right; left; reflexivity).
        rewrite assign_parts_descend by assumption.
        destruct (@build_under k L' KObject [] Y' (Hparts' _ Hi')
                    (Hnoleaf k child Hl Hobj L' Hi') HY') as [Hun Hat].
        change (node k []) with (VObj KObject []) in Hun.
        assert (truthy_primitive_at k Y' = false) as ->.
        { destruct (under k L') as [|x l] eqn:Hu.
          - pose proof (@build_leaf k VUndef L' KObject [] Y' (Hparts' _ Hi')) as Hb.
            rewrite Hu in Hb. unfold truthy_primitive_at.
            rewrite Hb; [reflexivity|intros ? ? []|assumption].
          - apply object_at_not_truthy_primitive. apply Hat. right. discriminate. }
        assert (incl (under k L' ++ [(k1 :: q', v)]) (leaves child)) as Hic.
        { intros x Hx. apply in_app_or in Hx. destruct Hx as [Hx|[<-|[]]]; [|assumption].
          apply (Hunder k L' Hi') in Hx.
          rewrite under_leaves, Hl, Hobj in Hx by assumption. assumption. }
        destruct (Hchild k child Hl Hobj _ Hic) as [Yc [HYc _]].
        rewrite build_snoc, Hun in HYc. cbn [bind] in HYc.
        rewrite HYc. cbn [bind]. eexists. reflexivity.
      + destruct (Hleaf eq_refl) as [-> ->].
        rewrite assign_parts_last by assumption. cbn [put]. eexists. reflexivity. }
  destruct (Hsucc L Hincl) as [Y HY]. exists Y. split; [assumption|].
  intros Hperm.
  assert (forall k,
             match lookup k ps0 with
             | None => lookup k Y = None
             | Some child =>
                 exists w, lookup k Y = Some w /\ same_structure w child
             end) as Hlook.
  { intros k. pose proof (Permutation_under k Hperm) as Hpu.
    rewrite under_leaves in Hpu by assumption.
    destruct (lookup k ps0) as [child|] eqn:Hl.
    - destruct (isObject child) eqn:Hobj.
      + destruct (@build_under k L KObject [] Y (Hparts' _ Hincl)
                    (Hnoleaf k child Hl Hobj L Hincl) HY) as [Hun Hat].
        change (node k []) with (VObj KObject []) in Hun.
        assert (incl (under k L) (leaves child)) as Hic.
        { intros x Hx. apply (Permutation_in _ Hpu). assumption. }
        destruct (Hchild k child Hl Hobj _ Hic) as [Yc [HYc Hsame]].
        rewrite Hun in HYc. injection HYc as HYc.
        exists (VObj KObject Yc). split; [|apply Hsame; assumption].
        rewrite <- HYc. apply object_at_node. apply Hat. right.
        intros Hnil. rewrite Hnil in Hpu. apply Permutation_nil in Hpu.
        apply (@faithful_leaves_nonempty sep child Hobj); [|assumption].
        apply lookup_Some_In in Hl. apply (Hentries _ Hl).
      + exists child. split; [|apply same_primitive; assumption].
        pose proof (@build_leaf k child L KObject [] Y (Hparts' _ Hincl)) as Hb.
        rewrite Hb; [| |assumption].
        * destruct (under k L); [|reflexivity].
          apply Permutation_nil in Hpu. discriminate.
        * intros q w Hin. apply (Permutation_in _ Hpu) in Hin.
          destruct Hin as [[= <- <-]|[]]. split; reflexivity.
    - apply Permutation_sym, Permutation_nil in Hpu.
      pose proof (@build_leaf k VUndef L KObject [] Y (Hparts' _ Hincl)) as Hb.
      rewrite Hpu in Hb. apply Hb; [intros ? ? []|assumption]. }
  constructor.
  - intros k. specialize (Hlook k). destruct (lookup k ps0).
    + destruct Hlook as [w [-> _]]. split; discriminate.
    + tauto.
  - intros k v1 v2 H1 H2. specialize (Hlook k). rewrite H2 in Hlook.
    destruct Hlook as [w [Hw Hsame]]. rewrite H1 in Hw. injection Hw as ->.
    assumption.
Qed.

(** ** flatten lists the leaves *)

Lemma assign_all_app (l1 l2 : list (string * value)) (o : DynamicObject) :
  assign_all (l1 ++ l2) o = assign_all l2 (assign_all l1 o).
Proof. unfold assign_all. apply fold_left_app. Qed.

Lemma flatten_step_flat_of_entry (sep : string) (acc : DynamicObject)
  (e : string * value) :
  flatten_step sep acc e = assign_all (flat_of_entry sep e) acc.
Proof.
  unfold flatten_step, flat_of_entry. rewrite is_nonnull_object_isObject.
  destruct (isObject (snd e)); [reflexivity|]. destruct e; reflexivity.
Qed.

Lemma flattened_entries_flat_map (sep : string) (c : okind) (ps : DynamicObject) :
  flattened_entries sep (VObj c ps) = assign_all (flat_map (flat_of_entry sep) ps) [].
Proof.
  rewrite flattened_entries_fold. generalize (@nil (string * value)) as acc.
  induction ps as [|e ps IH]; intros acc; [reflexivity|].
  cbn [fold_left flat_map]. rewrite assign_all_app, IH, flatten_step_flat_of_entry.
  reflexivity.
Qed.

Lemma assign_all_Permutation (entries : list (string * value)) (o : DynamicObject) :
  NoDup (keys o ++ keys entries) -> Permutation (o ++ entries) (assign_all entries o).
Proof.
  unfold assign_all. revert o.
  induction entries as [|[k v] entries IH]; intros o Hnd; simpl.
  - rewrite app_nil_r. reflexivity.
  - assert (has_key k o = false) as Hk.
    { destruct (has_key k o) eqn:Hh; [|reflexivity]. apply has_key_In in Hh.
      apply NoDup_remove_2 in Hnd. exfalso. apply Hnd.
      apply in_or_app. left. assumption. }
    assert (Permutation ((k, v) :: o) (obj_set k v o)) as Hset.
    { unfold obj_set. rewrite Hk. apply insert_new_Permutation. }
    rewrite <- IH.
    + rewrite <- Hset. symmetry. apply Permutation_middle.
    + apply (Permutation_NoDup (l := keys o ++ k :: keys entries)); [|assumption].
      unfold keys. rewrite <- (Permutation_map fst Hset). simpl.
      symmetry. apply Permutation_middle.
Qed.

Lemma contains_empty_separator (k : string) : contains "" k = true.
Proof. destruct k; reflexivity. Qed.

Lemma separable_empty_separator (k : string) : k <> "" -> separable "" k = false.
Proof. destruct k as [|a k]; [contradiction|]. reflexivity. Qed.

Lemma path_ok_separator_nonempty (sep : string) (p : list string) :
  path_ok sep p -> sep <> "".
Proof.
  destruct p as [|k q]; [intros []|]. cbn [path_ok]. intros [Hk Hq] ->.
  destruct q as [|k1 q'].
  - rewrite contains_empty_separator in Hq. discriminate.
  - destruct Hq as [Hq _]. rewrite separable_empty_separator in Hq by assumption.
    discriminate.
Qed.

Lemma split_go_free (sep key : string) :
  sep <> "" -> contains sep key = false ->
  forall cur, split_go sep 0 cur key = [(cur ++ key)%string].
Proof.
  intros Hne. induction key as [|c key IH]; intros Hfree cur.
  - rewrite string_app_nil_r. reflexivity.
  - cbn [contains] in Hfree. apply orb_false_iff in Hfree.
    destruct Hfree as [Hhere Hlater]. cbn [split_go].
    rewrite Hhere, (IH Hlater). rewrite string_app_assoc. reflexivity.
Qed.

Lemma split_concat_path (sep : string) (p : list string) :
  path_ok sep p -> split sep (String.concat sep p) = p.
Proof.
  intros Hp. pose proof (@path_ok_separator_nonempty sep p Hp) as Hne. revert Hp.
  induction p as [|k q IH]; [intros []|]. cbn [path_ok]. intros [Hk Hq].
  destruct q as [|k1 q'].
  - cbn [String.concat]. unfold split. rewrite (proj2 (String.eqb_neq sep "") Hne).
    apply (@split_go_free sep k Hne Hq "").
  - destruct Hq as [Hsep Hq].
    change (String.concat sep (k :: k1 :: q'))
      with (k ++ sep ++ String.concat sep (k1 :: q'))%string.
    rewrite split_cons by assumption. f_equal. apply IH. assumption.
Qed.

Lemma split_join_leaf (sep : string) (c : okind) (ps : DynamicObject)
  (p : list string) (v : value) :
  entries_ok sep ps -> In (p, v) (leaves (VObj c ps)) ->
  split sep (String.concat sep p) = p.
Proof.
  intros Hok Hin. apply split_concat_path.
  apply (@leaves_path_ok sep (VObj c ps) c ps eq_refl Hok p v Hin).
Qed.

Lemma NoDup_app_disjoint (A : Type) (l1 l2 : list A) :
  NoDup l1 -> NoDup l2 -> (forall x, In x l1 -> ~ In x l2) -> NoDup (l1 ++ l2).
Proof.
  induction l1 as [|a l1 IH]; intros H1 H2 Hdis; simpl; [assumption|].
  inversion H1 as [|x l Hnin H1']; subst. constructor.
  - intros Hin. apply in_app_or in Hin. destruct Hin as [Hin|Hin]; [contradiction|].
    apply (Hdis a); [left; reflexivity|assumption].
  - apply IH; [assumption|assumption|]. intros x Hx. apply Hdis. right. assumption.
Qed.

Lemma NoDup_map_on (A B : Type) (f : A -> B) (l : list A) :
  (forall x y, In x l -> In y l -> f x = f y -> x = y) ->
  NoDup l -> NoDup (map f l).
Proof.
  induction l as [|a l IH]; intros Hinj Hnd; simpl; [constructor|].
  inversion Hnd as [|x l' Hnin Hnd']; subst. constructor.
  - intros Hin. apply in_map_iff in Hin. destruct Hin as [y [Hy Hin]].
    apply Hnin. rewrite (Hinj a y); [assumption|left; reflexivity|right; assumption|].
    symmetry. assumption.
  - apply IH; [|assumption]. intros x y Hx Hy. apply Hinj; right; assumption.
Qed.

Lemma leaves_paths_NoDup (sep : string) (X : value) :
  forall c ps, X = VObj c ps -> entries_ok sep ps ->
  NoDup (map fst (leaves X)).
Proof.
  induction X as [| | | | | |c0 ps0 IH] using value_nested_ind;
    try (intros c ps H; discriminate H).
  intros c ps [= <- <-] [Hnd Hok]. rewrite leaves_obj. unfold keys in Hnd.
  induction ps0 as [|[k child] ps IHps]; [constructor|].
  inversion Hnd as [|x l Hnin Hnd']; subst.
  inversion IH as [|x l Hchild IH']; subst. cbn [snd] in Hchild.
  cbn [flat_map]. rewrite map_app. apply NoDup_app_disjoint.
  - unfold leaves_of_entry. cbn [fst snd].
    destruct (isObject child) eqn:Hobj; [|repeat constructor; intros []].
    rewrite map_map. cbn [fst].
    rewrite <- (map_map fst (fun q => k :: q)).
    apply NoDup_map_on; [intros x y _ _ [=]; assumption|].
    destruct child as [| | | | | |cc pc]; try discriminate.
    destruct (Hok (k, VObj cc pc) (or_introl eq_refl)) as [_ Hf]. cbn [snd] in Hf.
    apply faithful_obj in Hf. destruct Hf as [_ [_ Hc]].
    apply (Hchild cc pc eq_refl Hc).
  - apply IHps; try assumption.
    intros e He. apply Hok. right. assumption.
  - intros p Hp Hp'. apply in_map_iff in Hp. destruct Hp as [[p1 v1] [Hp1 Hp]].
    apply In_leaves_of_entry in Hp. destruct Hp as [q [Hq _]].
    apply in_map_iff in Hp'. destruct Hp' as [[p2 v2] [Hp2 Hp']].
    apply in_flat_map in Hp'. destruct Hp' as [[k' child'] [He' Hp']].
    apply In_leaves_of_entry in Hp'. destruct Hp' as [q' [Hq' _]].
    cbn [fst] in *. assert (k = k') as <- by congruence.
    apply Hnin. apply in_map_iff. exists (k, child'). split; [reflexivity|assumption].
Qed.

Lemma concat_cons (sep k : string) (q : list string) :
  q <> [] -> String.concat sep (k :: q) = (k ++ sep ++ String.concat sep q)%string.
Proof. destruct q; [contradiction|reflexivity]. Qed.

Lemma flattened_entries_leaves (sep : string) (X : value) :
  forall c ps, X = VObj c ps -> entries_ok sep ps ->
  Permutation (flattened_entries sep X) (map (join_path sep) (leaves X)).
Proof.
  induction X as [| | | | | |c0 ps0 IH] using value_nested_ind;
    try (intros c ps H; discriminate H).
  intros c ps [= <- <-] Hok.
  assert (Permutation (flat_map (flat_of_entry sep) ps0)
            (map (join_path sep) (leaves (VObj c0 ps0)))) as Hperm.
  { rewrite leaves_obj. destruct Hok as [_ Hok].
    induction ps0 as [|[k child] ps IHps]; [reflexivity|].
    inversion IH as [|x l Hchild IH']; subst. cbn [snd] in Hchild.
    cbn [flat_map]. rewrite map_app. apply Permutation_app.
    - unfold flat_of_entry, leaves_of_entry. cbn [fst snd].
      destruct (isObject child) eqn:Hobj; [|reflexivity].
      destruct child as [| | | | | |cc pc]; try discriminate.
      destruct (Hok (k, VObj cc pc) (or_introl eq_refl)) as [_ Hf]. cbn [snd] in Hf.
      apply faithful_obj in Hf. destruct Hf as [_ [_ Hc]].
      rewrite (Permutation_map _ (Hchild cc pc eq_refl Hc)).
      rewrite !map_map. apply Permutation_refl'.
      apply map_ext_in. intros [q v] Hin. unfold join_path. cbn [fst snd].
      rewrite concat_cons; [reflexivity|].
      apply (@leaves_paths_nonempty (VObj cc pc) q v Hin).
    - apply IHps; [assumption|]. intros e He. apply Hok. right. assumption. }
  rewrite flattened_entries_flat_map. rewrite <- Hperm.
  symmetry. apply (@assign_all_Permutation (flat_map (flat_of_entry sep) ps0) []).
  cbn [keys map app]. unfold keys.
  apply (Permutation_NoDup (Permutation_map fst (Permutation_sym Hperm))).
  rewrite map_map.
  rewrite (map_ext (fun pv => fst (join_path sep pv))
                   (fun pv => String.concat sep (fst pv)))
    by reflexivity.
  rewrite <- (map_map fst (String.concat sep)).
  apply NoDup_map_on; [|apply (@leaves_paths_NoDup sep _ c0 ps0 eq_refl Hok)].
  intros p1 p2 H1 H2 Heq.
  apply in_map_iff in H1. destruct H1 as [[p1' v1] [<- H1]].
  apply in_map_iff in H2. destruct H2 as [[p2' v2] [<- H2]]. cbn [fst] in *.
  rewrite <- (@split_join_leaf sep c0 ps0 p1' v1 Hok H1).
  rewrite <- (@split_join_leaf sep c0 ps0 p2' v2 Hok H2).
  rewrite Heq. reflexivity.
Qed.

Lemma unflatten_loop_build (sep : string) (F : DynamicObject) (nested : value) :
  unflatten_loop sep F nested = build (map (split_key sep) F) nested.
Proof.
  unfold unflatten_loop, build. generalize (Ok nested) as acc.
  induction F as [|e F IH]; intros acc; [reflexivity|].
  cbn [fold_left map]. apply IH.
Qed.

(** ** The round trip *)

(** ** The equality of structures is an equivalence *)

Lemma same_structure_refl (v : value) : same_structure v v.
Proof.
  induction v as [| | | | | |c ps IH] using value_nested_ind;
    try (apply same_primitive; reflexivity).
  constructor; [tauto|].
  intros k v1 v2 H1 H2. rewrite H1 in H2. injection H2 as <-.
  rewrite Forall_forall in IH. apply (IH (k, v1)). apply lookup_Some_In. assumption.
Qed.

Lemma same_structure_sym (a b : value) : same_structure a b -> same_structure b a.
Proof.
  induction 1 as [v Hprim|c o1 o2 Hkeys Hvals IH]; [apply same_primitive; assumption|].
  constructor.
  - intros k. symmetry. apply Hkeys.
  - intros k v1 v2 H1 H2. apply (IH k); assumption.
Qed.

Lemma same_structure_trans (a b c : value) :
  same_structure a b -> same_structure b c -> same_structure a c.
Proof.
  intros Hab. revert c.
  induction Hab as [v Hprim|k o1 o2 Hkeys Hvals IH]; intros c Hbc; [assumption|].
  inversion Hbc as [v Hprim|k' o2' o3 Hkeys' Hvals']; subst; [discriminate|].
  constructor.
  - intros x. rewrite Hkeys. apply Hkeys'.
  - intros x v1 v3 H1 H3.
    destruct (lookup x o2) as [v2|] eqn:H2.
    + apply (IH x v1 v2 H1 H2). apply (Hvals' x); assumption.
    + apply Hkeys in H2. congruence.
Qed.

(** ** The results have unique keys at every depth *)

Lemma well_formed_primitive (v : value) : isObject v = false -> well_formed v = true.
Proof. destruct v; try reflexivity. discriminate. Qed.

Lemma well_formed_obj_set (c : okind) (k : string) (w : value) (N : DynamicObject) :
  well_formed (VObj c N) = true -> well_formed w = true ->
  well_formed (VObj c (obj_set k w N)) = true.
Proof.
  rewrite !well_formed_obj. intros [Hnd Hall] Hw. split.
  - apply obj_set_NoDup. assumption.
  - intros e He. apply In_obj_set in He. destruct He as [->|He]; [assumption|].
    apply Hall. assumption.
Qed.

Lemma well_formed_assign_all (c : okind) (entries : list (string * value))
  (o : DynamicObject) :
  well_formed (VObj c o) = true ->
  (forall e, In e entries -> well_formed (snd e) = true) ->
  well_formed (VObj c (assign_all entries o)) = true.
Proof.
  unfold assign_all. revert o.
  induction entries as [|[k v] entries IH]; intros o Ho Hall; [assumption|].
  cbn [fold_left fst snd]. apply IH.
  - apply well_formed_obj_set; [assumption|]. apply (Hall (k, v)). left. reflexivity.
  - intros e He. apply Hall. right. assumption.
Qed.



Lemma sort_well_formed (X : value) : well_formed (VObj KObject (sort X)) = true.
Proof.
  induction X as [| | | | | |c ps IH] using value_nested_ind; try reflexivity.
  rewrite sort_unfold. unfold fromPairs.
  apply well_formed_assign_all; [reflexivity|].
  intros [k v] Hin.
  apply (Permutation_in _ (Permutation_sym (sortBy0_Permutation _))) in Hin.
  unfold mapValues in Hin. apply in_map_iff in Hin.
  destruct Hin as [[k0 v0] [[= <- <-] Hin]]. cbn [snd].
  unfold sort_nested. destruct (isObject v0) eqn:Hobj.
  - destruct (In_toPairs_object c ps k0 v0 Hin Hobj) as [k' Hk'].
    rewrite Forall_forall in IH. apply (IH (k', v0)). assumption.
  - apply well_formed_primitive. assumption.
Qed.

Lemma put_well_formed (cur : value) (k : string) (v n : value) :
  well_formed cur = true -> well_formed v = true ->
  put cur k v = Ok n -> well_formed n = true.
Proof.
  destruct cur as [| | | | | |c N]; try discriminate.
  intros Hcur Hv [= <-]. apply well_formed_obj_set; assumption.
Qed.

Lemma get_well_formed (cur : value) (k : string) :
  well_formed cur = true -> well_formed (get cur k) = true.
Proof.
  destruct cur as [| | | | | |c N]; try reflexivity.
  intros Hcur. apply well_formed_obj in Hcur. destruct Hcur as [_ Hall].
  cbn [get]. destruct (lookup k N) as [w|] eqn:Hl; [|reflexivity].
  apply lookup_Some_In in Hl. apply (Hall (k, w) Hl).
Qed.

Lemma assign_parts_well_formed (parts : list string) (v cur n : value) :
  well_formed cur = true -> well_formed v = true ->
  assign_parts parts v cur = Ok n -> well_formed n = true.
Proof.
  revert cur n. induction parts as [|p rest IH]; intros cur n Hcur Hv.
  - intros [= <-]. assumption.
  - destruct (String.eqb_spec p "") as [->|Hne];
      [rewrite assign_parts_skip; apply IH; assumption|].
    destruct rest as [|q rest'].
    + rewrite assign_parts_last by assumption. apply put_well_formed; assumption.
    + rewrite assign_parts_intermediate by assumption. cbv zeta.
      set (child := if truthy (get cur p) then get cur p else VObj KObject []).
      assert (well_formed child = true) as Hchild.
      { unfold child. destruct (truthy (get cur p)); [|reflexivity].
        apply get_well_formed. assumption. }
      destruct (put cur p child) as [n0|]; cbn [bind]; [|discriminate].
      destruct (assign_parts (q :: rest') v child) as [child'|] eqn:Hrec;
        cbn [bind]; [|discriminate].
      apply put_well_formed; [assumption|].
      apply (IH child child' Hchild Hv Hrec).
Qed.

Lemma build_well_formed (L : list (list string * value)) (N Y : value) :
  well_formed N = true ->
  (forall pv, In pv L -> well_formed (snd pv) = true) ->
  build L N = Ok Y -> well_formed Y = true.
Proof.
  revert N. induction L as [|[p v] L IH]; intros N HN Hall.
  - intros [= <-]. assumption.
  - rewrite build_cons.
    destruct (assign_parts p v N) as [N1|] eqn:H1; cbn [bind]; [|discriminate].
    apply IH.
    + apply (@assign_parts_well_formed p v N N1 HN); [|assumption].
      apply (Hall (p, v)). left. reflexivity.
    + intros pv Hin. apply Hall. right. assumption.
Qed.

(** ** flatten: the calls of hasOwnProperty *)

Lemma fold_left_Throw (A B : Type) (f : B -> A -> result B) (l : list A) (e : error) :
  fold_left (fun acc x => b <- acc ;; f b x) l (Throw e) = Throw e.
Proof. induction l as [|x l IH]; simpl; [reflexivity|assumption]. Qed.

Lemma fold_left_step_Throw (A B : Type) (f : B -> A -> result B) (l : list A)
  (acc : B) (e : error) :
  l <> [] -> (forall b x, f b x = Throw e) ->
  fold_left (fun acc x => b <- acc ;; f b x) l (Ok acc) = Throw e.
Proof.
  intros Hne Hstep. destruct l as [|x l]; [congruence|].
  cbn [fold_left bind]. rewrite Hstep. apply fold_left_Throw.
Qed.

Lemma flatten_value_fold (sep : string) (c : okind) (props : DynamicObject) :
  flatten_value sep (VObj c props)
  = fold_left (fun acc e => flattened <- acc ;; flatten_iteration sep props flattened e)
      props (Ok []).
Proof.
  cbn [flatten_value].
  match goal with
  | |- ?loop props [] = _ =>
      assert (forall ps acc,
                 loop ps acc
                 = fold_left
                     (fun acc e =>
                        flattened <- acc ;; flatten_iteration sep props flattened e)
                     ps (Ok acc)) as Hgen
  end.
  { induction ps as [|[k v] ps IH]; intros acc; [reflexivity|].
    cbn [fold_left bind]. unfold flatten_iteration at 2. cbn [fst snd].
    destruct (hasOwnProperty props k) as [[|]|e]; cbn [bind].
    - destruct (is_nonnull_object v).
      + destruct (flatten_value sep v) as [flatObject|e]; cbn [bind].
        * destruct (assign_prefixed k sep flatObject acc) as [acc'|e]; cbn [bind].
          -- apply IH.
          -- symmetry. apply fold_left_Throw.
        * symmetry. apply fold_left_Throw.
      + apply IH.
    - apply IH.
    - symmetry. apply fold_left_Throw. }
  apply Hgen.
Qed.

Lemma hasOwnProperty_own (object : DynamicObject) (key : string) :
  has_key "hasOwnProperty" object = false -> In key (keys object) ->
  hasOwnProperty object key = Ok true.
Proof.
  intros Hfree Hin. unfold hasOwnProperty. rewrite Hfree.
  apply has_key_In in Hin. rewrite Hin. reflexivity.
Qed.

Lemma hasOwnProperty_Ok (object : DynamicObject) (key : string) (own : bool) :
  hasOwnProperty object key = Ok own -> has_key "hasOwnProperty" object = false.
Proof.
  unfold hasOwnProperty. destruct (has_key "hasOwnProperty" object);
    [discriminate|reflexivity].
Qed.

Lemma assign_prefixed_entries (key sep : string) (flatObject flattened : DynamicObject) :
  has_key "hasOwnProperty" flatObject = false ->
  assign_prefixed key sep flatObject flattened
  = Ok (prefixed_entries key sep flatObject flattened).
Proof.
  intros Hfree. unfold assign_prefixed, prefixed_entries, assign_all.
  assert (forall l acc,
             incl l flatObject ->
             fold_left
               (fun acc e =>
                  flattened <- acc ;;
                  own <- hasOwnProperty flatObject (fst e) ;;
                  Ok (if own
                      then obj_set (key ++ sep ++ fst e)%string (snd e) flattened
                      else flattened))
               l (Ok acc)
             = Ok (fold_left (fun acc e => obj_set (fst e) (snd e) acc)
                     (map (fun e => ((key ++ sep ++ fst e)%string, snd e)) l) acc))
    as Hgen.
  { induction l as [|e l IH]; intros acc Hincl; [reflexivity|].
    cbn [fold_left map bind fst snd].
    rewrite hasOwnProperty_own.
    - cbn [bind]. apply IH. intros x Hx. apply Hincl. right. assumption.
    - assumption.
    - apply in_map. apply Hincl. left. reflexivity. }
  apply Hgen. apply incl_refl.
Qed.

Lemma assign_prefixed_throws (key sep : string) (flatObject flattened : DynamicObject) :
  has_key "hasOwnProperty" flatObject = true ->
  assign_prefixed key sep flatObject flattened = Throw TypeError.
Proof.
  intros Hhas. unfold assign_prefixed.
  assert (forall flattened (e0 : string * value),
             (own <- hasOwnProperty flatObject (fst e0) ;;
              Ok (if own
                  then obj_set (key ++ sep ++ fst e0)%string (snd e0) flattened
                  else flattened)) = Throw TypeError) as Hstep.
  { intros f e0. unfold hasOwnProperty. rewrite Hhas. reflexivity. }
  apply (@fold_left_step_Throw _ _
           (fun flattened e0 =>
              own <- hasOwnProperty flatObject (fst e0) ;;
              Ok (if own
                  then obj_set (key ++ sep ++ fst e0)%string (snd e0) flattened
                  else flattened))); [|assumption].
  intros ->. discriminate.
Qed.

Lemma assign_prefixed_Ok (key sep : string) (flatObject flattened F : DynamicObject) :
  assign_prefixed key sep flatObject flattened = Ok F ->
  F = prefixed_entries key sep flatObject flattened.
Proof.
  intros Hrun. destruct (has_key "hasOwnProperty" flatObject) eqn:Hhas.
  - rewrite assign_prefixed_throws in Hrun by assumption. discriminate.
  - rewrite assign_prefixed_entries in Hrun by assumption. congruence.
Qed.

(** When no call throws, [flatten] assigns what its loops assign. *)
Lemma flatten_value_Ok (sep : string) (X : value) :
  forall F, flatten_value sep X = Ok F -> F = flattened_entries sep X.
Proof.
  induction X as [| | | | | |c props IH] using value_nested_ind;
    try (intros F [= <-]; reflexivity).
  intros F. rewrite flatten_value_fold, flattened_entries_fold.
  assert (forall ps acc,
             incl ps props ->
             fold_left
               (fun acc e => flattened <- acc ;; flatten_iteration sep props flattened e)
               ps (Ok acc) = Ok F ->
             F = fold_left (flatten_step sep) ps acc) as Hgen.
  { induction ps as [|[k v] ps IHps]; intros acc Hincl Hrun.
    - injection Hrun as <-. reflexivity.
    - cbn [fold_left bind] in Hrun. cbn [fold_left].
      destruct (flatten_iteration sep props acc (k, v)) as [acc'|e] eqn:Hstep;
        [|rewrite fold_left_Throw in Hrun; discriminate].
      assert (acc' = flatten_step sep acc (k, v)) as ->.
      { unfold flatten_iteration in Hstep. cbn [fst snd] in Hstep.
        destruct (hasOwnProperty props k) as [own|e] eqn:Hown; [|discriminate].
        pose proof (hasOwnProperty_Ok _ _ Hown) as Hfree.
        rewrite hasOwnProperty_own in Hown;
          [|assumption
           |apply in_map_iff; exists (k, v); split;
            [reflexivity|apply Hincl; left; reflexivity]].
        injection Hown as <-. cbn [bind] in Hstep.
        unfold flatten_step. cbn [fst snd].
        destruct (is_nonnull_object v); [|congruence].
        destruct (flatten_value sep v) as [flatObject|e] eqn:Hchild; [|discriminate].
        cbn [bind] in Hstep. rewrite Forall_forall in IH.
        pose proof (IH (k, v) (Hincl _ (or_introl eq_refl)) flatObject Hchild) as Heq.
        cbn [snd] in Heq. rewrite <- Heq.
        apply assign_prefixed_Ok. assumption. }
      apply IHps; [|assumption]. intros x Hx. apply Hincl. right. assumption. }
  apply Hgen. apply incl_refl.
Qed.

Lemma flatten_value_throws_TypeError (sep : string) (X : value) (e : error) :
  flatten_value sep X = Throw e -> e = TypeError.
Proof.
  revert e. induction X as [| | | | | |c props IH] using value_nested_ind;
    try discriminate.
  intros e. rewrite flatten_value_fold.
  assert (forall ps acc,
             incl ps props ->
             (forall e', acc = Throw e' -> e' = TypeError) ->
             fold_left
               (fun acc e0 => flattened <- acc ;; flatten_iteration sep props flattened e0)
               ps acc = Throw e -> e = TypeError) as Hgen.
  { induction ps as [|[k v] ps IHps]; intros acc Hincl Hacc Hrun.
    - apply Hacc. assumption.
    - cbn [fold_left] in Hrun. apply IHps in Hrun; try assumption.
      + intros x Hx. apply Hincl. right. assumption.
      + intros e' He'. destruct acc as [a|e0]; cbn [bind] in He'.
        * unfold flatten_iteration in He'. cbn [fst snd] in He'.
          unfold hasOwnProperty in He'.
          destruct (has_key "hasOwnProperty" props); cbn [bind] in He';
            [congruence|].
          destruct (has_key k props); [|discriminate].
          destruct (is_nonnull_object v); [|discriminate].
          destruct (flatten_value sep v) as [flatObject|e1] eqn:Hchild; cbn [bind] in He'.
          -- destruct (has_key "hasOwnProperty" flatObject) eqn:Hhas.
             ++ rewrite assign_prefixed_throws in He' by assumption. congruence.
             ++ rewrite assign_prefixed_entries in He' by assumption. discriminate.
          -- injection He' as <-. rewrite Forall_forall in IH.
             apply (IH (k, v) (Hincl _ (or_introl eq_refl)) e1 Hchild).
        * apply Hacc. assumption. }
  apply (Hgen props (Ok [])); [apply incl_refl|discriminate].
Qed.

Lemma flatten_value_hasOwnProperty (sep : string) (c : okind) (props : DynamicObject) :
  has_key "hasOwnProperty" props = true ->
  flatten_value sep (VObj c props) = Throw TypeError.
Proof.
  intros Hhas. rewrite flatten_value_fold.
  assert (forall flattened e0, flatten_iteration sep props flattened e0 = Throw TypeError)
    as Hstep.
  { intros f e0. unfold flatten_iteration, hasOwnProperty. rewrite Hhas. reflexivity. }
  apply (@fold_left_step_Throw _ _
           (fun flattened e0 => flatten_iteration sep props flattened e0));
    [|assumption].
  intros ->. discriminate.
Qed.

(** ** Ordinary keys *)

Lemma ordinary_keys_obj (c : okind) (ps : DynamicObject) :
  ordinary_keys (VObj c ps) = true
  <-> forall e, In e ps -> reserved (fst e) = false /\ ordinary_keys (snd e) = true.
Proof.
  cbn [ordinary_keys]. induction ps as [|[k v] ps IH].
  - split; [intros _ e []|reflexivity].
  - rewrite !andb_true_iff, negb_true_iff, IH. split.
    + intros [[Hk Hv] Hps] e [<-|He]; [split; assumption|apply Hps; assumption].
    + intros Hall. split; [apply (Hall (k, v)); left; reflexivity|].
      intros e He. apply Hall. right. assumption.
Qed.

Lemma ordinary_keys_primitive (v : value) : isObject v = false -> ordinary_keys v = true.
Proof. destruct v; try reflexivity. discriminate. Qed.

Lemma has_key_reserved (name : string) (o : DynamicObject) :
  reserved name = true ->
  (forall k, In k (keys o) -> reserved k = false) ->
  has_key name o = false.
Proof.
  intros Hname Hall. destruct (has_key name o) eqn:Hhas; [|reflexivity].
  apply has_key_In in Hhas. rewrite (Hall _ Hhas) in Hname. discriminate.
Qed.

Lemma ordinary_keys_top (c : okind) (ps : DynamicObject) :
  ordinary_keys (VObj c ps) = true -> forall k, In k (keys ps) -> reserved k = false.
Proof.
  intros Hord k Hk. rewrite ordinary_keys_obj in Hord.
  apply in_map_iff in Hk. destruct Hk as [e [<- He]]. apply (Hord e He).
Qed.

Lemma contains_prefix (sep s : string) : prefix sep s = true -> contains sep s = true.
Proof. intros H. destruct s; simpl in *; rewrite H; reflexivity. Qed.

Lemma contains_app_r (sep a b : string) :
  contains sep b = true -> contains sep (a ++ b)%string = true.
Proof.
  intros H. induction a as [|ch a IH]; [assumption|].
  cbn [append contains]. rewrite IH. apply orb_true_r.
Qed.

Lemma contains_composite (sep a b : string) :
  contains sep (a ++ sep ++ b)%string = true.
Proof. apply contains_app_r. apply contains_prefix. apply prefix_app. Qed.

Lemma ordinary_separator_reserved (sep name : string) :
  ordinary_separator sep = true -> reserved name = true -> contains sep name = false.
Proof.
  unfold ordinary_separator, reserved. rewrite forallb_forall, existsb_exists.
  intros Hsep [r [Hr Heq]]. apply String.eqb_eq in Heq. subst.
  apply negb_true_iff. apply Hsep. assumption.
Qed.

Lemma ordinary_separator_composite (sep a b : string) :
  ordinary_separator sep = true -> reserved (a ++ sep ++ b)%string = false.
Proof.
  intros Hsep. destruct (reserved (a ++ sep ++ b)%string) eqn:Hres; [|reflexivity].
  pose proof (contains_composite sep a b) as H.
  rewrite (@ordinary_separator_reserved sep _ Hsep Hres) in H. discriminate.
Qed.

Lemma flattened_entries_In (sep : string) (c : okind) (ps : DynamicObject)
  (e : string * value) :
  In e (flattened_entries sep (VObj c ps)) ->
  exists k child, In (k, child) ps
    /\ (isObject child = false /\ e = (k, child)
        \/ isObject child = true
           /\ exists x, In x (flattened_entries sep child)
                        /\ e = ((k ++ sep ++ fst x)%string, snd x)).
Proof.
  rewrite flattened_entries_fold.
  assert (forall l acc,
             In e (fold_left (flatten_step sep) l acc) ->
             In e acc
             \/ exists k child, In (k, child) l
                  /\ (isObject child = false /\ e = (k, child)
                      \/ isObject child = true
                         /\ exists x, In x (flattened_entries sep child)
                                      /\ e = ((k ++ sep ++ fst x)%string, snd x)))
    as Hgen.
  { induction l as [|[k v] l IH]; intros acc He; [left; assumption|].
    cbn [fold_left] in He. apply IH in He. destruct He as [He|[k' [child [Hin Hcase]]]].
    - unfold flatten_step in He. cbn [fst snd] in He.
      rewrite is_nonnull_object_isObject in He.
      destruct (isObject v) eqn:Hobj.
      + unfold prefixed_entries in He. apply In_assign_all in He.
        destruct He as [He|He]; [|left; assumption].
        apply in_map_iff in He. destruct He as [x [<- Hx]].
        right. exists k, v. split; [left; reflexivity|]. right.
        split; [assumption|]. exists x. split; [assumption|reflexivity].
      + apply In_obj_set in He. destruct He as [->|He]; [|left; assumption].
        right. exists k, v. split; [left; reflexivity|]. left. split; auto.
    - right. exists k', child. split; [right; assumption|assumption]. }
  intros He. apply Hgen in He. destruct He as [[]|He]. assumption.
Qed.

Lemma flattened_entries_ordinary (sep : string) (X : value) :
  ordinary_keys X = true -> ordinary_separator sep = true ->
  forall k, In k (keys (flattened_entries sep X)) -> reserved k = false.
Proof.
  intros Hord Hsep k Hk. apply in_map_iff in Hk. destruct Hk as [e [<- He]].
  destruct X as [| | | | | |c ps]; try destruct He.
  apply flattened_entries_In in He.
  destruct He as [k0 [child [Hin [[_ ->]|[_ [x [_ ->]]]]]]]; cbn [fst].
  - rewrite ordinary_keys_obj in Hord. apply (Hord (k0, child) Hin).
  - apply ordinary_separator_composite. assumption.
Qed.

(** On a tree with ordinary keys no call of [flatten] throws. *)
Lemma flatten_value_ordinary (sep : string) (X : value) :
  ordinary_keys X = true -> ordinary_separator sep = true ->
  flatten_value sep X = Ok (flattened_entries sep X).
Proof.
  intros Hord Hsep.
  induction X as [| | | | | |c props IH] using value_nested_ind; try reflexivity.
  pose proof (ordinary_keys_top _ _ Hord) as Htop.
  rewrite ordinary_keys_obj in Hord.
  rewrite flatten_value_fold, flattened_entries_fold.
  assert (forall ps acc,
             incl ps props ->
             fold_left
               (fun acc e => flattened <- acc ;; flatten_iteration sep props flattened e)
               ps (Ok acc)
             = Ok (fold_left (flatten_step sep) ps acc)) as Hgen.
  { induction ps as [|[k v] ps IHps]; intros acc Hincl; [reflexivity|].
    cbn [fold_left bind].
    assert (flatten_iteration sep props acc (k, v) = Ok (flatten_step sep acc (k, v)))
      as ->.
    { unfold flatten_iteration, flatten_step. cbn [fst snd].
      rewrite hasOwnProperty_own;
        [|apply has_key_reserved; [reflexivity|assumption]
         |apply in_map_iff; exists (k, v); split;
          [reflexivity|apply Hincl; left; reflexivity]].
      cbn [bind]. destruct (is_nonnull_object v); [|reflexivity].
      rewrite Forall_forall in IH.
      pose proof (Hincl _ (or_introl eq_refl)) as Hin.
      destruct (Hord (k, v) Hin) as [_ Hv]. cbn [snd] in Hv.
      pose proof (IH (k, v) Hin Hv) as Hchild. cbn [snd] in Hchild.
      rewrite Hchild. cbn [bind].
      apply assign_prefixed_entries.
      apply has_key_reserved; [reflexivity|].
      apply flattened_entries_ordinary; assumption. }
    apply IHps. intros x Hx. apply Hincl. right. assumption. }
  apply Hgen. apply incl_refl.
Qed.

Lemma flatten_ordinary (sep : string) (X : value) :
  isObject X = true -> ordinary_keys X = true -> ordinary_separator sep = true ->
  flatten X sep = Ok (VObj KObject (flattened_entries sep X)).
Proof.
  intros Hobj Hord Hsep. unfold flatten.
  rewrite Hobj, flatten_value_ordinary by assumption. reflexivity.
Qed.

Lemma flatten_Ok (sep : string) (X r : value) :
  flatten X sep = Ok r ->
  isObject X = true /\ r = VObj KObject (flattened_entries sep X).
Proof.
  unfold flatten. destruct (isObject X); [|discriminate].
  destruct (flatten_value sep X) as [F|e] eqn:HF; [|discriminate].
  cbn [bind]. intros [= <-]. split; [reflexivity|].
  rewrite (flatten_value_Ok _ _ HF). reflexivity.
Qed.

Lemma unflatten_flatten_well_formed (sep : string) (X Y : value) :
  (r <- flatten X sep ;; unflatten r sep) = Ok Y -> well_formed Y = true.
Proof.
  destruct (flatten X sep) as [r|e] eqn:Hflat; [|discriminate].
  apply flatten_Ok in Hflat. destruct Hflat as [_ ->].
  cbn [bind unflatten]. rewrite unflatten_loop_build.
  apply build_well_formed; [reflexivity|].
  intros pv Hin. apply in_map_iff in Hin. destruct Hin as [e [<- He]].
  cbn [split_key snd]. apply well_formed_primitive.
  apply (@flattened_entries_primitive sep X e He).
Qed.

(** ** unflatten: empty parts of a key *)

Lemma assign_parts_all_empty (parts : list string) (v cur : value) :
  Forall (fun p => p = "") parts -> assign_parts parts v cur = Ok cur.
Proof.
  induction 1 as [|p parts -> _ IH]; [reflexivity|].
  rewrite assign_parts_skip. assumption.
Qed.



(** ** The examples of the documentation *)

Example flatten_spec_example :
  flatten (obj [("a", obj [("b", VNum 1); ("c", VNum 2)])]) "."
  = Ok (obj [("a.b", VNum 1); ("a.c", VNum 2)]).
Proof. reflexivity. Qed.

Example unflatten_spec_example :
  unflatten (obj [("a.b", VNum 1); ("a.c", VNum 2)]) "."
  = Ok (obj [("a", obj [("b", VNum 1); ("c", VNum 2)])]).
Proof. reflexivity. Qed.

Example unflatten_leading_and_doubled_separators :
  unflatten (obj [(".a..b", VNum 1)]) "." = Ok (obj [("a", obj [("b", VNum 1)])]).
Proof. reflexivity. Qed.

Example isAssignable_spec_example_collision (bracketPath : string -> list string) :
  isAssignable bracketPath [("a", obj [("b", VNum 1)])] (PathString "a.b.c") "."
  = Collision "a.b".
Proof. reflexivity. Qed.

Example isAssignable_spec_example_free (bracketPath : string -> list string) :
  isAssignable bracketPath [("a", obj [("b", VNum 1)])] (PathString "a.x") "."
  = Assignable.
Proof. reflexivity. Qed.

(** ** The loop of unflatten, key by key *)

Lemma unflatten_loop_cons (sep : string) (key : string) (v : value)
  (F : DynamicObject) (nested : value) :
  unflatten_loop sep ((key, v) :: F) nested
  = (nested' <- assign_parts (split sep key) v nested ;; unflatten_loop sep F nested').
Proof.
  unfold unflatten_loop. cbn [fold_left bind fst snd].
  destruct (assign_parts (split sep key) v nested) as [n|e]; cbn [bind]; [reflexivity|].
  induction F as [|e0 F IH]; [reflexivity|exact IH].
Qed.


(** ** flatten: colliding keys *)

Lemma lookup_assign_all_rev (k : string) (entries : list (string * value))
  (o : DynamicObject) :
  lookup k (assign_all entries o)
  = match lookup k (rev entries) with Some v => Some v | None => lookup k o end.
Proof.
  unfold assign_all. revert o.
  induction entries as [|[k0 v0] entries IH]; intros o; [reflexivity|].
  cbn [fold_left fst snd rev]. rewrite IH, lookup_app, lookup_obj_set.
  destruct (lookup k (rev entries)); [reflexivity|].
  cbn [lookup]. destruct (k =? k0); reflexivity.
Qed.

Lemma lookup_rev_flat_map_ext (f g : string * value -> list (string * value))
  (ps : list (string * value)) :
  (forall e, In e ps -> forall key, lookup key (rev (f e)) = lookup key (rev (g e))) ->
  forall key, lookup key (rev (flat_map f ps)) = lookup key (rev (flat_map g ps)).
Proof.
  induction ps as [|e ps IH]; intros Hext key; [reflexivity|].
  cbn [flat_map]. rewrite !rev_app_distr, !lookup_app.
  rewrite IH by (intros e' He'; apply Hext; right; assumption).
  rewrite (Hext e (or_introl eq_refl)). reflexivity.
Qed.

Lemma lookup_map_key (pre : string -> string) (A : list (string * value)) (x : string) :
  (forall x y, pre x = pre y -> x = y) ->
  lookup (pre x) (map (fun e => (pre (fst e), snd e)) A) = lookup x A.
Proof.
  intros Hinj. induction A as [|[k v] A IH]; [reflexivity|].
  cbn [map lookup fst snd]. rewrite IH.
  destruct (x =? k) eqn:E.
  - apply String.eqb_eq in E. subst. rewrite String.eqb_refl. reflexivity.
  - destruct (pre x =? pre k) eqn:E'; [|reflexivity].
    apply String.eqb_eq in E'. apply Hinj in E'. subst.
    rewrite String.eqb_refl in E. discriminate.
Qed.

Lemma lookup_map_key_Some (pre : string -> string) (A : list (string * value))
  (key : string) (v : value) :
  lookup key (map (fun e => (pre (fst e), snd e)) A) = Some v ->
  exists x, key = pre x.
Proof.
  induction A as [|[k w] A IH]; [discriminate|].
  cbn [map lookup fst snd]. destruct (key =? pre k) eqn:E.
  - intros _. exists k. apply String.eqb_eq. assumption.
  - assumption.
Qed.

Lemma lookup_map_key_ext (pre : string -> string) (A B : list (string * value)) :
  (forall x y, pre x = pre y -> x = y) ->
  (forall x, lookup x A = lookup x B) ->
  forall key, lookup key (map (fun e => (pre (fst e), snd e)) A)
              = lookup key (map (fun e => (pre (fst e), snd e)) B).
Proof.
  intros Hinj Hext key.
  destruct (lookup key (map (fun e => (pre (fst e), snd e)) A)) as [v|] eqn:HA.
  - destruct (lookup_map_key_Some pre A key HA) as [x ->].
    rewrite lookup_map_key in * by assumption. congruence.
  - destruct (lookup key (map (fun e => (pre (fst e), snd e)) B)) as [v|] eqn:HB;
      [|reflexivity].
    destruct (lookup_map_key_Some pre B key HB) as [x ->].
    rewrite lookup_map_key in * by assumption. congruence.
Qed.

Lemma string_app_inv_head (p x y : string) :
  (p ++ x)%string = (p ++ y)%string -> x = y.
Proof.
  induction p as [|a p IH]; simpl; [trivial|].
  intros [= H]. apply IH. assumption.
Qed.

Lemma flattened_entries_lookup (sep : string) (X : value) :
  forall key,
    lookup key (flattened_entries sep X)
    = lookup key (rev (map (join_path sep) (leaves X))).
Proof.
  induction X as [| | | | | |c ps IH] using value_nested_ind; try reflexivity.
  intros key. rewrite flattened_entries_flat_map, lookup_assign_all_rev, leaves_obj.
  cbn [lookup].
  replace (map (join_path sep) (flat_map leaves_of_entry ps))
    with (flat_map (fun e => map (join_path sep) (leaves_of_entry e)) ps)
    by (clear; induction ps as [|e ps IHps]; simpl;
        [reflexivity|rewrite map_app, IHps; reflexivity]).
  rewrite (lookup_rev_flat_map_ext (flat_of_entry sep)
             (fun e => map (join_path sep) (leaves_of_entry e)) ps).
  { destruct (lookup key _); reflexivity. }
  intros [k child] He key'. rewrite Forall_forall in IH.
  specialize (IH (k, child) He). cbn [snd] in IH.
  unfold flat_of_entry, leaves_of_entry. cbn [fst snd].
  destruct (isObject child) eqn:Hobj; [|reflexivity].
  rewrite map_map.
  replace (map (fun x => join_path sep (k :: fst x, snd x)) (leaves child))
    with (map (fun e => ((k ++ sep ++ fst e)%string, snd e))
            (map (join_path sep) (leaves child))).
  - rewrite <- !map_rev.
    apply (lookup_map_key_ext (fun x => (k ++ sep ++ x)%string)).
    + intros x y Hxy. apply string_app_inv_head in Hxy.
      apply string_app_inv_head in Hxy. assumption.
    + intros x. rewrite map_rev, <- IH. symmetry.
      apply lookup_Permutation; [|apply Permutation_rev].
      destruct child as [| | | | | |cc pc]; try constructor.
      rewrite flattened_entries_flat_map. apply assign_all_NoDup. constructor.
  - rewrite map_map. apply map_ext_in. intros [q w] Hq.
    unfold join_path. cbn [fst snd].
    rewrite concat_cons by (apply (@leaves_paths_nonempty child q w Hq)). reflexivity.
Qed.

Lemma hasOwnProperty_mapValues (f : value -> value) (props : DynamicObject)
  (key : string) :
  hasOwnProperty (mapValues f props) key = hasOwnProperty props key.
Proof. unfold hasOwnProperty. rewrite !has_key_mapValues. reflexivity. Qed.

(** [flatten] makes the same calls on an array as on the Structure of its
    entries. *)
Lemma flatten_value_as_structure (sep : string) (X : value) :
  flatten_value sep (as_structure X) = flatten_value sep X.
Proof.
  induction X as [| | | | | |c props IH] using value_nested_ind; try reflexivity.
  rewrite as_structure_obj, !flatten_value_fold.
  change (map (fun e => (fst e, as_structure (snd e))) props)
    with (mapValues as_structure props).
  assert (forall ps acc,
             incl ps props ->
             fold_left
               (fun acc e =>
                  flattened <- acc ;;
                  flatten_iteration sep (mapValues as_structure props) flattened e)
               (mapValues as_structure ps) acc
             = fold_left
                 (fun acc e => flattened <- acc ;; flatten_iteration sep props flattened e)
                 ps acc) as Hgen.
  { induction ps as [|[k v] ps IHps]; intros acc Hincl; [reflexivity|].
    change (mapValues as_structure ((k, v) :: ps))
      with ((k, as_structure v) :: mapValues as_structure ps).
    cbn [fold_left]. rewrite IHps by (intros x Hx; apply Hincl; right; assumption).
    f_equal. destruct acc as [a|e]; [|reflexivity].
    cbn [bind]. unfold flatten_iteration. cbn [fst snd].
    rewrite hasOwnProperty_mapValues, !is_nonnull_object_isObject, as_structure_isObject.
    rewrite Forall_forall in IH.
    pose proof (IH (k, v) (Hincl _ (or_introl eq_refl))) as Hv. cbn [snd] in Hv.
    rewrite Hv. destruct v; reflexivity. }
  apply Hgen. apply incl_refl.
Qed.

Lemma has_key_app (k : string) (o1 o2 : DynamicObject) :
  has_key k (o1 ++ o2) = has_key k o1 || has_key k o2.
Proof.
  unfold has_key. rewrite lookup_app. destruct (lookup k o1); reflexivity.
Qed.

(** Without an own property [hasOwnProperty], every call of
    [object.hasOwnProperty(key)] in the loop answers [true]. *)
Lemma flatten_value_own (sep : string) (c : okind) (props : DynamicObject) :
  has_key "hasOwnProperty" props = false ->
  flatten_value sep (VObj c props)
  = fold_left
      (fun acc e =>
         flattened <- acc ;;
         if is_nonnull_object (snd e) then
           flatObject <- flatten_value sep (snd e) ;;
           assign_prefixed (fst e) sep flatObject flattened
         else Ok (obj_set (fst e) (snd e) flattened))
      props (Ok []).
Proof.
  intros Hfree. rewrite flatten_value_fold.
  assert (forall ps acc,
             incl ps props ->
             fold_left
               (fun acc e => flattened <- acc ;; flatten_iteration sep props flattened e)
               ps acc
             = fold_left
                 (fun acc e =>
                    flattened <- acc ;;
                    if is_nonnull_object (snd e) then
                      flatObject <- flatten_value sep (snd e) ;;
                      assign_prefixed (fst e) sep flatObject flattened
                    else Ok (obj_set (fst e) (snd e) flattened))
                 ps acc) as Hgen.
  { induction ps as [|e ps IHps]; intros acc Hincl; [reflexivity|].
    cbn [fold_left]. rewrite IHps by (intros x Hx; apply Hincl; right; assumption).
    f_equal. destruct acc as [a|err]; [|reflexivity].
    cbn [bind]. unfold flatten_iteration.
    rewrite hasOwnProperty_own;
      [reflexivity|assumption|apply in_map; apply Hincl; left; reflexivity]. }
  apply Hgen. apply incl_refl.
Qed.

(** * The documented behaviour, claim by claim *)

(** ** Round trip of flatten and unflatten *)

(** C1 (as stated, refuted): without a separator in any key, the round
    trip still loses an empty Structure, turns an array into a plain
    Structure, loses an entry whose key is empty, and mis-splits a key
    that overlaps a separator of several characters. *)
Lemma unflatten_flatten_counterexample :
  ((r <- flatten (obj [("a", obj [])]) "." ;; unflatten r ".") = Ok (obj [])
   /\ ~ same_structure (obj []) (obj [("a", obj [])]))
  /\ ((r <- flatten (obj [("a", arr [("0", VNum 1)])]) "." ;; unflatten r ".")
      = Ok (obj [("a", obj [("0", VNum 1)])])
      /\ ~ same_structure (obj [("a", obj [("0", VNum 1)])])
                          (obj [("a", arr [("0", VNum 1)])]))
  /\ ((r <- flatten (obj [("", VNum 1)]) "." ;; unflatten r ".") = Ok (obj [])
      /\ ~ same_structure (obj []) (obj [("", VNum 1)]))
  /\ ((r <- flatten (obj [("a", obj [("x", VNum 1)])]) "aa" ;; unflatten r "aa")
      = Ok (obj [("ax", VNum 1)])
      /\ ~ same_structure (obj [("ax", VNum 1)]) (obj [("a", obj [("x", VNum 1)])])).
Proof.
  repeat split; try reflexivity; intros H;
    inversion H as [v Hprim|c o1 o2 Hkeys Hvals]; subst.
  - destruct (Hkeys "a") as [Hk _]. specialize (Hk eq_refl). discriminate.
  - specialize (Hvals "a" _ _ eq_refl eq_refl). inversion Hvals.
  - destruct (Hkeys "") as [Hk _]. specialize (Hk eq_refl). discriminate.
  - destruct (Hkeys "ax") as [_ Hk]. specialize (Hk eq_refl). discriminate.
Qed.

(** C1 (amended): for every Structure X without arrays and without empty
    nested Structures, whose keys are unique, non-empty, do not contain
    the separator and are not the name of a member of [Object.prototype]
    (nor [prototype] or [__wrapped__]), and in which no key of a nested
    Structure, followed by the separator, contains the separator before
    that final position (which a one-character separator never does),
    with a separator that occurs in none of those names,
    [unflatten(flatten(X, {separator}), {separator})] returns a structure
    with the same keys and the same values as X at every depth. *)
Theorem unflatten_flatten_roundtrip (separator : string) (ps : DynamicObject) :
  roundtrip_domain separator ps = true ->
  ordinary_keys (obj ps) = true ->
  ordinary_separator separator = true ->
  exists Y,
    (r <- flatten (obj ps) separator ;; unflatten r separator) = Ok (obj Y)
    /\ same_structure (obj Y) (obj ps)
    /\ well_formed (obj Y) = true.
Proof.
  intros Hdom Hord Hsep. apply roundtrip_domain_entries_ok in Hdom.
  pose proof (@flattened_entries_leaves separator (VObj KObject ps) KObject ps eq_refl Hdom)
    as Hflat.
  assert (Permutation
            (map (split_key separator) (flattened_entries separator (VObj KObject ps)))
            (leaves (VObj KObject ps))) as Hperm.
  { rewrite (Permutation_map (split_key separator) Hflat). rewrite map_map.
    apply Permutation_refl'.
    transitivity (map (fun pv : list string * value => pv) (leaves (VObj KObject ps)));
      [|apply map_id].
    apply map_ext_in. intros [p v] Hin. unfold split_key, join_path. cbn [fst snd].
    rewrite (@split_join_leaf separator KObject ps p v Hdom Hin). reflexivity. }
  destruct (@build_leaves separator (VObj KObject ps) ps eq_refl Hdom
              (map (split_key separator) (flattened_entries separator (VObj KObject ps))))
    as [Y [HY Hsame]].
  - intros x Hx. apply (Permutation_in _ Hperm). assumption.
  - assert ((r <- flatten (obj ps) separator ;; unflatten r separator) = Ok (obj Y))
      as Hrun.
    { rewrite (@flatten_ordinary separator (obj ps) eq_refl Hord Hsep).
      cbn [bind unflatten]. rewrite unflatten_loop_build. assumption. }
    exists Y. split; [assumption|]. split; [apply Hsame; assumption|].
    apply (unflatten_flatten_well_formed _ _ Hrun).
Qed.

Lemma unflatten_flatten_roundtrip_witness :
  exists Y,
    (r <- flatten (obj [("a", obj [("b", VNum 1); ("c", VNum 2)]); ("d", VStr "x")]) "."
     ;; unflatten r ".") = Ok (obj Y)
    /\ same_structure (obj Y)
         (obj [("a", obj [("b", VNum 1); ("c", VNum 2)]); ("d", VStr "x")])
    /\ well_formed (obj Y) = true.
Proof.
  apply (@unflatten_flatten_roundtrip "."
           [("a", obj [("b", VNum 1); ("c", VNum 2)]); ("d", VStr "x")]);
    reflexivity.
Defined.

(** ** flatten and arrays *)

(** C2 (as stated, refuted): the array under ["a"] is recursed into, and
    the flattened output has no key ["a"] at all. *)
Lemma flatten_array_counterexample :
  flatten (obj [("a", arr [("0", VNum 1); ("1", VNum 2)])]) "."
  = Ok (obj [("a.0", VNum 1); ("a.1", VNum 2)])
  /\ lookup "a" [("a.0", VNum 1); ("a.1", VNum 2)] = None.
Proof. split; reflexivity. Qed.

(** C2 (amended): [flatten] treats an array exactly as the Structure that
    has the array's indices as keys: it recurses into it, so the output is
    that of the tree with every array replaced by such a Structure, and no
    array (nor any other object) is ever a value of the flattened output.
    Each primitive element of an array under the key [k] is emitted under
    the key [k + separator + index]: when the keys of the tree are not
    names of members of [Object.prototype], the separator occurs in none
    of those names, and no two leaves of the tree have the same flat key,
    the output holds the element under that key. *)
Theorem flatten_recurses_into_arrays (X : value) (sep : string) :
  flatten (as_structure X) sep = flatten X sep
  /\ (forall F, flatten X sep = Ok (VObj KObject F) ->
                forall k v, In (k, v) F -> isObject v = false)
  /\ (forall c ps k elems i e,
         X = VObj c ps ->
         ordinary_keys X = true ->
         ordinary_separator sep = true ->
         nodup_keys (flat_keys sep X) = true ->
         In (k, VObj KArray elems) ps ->
         In (i, e) elems ->
         isObject e = false ->
         exists F, flatten X sep = Ok (VObj KObject F)
                   /\ lookup (k ++ sep ++ i)%string F = Some e).
Proof.
  split; [|split].
  - unfold flatten. rewrite as_structure_isObject, flatten_value_as_structure.
    reflexivity.
  - intros F Hflat k v Hin. apply flatten_Ok in Hflat.
    destruct Hflat as [_ [= ->]].
    apply (flattened_entries_primitive sep X (k, v)). assumption.
  - intros c ps k elems i e -> Hord Hsep Hnd Hentry Helem Hprim.
    exists (flattened_entries sep (VObj c ps)).
    split; [apply flatten_ordinary; [reflexivity|assumption|assumption]|].
    apply nodup_keys_NoDup in Hnd.
    assert (NoDup (keys (map (join_path sep) (leaves (VObj c ps))))) as Hkeys.
    { unfold keys. rewrite map_map. exact Hnd. }
    rewrite flattened_entries_lookup.
    rewrite <- (@lookup_Permutation (k ++ sep ++ i)%string
                  (map (join_path sep) (leaves (VObj c ps))) _ Hkeys
                  (Permutation_rev _)).
    apply In_lookup_NoDup; [assumption|].
    apply in_map_iff. exists ([k; i], e). split; [reflexivity|].
    rewrite leaves_obj. apply in_flat_map. exists (k, VObj KArray elems).
    split; [assumption|]. unfold leaves_of_entry. cbn [fst snd isObject].
    apply in_map_iff. exists ([i], e). split; [reflexivity|].
    rewrite leaves_obj. apply in_flat_map. exists (i, e). split; [assumption|].
    unfold leaves_of_entry. cbn [fst snd]. rewrite Hprim. left. reflexivity.
Qed.

Lemma flatten_recurses_into_arrays_witness :
  flatten (as_structure (obj [("a", arr [("0", VNum 1); ("1", VNum 2)])])) "."
  = flatten (obj [("a", arr [("0", VNum 1); ("1", VNum 2)])]) "."
  /\ isObject (VNum 2) = false
  /\ exists F, flatten (obj [("a", arr [("0", VNum 1); ("1", VNum 2)])]) "."
               = Ok (VObj KObject F)
               /\ lookup "a.1" F = Some (VNum 2).
Proof.
  split; [|split].
  - apply (proj1 (flatten_recurses_into_arrays
                    (obj [("a", arr [("0", VNum 1); ("1", VNum 2)])]) ".")).
  - apply (proj1 (proj2 (flatten_recurses_into_arrays
                           (obj [("a", arr [("0", VNum 1); ("1", VNum 2)])]) "."))
             [("a.0", VNum 1); ("a.1", VNum 2)] eq_refl "a.1" (VNum 2)).
    right. left. reflexivity.
  - apply (proj2 (proj2 (flatten_recurses_into_arrays
                           (obj [("a", arr [("0", VNum 1); ("1", VNum 2)])]) "."))
             KObject [("a", arr [("0", VNum 1); ("1", VNum 2)])] "a"
             [("0", VNum 1); ("1", VNum 2)] "1" (VNum 2));
      try reflexivity.
    + left. reflexivity.
    + right. left. reflexivity.
Defined.

(** ** The guard of flatten and unflatten *)

(** C3 (as stated, refuted): an array as root does not raise; it is
    flattened, and unflattened, as the Structure keyed by its indices. *)
Lemma array_root_counterexample :
  flatten (arr [("0", VNum 1); ("1", VNum 2)]) "."
  = Ok (obj [("0", VNum 1); ("1", VNum 2)])
  /\ unflatten (arr [("0", VNum 1); ("1", VNum 2)]) "."
     = Ok (obj [("0", VNum 1); ("1", VNum 2)]).
Proof. split; reflexivity. Qed.

(** C3 (amended): [flatten] and [unflatten] raise the invalid-object error
    exactly when the top-level input is a primitive (undefined, null, a
    boolean, a number or a string); an array as root is accepted like a
    Structure.  On a Structure or an array neither raises the
    invalid-object error, and [flatten] returns a result when no key of
    the tree is the name of a member of [Object.prototype] and the
    separator occurs in none of those names; on a primitive neither
    returns any result. *)
Theorem invalid_object_exactly_on_primitives (v : value) (sep : string) :
  (flatten v sep = Throw ErrorInvalidObject <-> isObject v = false)
  /\ (unflatten v sep = Throw ErrorInvalidObject <-> isObject v = false)
  /\ (isObject v = true -> ordinary_keys v = true -> ordinary_separator sep = true ->
      exists F, flatten v sep = Ok (VObj KObject F))
  /\ (isObject v = false ->
      forall r, flatten v sep <> Ok r /\ unflatten v sep <> Ok r).
Proof.
  repeat split.
  - unfold flatten. destruct (isObject v); [|reflexivity].
    destruct (flatten_value sep v) as [F|e] eqn:Hrun; [discriminate|].
    apply flatten_value_throws_TypeError in Hrun. subst e. discriminate.
  - unfold flatten. intros ->. reflexivity.
  - destruct v; simpl; try reflexivity.
    intros H. apply unflatten_loop_throws_TypeError in H. discriminate.
  - destruct v; simpl; try reflexivity. discriminate.
  - intros Hobj Hord Hsep. eexists. apply flatten_ordinary; assumption.
  - unfold flatten. rewrite H. discriminate.
  - destruct v; simpl in *; discriminate.
Qed.

Lemma invalid_object_exactly_on_primitives_witness :
  isObject (arr [("0", VNum 1)]) = true
  /\ (exists F, flatten (arr [("0", VNum 1)]) "." = Ok (VObj KObject F))
  /\ isObject VNull = false
  /\ flatten VNull "." <> Ok (obj []) /\ unflatten VNull "." <> Ok (obj []).
Proof.
  split; [reflexivity|]. split.
  - apply (proj1 (proj2 (proj2
      (invalid_object_exactly_on_primitives (arr [("0", VNum 1)]) "."))));
      reflexivity.
  - split; [reflexivity|].
    apply (proj2 (proj2 (proj2 (invalid_object_exactly_on_primitives VNull ".")))).
    reflexivity.
Defined.

(** ** unflatten: an intermediate segment that holds a scalar *)




(** ** unflatten: a trailing separator *)

(** C5 (the code at the failing input): the key ["a."] splits into ["a"]
    and the empty part; ["a"] is not at the last index, so a container is
    created for it, and the last part is skipped: the value [1] is never
    assigned. *)
Theorem unflatten_trailing_separator_drops_value :
  split "." "a." = ["a"; ""]
  /\ unflatten (obj [("a.", VNum 1)]) "." = Ok (obj [("a", obj [])])
  /\ unflatten (obj [("a.", VNum 1)]) "." <> Ok (obj [("a", VNum 1)]).
Proof. repeat split; try reflexivity. discriminate. Qed.

(** ** isAssignable *)

(** C6 (as stated, refuted): the prefix ["a"] holds an array, which is
    not a Structure, yet no collision is reported; and a segment is read
    as a dot path: the object has no key ["a.b"], yet the one-segment path
    ["a.b"] collides. *)
Lemma isAssignable_counterexample :
  (lookup "a" [("a", arr [("0", VNum 1)])] = Some (arr [("0", VNum 1)])
   /\ isAssignable (fun s => [s]) [("a", arr [("0", VNum 1)])] (PathString "a") "."
      = Assignable)
  /\ (lookup "a.b" [("a", obj [("b", VNum 1)])] = None
      /\ isAssignable (fun s => [s]) [("a", obj [("b", VNum 1)])]
           (PathArray ["a.b"]) "."
         = Collision "a.b").
Proof. repeat split; reflexivity. Qed.

(** C6 (amended): for a Structure whose top-level keys contain no dot,
    and a path whose segments contain no dot and no bracket and none of
    whose cumulative prefixes holds null, [isAssignable] returns the
    shortest cumulative prefix, joined with dots, at which the object
    holds a value that is neither a Structure nor an array (a string, a
    number, a boolean or undefined), arrays being traversed like
    Structures and the [length] of an array or of a string being one of
    its properties; it returns [true] when no prefix holds such a value. *)
Theorem isAssignable_shortest_colliding_prefix
  (bracketPath : string -> list string)
  (object : DynamicObject) (p : path) (separator : string) :
  forallb plain_segment (pathArray p separator) = true ->
  forallb (fun k => negb (has_char "."%char k)) (keys object) = true ->
  forallb (fun q => negb (is_null (baseGet (VObj KObject object) q)))
    (prefixes (pathArray p separator)) = true ->
  isAssignable bracketPath object p separator
  = match find (holds_scalar object) (prefixes (pathArray p separator)) with
    | Some q => Collision (String.concat "." q)
    | None => Assignable
    end.
Proof.
  intros Hplain Hkeys Hnull. unfold isAssignable.
  rewrite pathPoints_prefixes.
  apply first_collision_prefixes; [|assumption].
  intros q Hq. apply In_prefixes_from in Hq. destruct Hq as [Hne Hsub].
  split; [|assumption].
  apply castPath_concat; [assumption| |assumption].
  apply Forall_forall. intros s Hs. rewrite forallb_forall in Hplain.
  destruct (Hsub s Hs) as [[]|Hin]. apply Hplain. assumption.
Qed.

Lemma isAssignable_shortest_colliding_prefix_witness :
  isAssignable (fun s => [s]) [("a", obj [("b", VNum 1)])] (PathString "a.b.c") "."
  = Collision "a.b"
  /\ isAssignable (fun s => [s]) [("a", obj [("b", VNum 1)])] (PathString "a.x") "."
     = Assignable.
Proof.
  split.
  - apply (@isAssignable_shortest_colliding_prefix (fun s => [s])
             [("a", obj [("b", VNum 1)])] (PathString "a.b.c") ".");
      reflexivity.
  - apply (@isAssignable_shortest_colliding_prefix (fun s => [s])
             [("a", obj [("b", VNum 1)])] (PathString "a.x") ".");
      reflexivity.
Defined.

(** ** clear with skipFirstDepth *)

(** C7 (as stated, refuted): a top-level array is not a Structure, yet it
    is not replaced by an empty Structure: it is cleared like a Structure
    and comes back as the plain object of its entries. *)
Lemma clear_skipFirstDepth_array_counterexample :
  clear (obj [("a", arr [("0", VNum 1)])]) true = [("a", obj [("0", VNum 1)])]
  /\ clear (obj [("a", arr [("0", VNum 1)])]) true <> [("a", obj [])].
Proof. split; [reflexivity|discriminate]. Qed.

(** C7 (amended): with [skipFirstDepth = true], [clear] keeps every
    top-level key of a Structure none of whose keys, at any depth, is
    [__proto__], [constructor], [prototype], [__wrapped__] or the name of
    another member of [Object.prototype]: a top-level value that is a
    Structure or an array is cleared in the default mode and kept even
    when it becomes empty, and a top-level primitive is replaced by an
    empty Structure. *)
Theorem clear_skipFirstDepth_keeps_keys (ps : DynamicObject) (k : string) :
  nodup_keys (keys ps) = true ->
  ordinary_keys (obj ps) = true ->
  lookup k (clear (obj ps) true)
  = option_map
      (fun v => if isObject v then VObj KObject (clear v false) else VObj KObject [])
      (lookup k ps).
Proof.
  intros Hnd _. apply nodup_keys_NoDup in Hnd.
  unfold obj. cbn [clear toPairs]. rewrite lookup_mapValues. unfold assign.
  rewrite lookup_assign_all by apply pickBy_NoDup.
  unfold omitBy. rewrite lookup_pickBy by assumption.
  rewrite lookup_mapValues, lookup_pickBy by assumption.
  destruct (lookup k ps) as [v|]; [|reflexivity].
  destruct v; reflexivity.
Qed.

Lemma clear_skipFirstDepth_keeps_keys_witness :
  lookup "b" (clear (obj [("a", obj []); ("b", VNum 1)]) true) = Some (obj [])
  /\ lookup "a" (clear (obj [("a", obj [("x", obj [])]); ("b", VNum 1)]) true)
     = Some (obj []).
Proof.
  split.
  - apply (@clear_skipFirstDepth_keeps_keys [("a", obj []); ("b", VNum 1)] "b");
      reflexivity.
  - apply (@clear_skipFirstDepth_keeps_keys
             [("a", obj [("x", obj [])]); ("b", VNum 1)] "a");
      reflexivity.
Defined.

(** ** sort *)

(** C8 (as stated, refuted): an array value is not left unmodified, it
    comes back as a plain object; and array-index keys are not ordered
    alphabetically: ["9"] stays before ["10"]. *)
Lemma sort_counterexample :
  sort (obj [("a", arr [("0", VNum 1)])]) = [("a", obj [("0", VNum 1)])]
  /\ sort (obj [("9", VNum 1); ("10", VNum 2)]) = [("9", VNum 1); ("10", VNum 2)]
  /\ ascending String.ltb (keys (sort (obj [("9", VNum 1); ("10", VNum 2)]))) = false.
Proof. repeat split; reflexivity. Qed.

(** C8 (amended): for every Structure X without arrays, none of whose
    keys, at any depth, is [__proto__], [__wrapped__] or the name of
    another member of [Object.prototype], [sort X] contains exactly the
    key-value pairs of X at every depth, primitive values unmodified; at
    every depth the array-index keys come first, in ascending numeric
    order, and the other keys follow in ascending alphabetical order. *)
Theorem sort_preserves_pairs_and_orders_keys (ps : DynamicObject) :
  well_formed (obj ps) = true ->
  no_arrays (obj ps) = true ->
  ordinary_keys (obj ps) = true ->
  same_structure (obj (sort (obj ps))) (obj ps)
  /\ well_formed (obj (sort (obj ps))) = true
  /\ sorted_deep (obj (sort (obj ps))) = true.
Proof.
  intros Hwf Hna _. split; [|split].
  - apply (sort_same_structure (obj ps)); assumption.
  - apply sort_well_formed.
  - apply sort_sorted_deep.
Qed.

Lemma sort_preserves_pairs_and_orders_keys_witness :
  same_structure
    (obj (sort (obj [("b", VNum 1); ("a", obj [("d", VNum 1); ("c", VNum 2)])])))
    (obj [("b", VNum 1); ("a", obj [("d", VNum 1); ("c", VNum 2)])])
  /\ well_formed
       (obj (sort (obj [("b", VNum 1); ("a", obj [("d", VNum 1); ("c", VNum 2)])])))
     = true
  /\ sorted_deep
       (obj (sort (obj [("b", VNum 1); ("a", obj [("d", VNum 1); ("c", VNum 2)])])))
     = true.
Proof.
  apply (@sort_preserves_pairs_and_orders_keys
           [("b", VNum 1); ("a", obj [("d", VNum 1); ("c", VNum 2)])]);
    reflexivity.
Defined.

(** ** clear is idempotent *)


(** ** flatten drops empty Structures *)

(** C10 (as stated, refuted): under the key [hasOwnProperty] an empty
    Structure is not dropped silently: the call
    [object.hasOwnProperty(key)] finds the Structure instead of the
    method, and [flatten] raises a TypeError, where it returns a result
    without the entry. *)
Lemma flatten_hasOwnProperty_counterexample :
  flatten (obj [("hasOwnProperty", obj []); ("b", VNum 1)]) "." = Throw TypeError
  /\ flatten (obj [("b", VNum 1)]) "." = Ok (obj [("b", VNum 1)]).
Proof. split; reflexivity. Qed.

(** C10 (amended): an entry whose key is not [hasOwnProperty] and whose
    value is an empty Structure, or a Structure that flattens to no
    entries, contributes no key to the flattened output: [flatten] gives
    what it gives without the entry, so [unflatten] cannot recover it. *)
Theorem flatten_drops_empty_structures
  (sep : string) (c : okind) (pre post : DynamicObject) (k : string) (v : value) :
  k <> "hasOwnProperty" ->
  flatten v sep = Ok (obj []) ->
  flatten (VObj c (pre ++ (k, v) :: post)) sep = flatten (VObj c (pre ++ post)) sep
  /\ (r <- flatten (VObj c (pre ++ (k, v) :: post)) sep ;; unflatten r sep)
     = (r <- flatten (VObj c (pre ++ post)) sep ;; unflatten r sep).
Proof.
  intros Hk Hflat.
  assert (isObject v = true /\ flatten_value sep v = Ok []) as [Hobj Hv].
  { unfold flatten in Hflat. destruct (isObject v); [|discriminate].
    split; [reflexivity|].
    destruct (flatten_value sep v) as [F|e]; [|discriminate].
    cbn [bind] in Hflat. injection Hflat as ->. reflexivity. }
  assert (has_key "hasOwnProperty" (pre ++ (k, v) :: post)
          = has_key "hasOwnProperty" (pre ++ post)) as Hhas.
  { rewrite !has_key_app. f_equal. unfold has_key. cbn [lookup].
    rewrite (proj2 (String.eqb_neq "hasOwnProperty" k)) by congruence.
    reflexivity. }
  assert (flatten (VObj c (pre ++ (k, v) :: post)) sep
          = flatten (VObj c (pre ++ post)) sep) as Heq.
  { unfold flatten. cbn [isObject]. f_equal.
    destruct (has_key "hasOwnProperty" (pre ++ post)) eqn:Hown.
    - rewrite !flatten_value_hasOwnProperty by congruence. reflexivity.
    - rewrite !flatten_value_own by congruence.
      rewrite !fold_left_app. cbn [fold_left fst snd]. f_equal.
      match goal with |- _ = ?run => destruct run as [acc|e] end; [|reflexivity].
      cbn [bind]. rewrite is_nonnull_object_isObject, Hobj, Hv. reflexivity. }
  split; [assumption|]. rewrite Heq. reflexivity.
Qed.

Lemma flatten_drops_empty_structures_witness :
  flatten (obj [("a", obj []); ("b", VNum 1)]) "." = flatten (obj [("b", VNum 1)]) "."
  /\ flatten (obj [("a", obj [("x", obj [])]); ("b", VNum 1)]) "."
     = flatten (obj [("b", VNum 1)]) ".".
Proof.
  split.
  - apply (@flatten_drops_empty_structures "." KObject [] [("b", VNum 1)] "a" (obj []));
      [discriminate|reflexivity].
  - apply (@flatten_drops_empty_structures "." KObject [] [("b", VNum 1)] "a"
             (obj [("x", obj [])])); [discriminate|reflexivity].
Defined.

(** * Further properties of the code *)

(** ** Own-property order *)

Lemma own_property_order_sorted (ks : list string) :
  own_property_order ks = true
  <-> StronglySorted (fun a b => order_before a b = true) ks.
Proof.
  induction ks as [|k ks IH]; simpl.
  - split; [constructor|reflexivity].
  - rewrite andb_true_iff, forallb_forall, IH. split.
    + intros [Hall Hs]. constructor; [assumption|]. apply Forall_forall. assumption.
    + intros Hs. inversion Hs as [|x l Hs' Hall]; subst.
      split; [apply Forall_forall|]; assumption.
Qed.

Lemma insert_index_ordered (n : N) (k : string) (v : value) (o : DynamicObject) :
  array_index k = Some n ->
  ~ In k (keys o) ->
  StronglySorted (fun a b => order_before a b = true) (keys o) ->
  StronglySorted (fun a b => order_before a b = true) (keys (insert_index n k v o)).
Proof.
  intros Hidx. unfold keys.
  induction o as [|[k0 v0] o IH]; simpl; intros Hnin Hs.
  - constructor; constructor.
  - inversion Hs as [|x l Hs' Hall]; subst.
    assert (order_before k k0 = true ->
            StronglySorted (fun a b => order_before a b = true)
              (k :: k0 :: map fst o)) as Hfront.
    { intros Hk. constructor; [assumption|]. constructor; [assumption|].
      apply (Forall_impl (P := fun b => order_before k0 b = true)); [|assumption].
      intros b Hb. unfold order_before in *. rewrite Hidx in *.
      destruct (array_index k0) as [m|], (array_index b) as [j|];
        try reflexivity; try discriminate.
      apply N.ltb_lt. apply N.ltb_lt in Hk, Hb. lia. }
    destruct (array_index k0) as [m|] eqn:Hm.
    + destruct (m <? n)%N eqn:Hlt; simpl.
      * constructor; [apply IH; [tauto|assumption]|].
        apply (Permutation_Forall
                 (Permutation_map fst (insert_index_Permutation n k v o))).
        simpl. constructor; [|assumption].
        unfold order_before. rewrite Hm, Hidx. assumption.
      * apply Hfront. unfold order_before. rewrite Hidx, Hm.
        apply N.ltb_lt. apply N.ltb_ge in Hlt.
        destruct (N.eq_dec m n) as [->|Hmn]; [|lia].
        exfalso. apply Hnin. left. apply (array_index_inj k0 k Hm Hidx).
    + simpl. apply Hfront. unfold order_before. rewrite Hidx, Hm. reflexivity.
Qed.

Lemma obj_set_ordered (k : string) (v : value) (o : DynamicObject) :
  StronglySorted (fun a b => order_before a b = true) (keys o) ->
  StronglySorted (fun a b => order_before a b = true) (keys (obj_set k v o)).
Proof.
  intros Hs. unfold obj_set. destruct (has_key k o) eqn:Hhas.
  - rewrite keys_replace. assumption.
  - assert (~ In k (keys o)) as Hnin
        by (intros Hin; apply has_key_In in Hin; congruence).
    unfold insert_new. destruct (array_index k) as [n|] eqn:Hidx.
    + apply insert_index_ordered; assumption.
    + unfold keys. rewrite map_app. simpl. apply StronglySorted_snoc; [assumption|].
      apply Forall_forall. intros k' Hin. unfold order_before. rewrite Hidx.
      destruct (array_index k'); reflexivity.
Qed.

Lemma assign_all_ordered (entries : list (string * value)) (o : DynamicObject) :
  StronglySorted (fun a b => order_before a b = true) (keys o) ->
  StronglySorted (fun a b => order_before a b = true) (keys (assign_all entries o)).
Proof.
  unfold assign_all. revert o.
  induction entries as [|[k v] entries IH]; simpl; intros o Hs; [assumption|].
  apply IH. apply obj_set_ordered. assumption.
Qed.

Lemma assign_all_enumerable (entries : list (string * value)) :
  enumerable (assign_all entries []) = true.
Proof.
  unfold enumerable. apply andb_true_iff. split.
  - apply nodup_keys_NoDup. apply assign_all_NoDup. constructor.
  - apply own_property_order_sorted. apply assign_all_ordered. constructor.
Qed.

(** An index key that is larger than all the keys of the object goes last. *)
Lemma insert_index_last (n : N) (k : string) (v : value) (o : DynamicObject) :
  array_index k = Some n ->
  Forall (fun k' => order_before k' k = true) (keys o) ->
  insert_index n k v o = o ++ [(k, v)].
Proof.
  intros Hidx. induction o as [|[k0 v0] o IH]; simpl; intros Hall; [reflexivity|].
  inversion Hall as [|x l Hk0 Hall']; subst.
  unfold order_before in Hk0. rewrite Hidx in Hk0.
  destruct (array_index k0) as [m|]; [|discriminate].
  rewrite Hk0. rewrite IH by assumption. reflexivity.
Qed.

Lemma obj_set_last (k : string) (v : value) (o : DynamicObject) :
  ~ In k (keys o) ->
  Forall (fun k' => order_before k' k = true) (keys o) ->
  obj_set k v o = o ++ [(k, v)].
Proof.
  intros Hnin Hall. unfold obj_set.
  destruct (has_key k o) eqn:Hhas; [apply has_key_In in Hhas; contradiction|].
  unfold insert_new. destruct (array_index k) as [n|] eqn:Hidx; [|reflexivity].
  apply insert_index_last; assumption.
Qed.

(** Assigning the entries of an object in their own order rebuilds it. *)
Lemma assign_all_rebuild (ps acc : DynamicObject) :
  NoDup (keys (acc ++ ps)) ->
  StronglySorted (fun a b => order_before a b = true) (keys (acc ++ ps)) ->
  assign_all ps acc = acc ++ ps.
Proof.
  unfold assign_all. revert acc.
  induction ps as [|[k v] ps IH]; intros acc Hnd Hs; simpl.
  - rewrite app_nil_r. reflexivity.
  - assert (acc ++ (k, v) :: ps = (acc ++ [(k, v)]) ++ ps) as Heq
        by (rewrite <- app_assoc; reflexivity).
    rewrite obj_set_last.
    + rewrite IH; rewrite <- Heq; [reflexivity|assumption|assumption].
    + unfold keys in Hnd. rewrite map_app in Hnd. simpl in Hnd.
      apply NoDup_remove_2 in Hnd. intros Hin. apply Hnd.
      apply in_or_app. left. assumption.
    + unfold keys in Hs. rewrite map_app in Hs. simpl in Hs.
      unfold keys. clear - Hs. induction (map fst acc) as [|x l IHl]; simpl in *.
      * constructor.
      * inversion Hs as [|y l' Hs' Hall]; subst. constructor; [|apply IHl; assumption].
        rewrite Forall_forall in Hall. apply Hall. apply in_or_app. right. left.
        reflexivity.
Qed.

Lemma assign_all_enumerable_id (ps : DynamicObject) :
  enumerable ps = true -> assign_all ps [] = ps.
Proof.
  unfold enumerable. rewrite andb_true_iff, nodup_keys_NoDup, own_property_order_sorted.
  intros [Hnd Hs]. apply (assign_all_rebuild ps []); assumption.
Qed.

Lemma flattened_entries_single_depth (sep : string) (c : okind) (ps : DynamicObject) :
  single_depth ps = true -> flattened_entries sep (VObj c ps) = assign_all ps [].
Proof.
  intros Hflat. rewrite flattened_entries_flat_map. f_equal.
  unfold single_depth in Hflat. rewrite forallb_forall in Hflat.
  induction ps as [|e ps IH]; [reflexivity|]. simpl.
  unfold flat_of_entry at 1.
  pose proof (Hflat e (or_introl eq_refl)) as He. apply negb_true_iff in He.
  rewrite He. simpl. f_equal. apply IH. intros x Hx. apply Hflat. right. assumption.
Qed.

Lemma flattened_entries_is_single_depth (sep : string) (X : value) :
  single_depth (flattened_entries sep X) = true.
Proof.
  unfold single_depth. apply forallb_forall. intros e He.
  apply negb_true_iff. apply (flattened_entries_primitive sep X). assumption.
Qed.

Lemma flattened_entries_enumerable (sep : string) (X : value) :
  enumerable (flattened_entries sep X) = true.
Proof.
  destruct X as [| | | | | |c ps]; try reflexivity.
  rewrite flattened_entries_flat_map. apply assign_all_enumerable.
Qed.

Lemma unflatten_loop_single_parts (sep : string) (F : DynamicObject) (c : okind)
  (acc : DynamicObject) :
  (forall e, In e F -> fst e <> "" /\ split sep (fst e) = [fst e]) ->
  unflatten_loop sep F (VObj c acc) = Ok (VObj c (assign_all F acc)).
Proof.
  revert acc. induction F as [|[k v] F IH]; intros acc Hall; [reflexivity|].
  rewrite unflatten_loop_cons.
  destruct (Hall (k, v) (or_introl eq_refl)) as [Hne Hsplit]. cbn [fst] in Hne, Hsplit.
  rewrite Hsplit, assign_parts_last by assumption. cbn [put bind].
  rewrite IH by (intros e He; apply Hall; right; assumption). reflexivity.
Qed.

Lemma ordinary_keys_single_depth (c : okind) (F : DynamicObject) :
  (forall k, In k (keys F) -> reserved k = false) ->
  single_depth F = true ->
  ordinary_keys (VObj c F) = true.
Proof.
  intros Hkeys Hflat. apply ordinary_keys_obj. intros e He. split.
  - apply Hkeys. apply in_map. assumption.
  - apply ordinary_keys_primitive. unfold single_depth in Hflat.
    rewrite forallb_forall in Hflat. apply negb_true_iff. apply Hflat. assumption.
Qed.

Lemma flatten_value_single_depth (sep : string) (c : okind) (ps : DynamicObject) :
  has_key "hasOwnProperty" ps = false -> single_depth ps = true ->
  flatten_value sep (VObj c ps) = Ok (assign_all ps []).
Proof.
  intros Hfree Hflat. rewrite flatten_value_own by assumption. clear Hfree.
  unfold assign_all, single_depth in *. rewrite forallb_forall in Hflat.
  revert Hflat. generalize (@nil (string * value)) as acc.
  induction ps as [|e ps IH]; intros acc Hflat; [reflexivity|].
  cbn [fold_left bind]. rewrite is_nonnull_object_isObject.
  rewrite (proj1 (negb_true_iff _) (Hflat e (or_introl eq_refl))).
  apply IH. intros x Hx. apply Hflat. right. assumption.
Qed.

(** X1: for a tree none of whose keys is the name of a member of
    [Object.prototype], and a separator that occurs in none of those
    names, flattening twice gives the same object as flattening once,
    with the keys in the same order; on a primitive both fail alike. *)
Theorem flatten_idempotent (X : value) (separator : string) :
  ordinary_keys X = true ->
  ordinary_separator separator = true ->
  (r <- flatten X separator ;; flatten r separator) = flatten X separator.
Proof.
  intros Hord Hsep. destruct (isObject X) eqn:Hobj.
  - rewrite (@flatten_ordinary separator X Hobj Hord Hsep). cbn [bind].
    rewrite flatten_ordinary;
      [|reflexivity
       |apply ordinary_keys_single_depth;
        [apply flattened_entries_ordinary; assumption
        |apply flattened_entries_is_single_depth]
       |assumption].
    do 2 f_equal.
    rewrite flattened_entries_single_depth by apply flattened_entries_is_single_depth.
    apply assign_all_enumerable_id. apply flattened_entries_enumerable.
  - unfold flatten. rewrite Hobj. reflexivity.
Qed.

Lemma flatten_idempotent_witness :
  (r <- flatten (obj [("a", obj [("b", VNum 1); ("c", arr [("0", VNull)])]);
                      ("d", VStr "x")]) "."
   ;; flatten r ".")
  = flatten (obj [("a", obj [("b", VNum 1); ("c", arr [("0", VNull)])]);
                  ("d", VStr "x")]) ".".
Proof.
  apply (@flatten_idempotent
           (obj [("a", obj [("b", VNum 1); ("c", arr [("0", VNull)])]); ("d", VStr "x")])
           "."); reflexivity.
Defined.

(** X2: an object (or array) none of whose values is an object, with
    unique keys listed in own-property order, none of them the name of a
    member of [Object.prototype], is returned by [flatten] as the plain
    object with the same entries in the same order. *)
Theorem flatten_single_depth_identity (c : okind) (ps : DynamicObject)
  (separator : string) :
  enumerable ps = true ->
  single_depth ps = true ->
  ordinary_keys (VObj c ps) = true ->
  flatten (VObj c ps) separator = Ok (obj ps).
Proof.
  intros Henum Hflat Hord. unfold flatten, obj. cbn [isObject].
  rewrite flatten_value_single_depth;
    [|apply has_key_reserved; [reflexivity|apply (ordinary_keys_top _ _ Hord)]
     |assumption].
  cbn [bind]. do 2 f_equal. apply assign_all_enumerable_id. assumption.
Qed.

Lemma flatten_single_depth_identity_witness :
  flatten (obj [("0", VNum 1); ("b.c", VNull); ("a", VStr "x")]) "."
  = Ok (obj [("0", VNum 1); ("b.c", VNull); ("a", VStr "x")]).
Proof.
  apply (@flatten_single_depth_identity KObject
           [("0", VNum 1); ("b.c", VNull); ("a", VStr "x")] "."); reflexivity.
Defined.

(** X3: an object whose keys are non-empty and do not contain the
    separator, unique and in own-property order, none of them the name of
    a member of [Object.prototype], is returned by [unflatten] as the
    plain object with the same entries in the same order, whatever its
    values. *)
Theorem unflatten_single_depth_identity (c : okind) (ps : DynamicObject)
  (separator : string) :
  enumerable ps = true ->
  forallb (fun k => negb (k =? "") && negb (contains separator k)) (keys ps) = true ->
  ordinary_flat separator ps = true ->
  unflatten (VObj c ps) separator = Ok (obj ps).
Proof.
  intros Henum Hkeys _. cbn [unflatten].
  rewrite unflatten_loop_single_parts.
  - rewrite assign_all_enumerable_id by assumption. reflexivity.
  - rewrite forallb_forall in Hkeys. intros [k v] He. cbn [fst].
    assert (In k (keys ps)) as Hin
        by (apply in_map_iff; exists (k, v); split; [reflexivity|assumption]).
    specialize (Hkeys k Hin). apply andb_true_iff in Hkeys. destruct Hkeys as [Hne Hfree].
    apply negb_true_iff in Hne, Hfree. apply String.eqb_neq in Hne.
    split; [assumption|].
    assert (separator <> "") as Hsep
        by (intros ->; rewrite contains_empty_separator in Hfree; discriminate).
    unfold split. destruct (separator =? "") eqn:E;
      [apply String.eqb_eq in E; contradiction|].
    rewrite (@split_go_free separator k Hsep Hfree ""). reflexivity.
Qed.

Lemma unflatten_single_depth_identity_witness :
  unflatten (obj [("0", VNum 1); ("b", obj [("x.y", VNull)]); ("a", VStr "x")]) "."
  = Ok (obj [("0", VNum 1); ("b", obj [("x.y", VNull)]); ("a", VStr "x")]).
Proof.
  apply (@unflatten_single_depth_identity KObject
           [("0", VNum 1); ("b", obj [("x.y", VNull)]); ("a", VStr "x")] ".");
    reflexivity.
Defined.

(** ** unflatten: one key among the others *)

Lemma unflatten_loop_congruence (sep : string) (k1 k2 : string) (v1 v2 : value)
  (pre post : DynamicObject) (nested : value) :
  (forall cur, assign_parts (split sep k1) v1 cur = assign_parts (split sep k2) v2 cur) ->
  unflatten_loop sep (pre ++ (k1, v1) :: post) nested
  = unflatten_loop sep (pre ++ (k2, v2) :: post) nested.
Proof.
  intros Hsame. unfold unflatten_loop. rewrite !fold_left_app. cbn [fold_left fst snd].
  f_equal. destruct (fold_left _ pre (Ok nested)) as [n|e]; cbn [bind]; [|reflexivity].
  apply Hsame.
Qed.

Lemma unflatten_loop_neutral (sep : string) (k : string) (v : value)
  (pre post : DynamicObject) (nested : value) :
  (forall cur, assign_parts (split sep k) v cur = Ok cur) ->
  unflatten_loop sep (pre ++ (k, v) :: post) nested
  = unflatten_loop sep (pre ++ post) nested.
Proof.
  intros Hsame. unfold unflatten_loop. rewrite !fold_left_app. cbn [fold_left fst snd].
  f_equal. destruct (fold_left _ pre (Ok nested)) as [n|e]; cbn [bind]; [|reflexivity].
  apply Hsame.
Qed.

Lemma split_repeat_separator (sep : string) (n : nat) :
  Forall (fun p => p = "") (split sep (repeat_string sep n)).
Proof.
  unfold split. destruct (sep =? "") eqn:E.
  - apply String.eqb_eq in E. subst.
    replace (repeat_string "" n) with "" by (induction n; simpl; [reflexivity|assumption]).
    constructor.
  - apply String.eqb_neq in E. induction n as [|n IH]; simpl.
    + constructor; constructor.
    + rewrite split_go_separator by assumption. constructor; [reflexivity|assumption].
Qed.


Lemma assign_parts_value_unused (parts : list string) (v v' cur : value) :
  last parts "" = "" ->
  assign_parts parts v cur = assign_parts parts v' cur.
Proof.
  revert cur. induction parts as [|p parts IH]; intros cur Hlast; [reflexivity|].
  destruct (p =? "") eqn:E.
  - apply String.eqb_eq in E. subst. rewrite !assign_parts_skip.
    destruct parts as [|q parts]; [reflexivity|]. apply IH. assumption.
  - apply String.eqb_neq in E. destruct parts as [|q parts]; [contradiction|].
    rewrite !assign_parts_intermediate by assumption. cbv zeta.
    destruct (put cur p _) as [n|e]; cbn [bind]; [|reflexivity].
    rewrite IH by assumption. reflexivity.
Qed.

(** X4: last write wins.  For a tree none of whose keys is the name of a
    member of [Object.prototype], and a separator that occurs in none of
    those names, the value [flatten] gives under a key is the value of the
    last leaf of the input, in traversal order, whose path joined with the
    separator is that key; a key that is the joined path of no leaf is
    absent. *)
Theorem flatten_last_write_wins (c : okind) (ps : DynamicObject) (separator : string) :
  ordinary_keys (VObj c ps) = true ->
  ordinary_separator separator = true ->
  exists F,
    flatten (VObj c ps) separator = Ok (obj F)
    /\ forall key,
        lookup key F
        = lookup key (rev (map (join_path separator) (leaves (VObj c ps)))).
Proof.
  intros Hord Hsep. exists (flattened_entries separator (VObj c ps)).
  split; [apply flatten_ordinary; [reflexivity|assumption|assumption]|].
  apply flattened_entries_lookup.
Qed.

Lemma flatten_last_write_wins_witness :
  exists F,
    flatten (obj [("a", obj [("b", VNum 1)]); ("a.b", VNum 2)]) "." = Ok (obj F)
    /\ forall key,
        lookup key F
        = lookup key
            (rev (map (join_path ".")
                    (leaves (obj [("a", obj [("b", VNum 1)]); ("a.b", VNum 2)])))).
Proof.
  apply (@flatten_last_write_wins KObject
           [("a", obj [("b", VNum 1)]); ("a.b", VNum 2)] "."); reflexivity.
Defined.



(** X6: a key that is empty or made of separators only, and is not the
    name of a member of [Object.prototype] (as it is when the separator
    is [hasOwnProperty]), contributes nothing: [unflatten] gives the same
    result as without that entry. *)
Theorem unflatten_ignores_separator_only_keys
  (separator : string) (n : nat) (v : value) (c : okind) (pre post : DynamicObject) :
  reserved (repeat_string separator n) = false ->
  unflatten (VObj c (pre ++ (repeat_string separator n, v) :: post)) separator
  = unflatten (VObj c (pre ++ post)) separator.
Proof.
  intros _. cbn [unflatten]. apply unflatten_loop_neutral. intros cur.
  apply assign_parts_all_empty. apply split_repeat_separator.
Qed.

Lemma unflatten_ignores_separator_only_keys_witness :
  unflatten (obj ([("a", VNum 1)] ++ (repeat_string "." 2, VNum 2) :: [("b.c", VNull)]))
    "."
  = unflatten (obj ([("a", VNum 1)] ++ [("b.c", VNull)])) ".".
Proof.
  apply (@unflatten_ignores_separator_only_keys "." 2 (VNum 2) KObject
           [("a", VNum 1)] [("b.c", VNull)]).
  reflexivity.
Defined.



(** X8: a key whose last part is empty (a key that ends with the
    separator) never stores its value: the result of [unflatten] is the
    same whatever value the key holds. *)
Theorem unflatten_trailing_separator_ignores_value
  (separator key : string) (v v' : value) (c : okind) (pre post : DynamicObject) :
  last (split separator key) "" = "" ->
  unflatten (VObj c (pre ++ (key, v) :: post)) separator
  = unflatten (VObj c (pre ++ (key, v') :: post)) separator.
Proof.
  intros Hlast. cbn [unflatten]. apply unflatten_loop_congruence. intros cur.
  apply assign_parts_value_unused. assumption.
Qed.

Lemma unflatten_trailing_separator_ignores_value_witness :
  unflatten (obj [("x", VNum 0); ("a.b.", VNum 1)]) "."
  = unflatten (obj [("x", VNum 0); ("a.b.", VStr "other")]) ".".
Proof.
  apply (@unflatten_trailing_separator_ignores_value "." "a.b." (VNum 1) (VStr "other")
           KObject [("x", VNum 0)] []).
  reflexivity.
Defined.

(** ** sort: a canonical form *)

Lemma key_before_irrefl (k : string) : key_before k k = false.
Proof.
  unfold key_before. destruct (array_index k); [apply N.ltb_irrefl|apply ltb_irrefl].
Qed.

Lemma key_before_asym (a b : string) :
  key_before a b = true -> key_before b a = true -> False.
Proof.
  intros Hab Hba. pose proof (key_before_trans a b a Hab Hba) as H.
  rewrite key_before_irrefl in H. discriminate.
Qed.

Lemma sorted_head_absent (k : string) (v : value) (t : DynamicObject) :
  StronglySorted (fun a b => key_before a b = true) (keys ((k, v) :: t)) ->
  lookup k t = None.
Proof.
  intros Hs. inversion Hs as [|x l Hs' Hall]; subst.
  apply lookup_None_keys. intros Hin. rewrite Forall_forall in Hall.
  specialize (Hall k Hin). rewrite key_before_irrefl in Hall. discriminate.
Qed.

Lemma lookup_Some_keys (k : string) (v : value) (o : DynamicObject) :
  lookup k o = Some v -> In k (keys o).
Proof.
  intros H. apply lookup_Some_In in H. apply in_map_iff.
  exists (k, v). split; [reflexivity|assumption].
Qed.

(** Two objects in the order of [key_before] that hold the same value
    under every key are the same list of entries. *)
Lemma sorted_lookup_ext (l l' : DynamicObject) :
  StronglySorted (fun a b => key_before a b = true) (keys l) ->
  StronglySorted (fun a b => key_before a b = true) (keys l') ->
  (forall k, lookup k l = lookup k l') ->
  l = l'.
Proof.
  revert l'. induction l as [|[k v] t IH]; intros [|[k' v'] t'] Hs Hs' Hext.
  - reflexivity.
  - specialize (Hext k'). simpl in Hext. rewrite String.eqb_refl in Hext. discriminate.
  - specialize (Hext k). simpl in Hext. rewrite String.eqb_refl in Hext. discriminate.
  - assert (k = k') as <-.
    { pose proof (Hext k) as Hk. pose proof (Hext k') as Hk'.
      cbn [lookup] in Hk, Hk'. rewrite String.eqb_refl in Hk, Hk'.
      destruct (k =? k') eqn:E; [apply String.eqb_eq; assumption|].
      rewrite String.eqb_sym, E in Hk'.
      symmetry in Hk. apply lookup_Some_keys in Hk. apply lookup_Some_keys in Hk'.
      inversion Hs as [|x l Hs1 Hall]; subst. inversion Hs' as [|x l Hs1' Hall']; subst.
      rewrite Forall_forall in Hall, Hall'.
      exfalso. apply (key_before_asym k k'); [apply Hall|apply Hall']; assumption. }
    pose proof (sorted_head_absent Hs) as Hnone.
    pose proof (sorted_head_absent Hs') as Hnone'.
    assert (v = v') as <-.
    { specialize (Hext k). cbn [lookup] in Hext. rewrite String.eqb_refl in Hext.
      congruence. }
    f_equal. inversion Hs; inversion Hs'; subst. apply IH; try assumption.
    intros x. destruct (x =? k) eqn:E.
    + apply String.eqb_eq in E. subst. congruence.
    + specialize (Hext x). cbn [lookup] in Hext. rewrite E in Hext. assumption.
Qed.

Lemma fromPairs_sortBy0_sorted (pairs : list (string * value)) :
  StronglySorted (fun a b => key_before a b = true) (keys (fromPairs (sortBy0 pairs))).
Proof.
  unfold fromPairs. apply assign_all_sorted.
  - apply sortBy0_sorted.
  - constructor.
  - intros k' e [].
Qed.

Lemma lookup_fromPairs_sortBy0 (k : string) (pairs : list (string * value)) :
  NoDup (keys pairs) ->
  lookup k (fromPairs (sortBy0 pairs)) = lookup k pairs.
Proof.
  intros Hnd. unfold fromPairs.
  assert (NoDup (keys (sortBy0 pairs))) as Hnd'
      by (apply (Permutation_NoDup (Permutation_map fst (sortBy0_Permutation pairs)));
          assumption).
  rewrite lookup_assign_all by assumption. cbn [lookup].
  rewrite <- (lookup_Permutation k Hnd (sortBy0_Permutation pairs)).
  destruct (lookup k pairs); reflexivity.
Qed.

Lemma fromPairs_sortBy0_fix (Y : DynamicObject) :
  NoDup (keys Y) ->
  StronglySorted (fun a b => key_before a b = true) (keys Y) ->
  fromPairs (sortBy0 Y) = Y.
Proof.
  intros Hnd Hs. apply sorted_lookup_ext; [apply fromPairs_sortBy0_sorted|assumption|].
  intros k. apply lookup_fromPairs_sortBy0. assumption.
Qed.

Lemma ascending_sorted (l : list string) :
  ascending key_before l = true ->
  StronglySorted (fun a b => key_before a b = true) l.
Proof.
  induction l as [|k l IH]; intros Hasc; [constructor|].
  simpl in Hasc. destruct l as [|k' l]; [constructor; constructor|].
  apply andb_true_iff in Hasc. destruct Hasc as [Hk Hasc].
  specialize (IH Hasc). constructor; [assumption|].
  inversion IH as [|x l' Hs Hall]; subst. constructor; [assumption|].
  apply (Forall_impl (P := fun b => key_before k' b = true)); [|assumption].
  intros b Hb. apply (key_before_trans k k' b); assumption.
Qed.

(** [sort] returns a value that is sorted at every depth, has unique keys
    and no array unchanged. *)
Lemma sort_fixes_sorted (X : value) :
  forall ps, X = VObj KObject ps ->
  well_formed X = true -> no_arrays X = true -> sorted_deep X = true ->
  sort X = ps.
Proof.
  induction X as [| | | | | |c ps0 IH] using value_nested_ind;
    try (intros ps H; discriminate H).
  intros ps [= -> <-] Hwf Hna Hsd.
  apply well_formed_obj in Hwf. destruct Hwf as [Hnd Hwf].
  apply no_arrays_obj in Hna. destruct Hna as [_ Hna].
  apply sorted_deep_obj in Hsd. destruct Hsd as [Hasc Hsd].
  rewrite sort_unfold. cbn [toPairs].
  assert (mapValues sort_nested ps0 = ps0) as ->.
  { transitivity (mapValues (fun v => v) ps0).
    - apply mapValues_ext_in. intros [k v] He. cbn [snd].
      unfold sort_nested. destruct (isObject v) eqn:Hobj; [|reflexivity].
      rewrite Forall_forall in IH. specialize (IH (k, v) He). cbn [snd] in IH.
      specialize (Hwf _ He). specialize (Hna _ He). specialize (Hsd _ He).
      cbn [snd] in Hwf, Hna, Hsd.
      destruct v as [| | | | | |cv pv]; try discriminate.
      pose proof Hna as Hc. apply no_arrays_obj in Hc. destruct Hc as [-> _].
      rewrite (IH pv eq_refl Hwf Hna Hsd). reflexivity.
    - unfold mapValues. clear. induction ps0 as [|[k v] ps0 IH]; simpl; congruence. }
  apply fromPairs_sortBy0_fix; [assumption|]. apply ascending_sorted. assumption.
Qed.




Lemma same_structure_primitive (v v' : value) :
  same_structure v v' -> isObject v = false -> v = v'.
Proof.
  intros H Hprim. inversion H; subst; [reflexivity|discriminate].
Qed.

Lemma same_structure_object (v v' : value) :
  same_structure v v' -> isObject v = isObject v'.
Proof. intros H. inversion H; subst; reflexivity. Qed.

Lemma sort_same_structure_eq (X : value) :
  forall X', same_structure X X' ->
  well_formed X = true -> well_formed X' = true ->
  no_arrays X = true -> no_arrays X' = true ->
  sort X = sort X'.
Proof.
  induction X as [| | | | | |c ps IH] using value_nested_ind;
    try (intros X' H _ _ _ _; inversion H; subst; reflexivity).
  intros X' Hsame Hwf Hwf' Hna Hna'.
  inversion Hsame as [v Hprim|c0 o1 o2 Hkeys Hvals]; subst; [reflexivity|].
  apply well_formed_obj in Hwf, Hwf'. destruct Hwf as [Hnd Hwf], Hwf' as [Hnd' Hwf'].
  apply no_arrays_obj in Hna, Hna'. destruct Hna as [-> Hna], Hna' as [_ Hna'].
  rewrite (sort_unfold KObject ps), (sort_unfold KObject o2).
  apply sorted_lookup_ext; try apply fromPairs_sortBy0_sorted.
  intros k. cbn [toPairs].
  rewrite !lookup_fromPairs_sortBy0 by (rewrite keys_mapValues; assumption).
  rewrite !lookup_mapValues.
  destruct (lookup k ps) as [v|] eqn:Hl, (lookup k o2) as [v'|] eqn:Hl'; cbn [option_map].
  - f_equal. specialize (Hvals k v v' Hl Hl').
    apply lookup_Some_In in Hl, Hl'.
    unfold sort_nested. rewrite <- (same_structure_object Hvals).
    destruct (isObject v) eqn:Hobj.
    + f_equal. rewrite Forall_forall in IH. apply (IH (k, v) Hl v' Hvals).
      * apply (Hwf _ Hl).
      * apply (Hwf' _ Hl').
      * apply (Hna _ Hl).
      * apply (Hna' _ Hl').
    + apply same_structure_primitive; assumption.
  - apply Hkeys in Hl'. congruence.
  - apply Hkeys in Hl. congruence.
  - reflexivity.
Qed.

(** ** clear: what is left *)

Lemma clean_no_empty_nested (v : value) : clean v -> no_empty_nested v = true.
Proof.
  intros Hclean. induction Hclean as [ps Hnd Hclean IH Hne].
  cbn [no_empty_nested].
  assert (forall k v, In (k, v) ps -> isObject v = true ->
                      negb (isEmpty v) && no_empty_nested v = true) as Hall.
  { intros k v Hin Hobj. rewrite (Hne k v Hin Hobj), (IH k v Hin Hobj). reflexivity. }
  clear - Hall. induction ps as [|[k v] ps IHps]; [reflexivity|].
  rewrite IHps by (intros k' v' Hin; apply (Hall k' v'); right; assumption).
  destruct (isObject v) eqn:Hobj; [|reflexivity].
  rewrite (Hall k v (or_introl eq_refl) Hobj). reflexivity.
Qed.

Lemma lookup_clear_default (k : string) (ps : DynamicObject) :
  NoDup (keys ps) ->
  lookup k (clear_default (VObj KObject ps))
  = match lookup k ps with
    | Some v =>
        if isObject v
        then (if isEmpty (clear_nested v) then None else Some (clear_nested v))
        else Some v
    | None => None
    end.
Proof.
  intros Hnd. rewrite clear_default_unfold. cbn [toPairs]. unfold assign.
  rewrite lookup_assign_all by apply pickBy_NoDup.
  unfold omitBy. rewrite lookup_pickBy by assumption.
  rewrite lookup_pickBy by (rewrite keys_mapValues; apply pickBy_NoDup).
  rewrite lookup_mapValues, lookup_pickBy by assumption.
  destruct (lookup k ps) as [v|] eqn:Hl; [|reflexivity].
  destruct (isObject v) eqn:Hobj; [|reflexivity]. cbn [negb option_map].
  destruct (isEmpty (clear_nested v)); reflexivity.
Qed.


(** X10: a Structure without arrays and with unique keys, none of them
    [__proto__], [__wrapped__] or the name of another member of
    [Object.prototype], whose keys are, at every depth, already in the
    order [sort] produces (array indices in ascending numeric order, then
    the other keys in ascending alphabetical order) is returned unchanged
    by [sort]. *)
Theorem sort_fixed_point (ps : DynamicObject) :
  well_formed (obj ps) = true ->
  no_arrays (obj ps) = true ->
  sorted_deep (obj ps) = true ->
  ordinary_keys (obj ps) = true ->
  sort (obj ps) = ps.
Proof.
  intros Hwf Hna Hsd _. apply (@sort_fixes_sorted (obj ps) ps eq_refl); assumption.
Qed.

Lemma sort_fixed_point_witness :
  sort (obj [("2", VNum 0); ("10", VNum 1); ("a", obj [("c", VNum 2); ("d", VNull)]);
             ("b", VStr "x")])
  = [("2", VNum 0); ("10", VNum 1); ("a", obj [("c", VNum 2); ("d", VNull)]);
     ("b", VStr "x")].
Proof.
  apply (@sort_fixed_point
           [("2", VNum 0); ("10", VNum 1); ("a", obj [("c", VNum 2); ("d", VNull)]);
            ("b", VStr "x")]); reflexivity.
Defined.

(** X11: [sort] gives a canonical form: two Structures without arrays that
    hold the same values under the same keys at every depth, in whatever
    order, are sorted into the same object, entry for entry. *)
Theorem sort_canonical (ps ps' : DynamicObject) :
  same_structure (obj ps) (obj ps') ->
  well_formed (obj ps) = true -> well_formed (obj ps') = true ->
  no_arrays (obj ps) = true -> no_arrays (obj ps') = true ->
  sort (obj ps) = sort (obj ps').
Proof.
  intros Hsame Hwf Hwf' Hna Hna'. apply sort_same_structure_eq; assumption.
Qed.

Lemma sort_canonical_witness :
  sort (obj [("b", VNum 1); ("a", obj [("d", VNum 1); ("c", VNum 2)])])
  = sort (obj [("a", obj [("c", VNum 2); ("d", VNum 1)]); ("b", VNum 1)]).
Proof.
  apply (@sort_canonical
           [("b", VNum 1); ("a", obj [("d", VNum 1); ("c", VNum 2)])]
           [("a", obj [("c", VNum 2); ("d", VNum 1)]); ("b", VNum 1)]);
    try reflexivity.
  apply same_object.
  - intros k. simpl.
    destruct (k =? "b"), (k =? "a"); split; intros H; try discriminate H; reflexivity.
  - intros k v1 v2. simpl.
    destruct (k =? "b") eqn:Eb, (k =? "a") eqn:Ea.
    + apply String.eqb_eq in Eb, Ea. congruence.
    + intros [= <-] [= <-]. apply same_primitive. reflexivity.
    + intros [= <-] [= <-]. apply same_object.
      * intros k'. simpl.
        destruct (k' =? "d"), (k' =? "c"); split; intros H; try discriminate H;
          reflexivity.
      * intros k' w1 w2. simpl.
        destruct (k' =? "d") eqn:Ed, (k' =? "c") eqn:Ec.
        -- apply String.eqb_eq in Ed, Ec. congruence.
        -- intros [= <-] [= <-]. apply same_primitive. reflexivity.
        -- intros [= <-] [= <-]. apply same_primitive. reflexivity.
        -- discriminate.
    + discriminate.
Defined.

(** X12: after [clear] no empty nested object is left: in the default
    mode no nested object of the result is empty, at any depth; with
    [skipFirstDepth] the same holds inside every value of the result. *)
Theorem clear_leaves_no_empty_nested (c : okind) (ps : DynamicObject) :
  no_empty_nested (obj (clear (VObj c ps) false)) = true
  /\ forall k v, In (k, v) (clear (VObj c ps) true) -> no_empty_nested v = true.
Proof.
  split.
  - apply clean_no_empty_nested. apply (clear_nested_clean (VObj c ps)).
  - intros k v Hin. apply clean_no_empty_nested.
    apply (@clear_skip_values c ps k v Hin).
Qed.

Lemma clear_leaves_no_empty_nested_witness :
  no_empty_nested (obj [("x", VNum 1)]) = true.
Proof.
  apply (proj2 (@clear_leaves_no_empty_nested KObject
                  [("a", obj [("x", VNum 1); ("y", obj [])]); ("b", VNum 2)])
           "a" (obj [("x", VNum 1)])).
  left. reflexivity.
Defined.

(** X13: the default mode of [clear], key by key, on a Structure with
    unique keys, none of them, at any depth, [__proto__], [constructor],
    [prototype], [__wrapped__] or the name of another member of
    [Object.prototype]: a value that is not an object is kept unchanged;
    an object (or array) is replaced by its cleared form, and the key is
    dropped when that form is empty; no key is added. *)
Theorem clear_default_by_key (ps : DynamicObject) (k : string) :
  nodup_keys (keys ps) = true ->
  ordinary_keys (obj ps) = true ->
  lookup k (clear (obj ps) false)
  = match lookup k ps with
    | Some v =>
        if isObject v
        then (if isEmpty (obj (clear v false)) then None else Some (obj (clear v false)))
        else Some v
    | None => None
    end.
Proof.
  intros Hnd _. apply nodup_keys_NoDup in Hnd. unfold obj. cbn [clear].
  rewrite lookup_clear_default by assumption.
  destruct (lookup k ps) as [v|]; [|reflexivity].
  destruct v; reflexivity.
Qed.

Lemma clear_default_by_key_witness :
  lookup "a" (clear (obj [("a", obj [("x", obj [])]); ("b", VNum 1)]) false) = None
  /\ lookup "b" (clear (obj [("a", obj [("x", obj [])]); ("b", VNum 1)]) false)
     = Some (VNum 1).
Proof.
  split.
  - apply (@clear_default_by_key [("a", obj [("x", obj [])]); ("b", VNum 1)] "a");
      reflexivity.
  - apply (@clear_default_by_key [("a", obj [("x", obj [])]); ("b", VNum 1)] "b");
      reflexivity.
Defined.

(** ** isAssignable: the points and what a verdict means *)

Lemma prefixes_from_app (pre a b : list string) :
  prefixes_from pre (a ++ b) = prefixes_from pre a ++ prefixes_from (pre ++ a) b.
Proof.
  revert pre. induction a as [|s a IH]; intros pre.
  - rewrite app_nil_r. reflexivity.
  - cbn [app prefixes_from]. rewrite IH, <- app_assoc. reflexivity.
Qed.

Lemma pathPoints_app (segments more : list string) :
  exists points, pathPoints (segments ++ more) = pathPoints segments ++ points.
Proof.
  rewrite !pathPoints_prefixes. unfold prefixes.
  rewrite prefixes_from_app, map_app. eexists. reflexivity.
Qed.


Lemma hasPath_empty_object (p : list string) : hasPath (VObj KObject []) p = false.
Proof. destruct p as [|k [|k' p]]; reflexivity. Qed.

Section LodashPathVerdicts.

Variable bracketPath : string -> list string.

Lemma first_collision_app (object : DynamicObject) (a b : list string) :
  first_collision bracketPath object (a ++ b)
  = match first_collision bracketPath object a with
    | Collision point => Collision point
    | Assignable => first_collision bracketPath object b
    end.
Proof.
  induction a as [|point a IH]; [reflexivity|].
  cbn [app first_collision].
  destruct (has bracketPath object point
            && negb (jstype_eqb (typeof (get_ bracketPath object point)) TObject));
    [reflexivity|assumption].
Qed.

Lemma first_collision_Collision (object : DynamicObject) (points : list string)
  (point : string) :
  first_collision bracketPath object points = Collision point ->
  In point points
  /\ has bracketPath object point = true
  /\ typeof (get_ bracketPath object point) <> TObject.
Proof.
  induction points as [|p points IH]; [discriminate|].
  cbn [first_collision].
  destruct (has bracketPath object p
            && negb (jstype_eqb (typeof (get_ bracketPath object p)) TObject)) eqn:E.
  - intros [= <-]. apply andb_true_iff in E. destruct E as [Hhas Hty].
    split; [left; reflexivity|]. split; [assumption|].
    intros Heq. rewrite Heq in Hty. discriminate.
  - intros H. destruct (IH H) as [Hin Hrest]. split; [right; assumption|assumption].
Qed.


Lemma first_collision_empty_object (points : list string) :
  first_collision bracketPath [] points = Assignable.
Proof.
  induction points as [|p points IH]; [reflexivity|].
  cbn [first_collision]. unfold has at 1. rewrite hasPath_empty_object. assumption.
Qed.

End LodashPathVerdicts.

(** ** unflatten: the keys it creates *)






(** X14: a reported collision is one of the cumulative prefixes of the
    path, joined with ['.'] whatever the separator option, and the object
    has, at that point, a value whose [typeof] is not ['object']. *)
Theorem isAssignable_collision_is_dot_joined_prefix
  (bracketPath : string -> list string)
  (object : DynamicObject) (p : path) (separator point : string) :
  isAssignable bracketPath object p separator = Collision point ->
  (exists q, In q (prefixes (pathArray p separator)) /\ point = String.concat "." q)
  /\ has bracketPath object point = true
  /\ typeof (get_ bracketPath object point) <> TObject.
Proof.
  unfold isAssignable. rewrite pathPoints_prefixes. intros Hcol.
  apply first_collision_Collision in Hcol. destruct Hcol as [Hin Hrest].
  split; [|assumption].
  apply in_map_iff in Hin. destruct Hin as [q [<- Hq]]. exists q. split; auto.
Qed.

Lemma isAssignable_collision_is_dot_joined_prefix_witness :
  (exists q, In q (prefixes (pathArray (PathString "a/b/c") "/"))
             /\ "a.b" = String.concat "." q)
  /\ has (fun s => [s]) [("a", obj [("b", VNum 1)])] "a.b" = true
  /\ typeof (get_ (fun s => [s]) [("a", obj [("b", VNum 1)])] "a.b") <> TObject.
Proof.
  apply (@isAssignable_collision_is_dot_joined_prefix (fun s => [s])
           [("a", obj [("b", VNum 1)])] (PathString "a/b/c") "/" "a.b").
  reflexivity.
Defined.

(** X15: on the empty object every path is assignable. *)
Theorem isAssignable_empty_object
  (bracketPath : string -> list string) (p : path) (separator : string) :
  isAssignable bracketPath [] p separator = Assignable.
Proof. apply first_collision_empty_object. Qed.

(** X16: a collision is stable under extension of the path: when a path
    given by its segments collides at a point, every longer path that
    starts with these segments collides at the same point; so a path is
    assignable only if all its initial parts are. *)
Theorem isAssignable_collision_stable_under_extension
  (bracketPath : string -> list string)
  (object : DynamicObject) (segments more : list string) (separator point : string) :
  isAssignable bracketPath object (PathArray segments) separator = Collision point ->
  isAssignable bracketPath object (PathArray (segments ++ more)) separator
  = Collision point.
Proof.
  unfold isAssignable. cbn [pathArray]. intros Hcol.
  destruct (pathPoints_app segments more) as [points ->].
  rewrite first_collision_app, Hcol. reflexivity.
Qed.

Lemma isAssignable_collision_stable_under_extension_witness :
  isAssignable (fun s => [s]) [("a", obj [("b", VNum 1)])]
    (PathArray (["a"; "b"] ++ ["c"; "d"])) "."
  = Collision "a.b".
Proof.
  apply (@isAssignable_collision_stable_under_extension (fun s => [s])
           [("a", obj [("b", VNum 1)])] ["a"; "b"] ["c"; "d"] "." "a.b").
  reflexivity.
Defined.



(** ** split and join *)

Lemma prefix_true_app (a s : string) :
  prefix a s = true -> exists x, s = (a ++ x)%string.
Proof.
  revert s. induction a as [|ch a IH]; intros s H.
  - exists s. reflexivity.
  - destruct s as [|ch' s]; [discriminate|]. simpl in H.
    destruct (ascii_dec ch ch') as [->|]; [|discriminate].
    destruct (IH s H) as [x ->]. exists x. reflexivity.
Qed.

Lemma split_go_nonempty (sep : string) (skip : nat) (cur s : string) :
  split_go sep skip cur s <> [].
Proof.
  revert skip cur. induction s as [|ch s IH]; intros skip cur; cbn [split_go];
    [discriminate|].
  destruct skip; [|apply IH].
  destruct (prefix sep (String ch s)); [discriminate|apply IH].
Qed.

Lemma concat_split_go (sep : string) :
  sep <> "" ->
  forall n s cur, (String.length s <= n)%nat ->
    String.concat sep (split_go sep 0 cur s) = (cur ++ s)%string.
Proof.
  intros Hsep. induction n as [|n IH]; intros s cur Hlen.
  - destruct s; [|simpl in Hlen; lia]. simpl. rewrite string_app_nil_r. reflexivity.
  - destruct s as [|ch s]; [simpl; rewrite string_app_nil_r; reflexivity|].
    destruct (prefix sep (String ch s)) eqn:Hpre.
    + destruct (@prefix_true_app _ _ Hpre) as [x Hx]. rewrite Hx.
      rewrite split_go_separator by assumption.
      rewrite concat_cons by apply split_go_nonempty.
      rewrite IH; [reflexivity|].
      assert (String.length (String ch s) = String.length sep + String.length x)%nat
        as Hl by (rewrite Hx; apply string_length_app).
      destruct sep; [contradiction|]. simpl in Hl, Hlen. lia.
    + cbn [split_go]. rewrite Hpre. rewrite IH by (simpl in Hlen; lia).
      rewrite string_app_assoc. reflexivity.
Qed.

Lemma concat_split (sep s : string) : String.concat sep (split sep s) = s.
Proof.
  unfold split. destruct (sep =? "") eqn:E.
  - induction s as [|ch s IH]; [reflexivity|].
    cbn [list_ascii_of_string map]. destruct s as [|ch' s]; [reflexivity|].
    cbn [list_ascii_of_string map] in *.
    change (String.concat sep (String ch "" :: String ch' "" ::
                                 map (fun a => String a "") (list_ascii_of_string s)))
      with (String ch "" ++ sep
              ++ String.concat sep (String ch' "" ::
                                      map (fun a => String a "") (list_ascii_of_string s)))
             %string.
    rewrite IH. apply String.eqb_eq in E. subst. reflexivity.
  - apply String.eqb_neq in E.
    apply (@concat_split_go sep E (String.length s) s ""). lia.
Qed.

(** ** Paths that do not continue one another *)

Lemma is_prefix_refl (p : list string) : is_prefix p p = true.
Proof. induction p as [|a p IH]; simpl; [|rewrite String.eqb_refl]; auto. Qed.

Lemma is_prefix_cons (k : string) (p q : list string) :
  is_prefix (k :: p) (k :: q) = is_prefix p q.
Proof. simpl. rewrite String.eqb_refl. reflexivity. Qed.

Lemma prefix_free_pairs (p : list string) (l : list (list string)) :
  prefix_free (p :: l) = true ->
  (forall q, In q l -> is_prefix p q = false /\ is_prefix q p = false)
  /\ prefix_free l = true.
Proof.
  simpl. rewrite andb_true_iff, forallb_forall. intros [Hall Hl].
  split; [|assumption]. intros q Hq. specialize (Hall q Hq).
  apply andb_true_iff in Hall. rewrite !negb_true_iff in Hall. assumption.
Qed.

Lemma prefix_free_NoDup (l : list (list string)) : prefix_free l = true -> NoDup l.
Proof.
  induction l as [|p l IH]; intros H; [constructor|].
  apply prefix_free_pairs in H. destruct H as [Hp Hl].
  constructor; [|apply IH; assumption].
  intros Hin. destruct (Hp p Hin) as [H _]. rewrite is_prefix_refl in H. discriminate.
Qed.

(** ** unflatten: what one more key adds to the tree *)

Lemma leafy_obj (c : okind) (ps : DynamicObject) :
  leafy (VObj c ps) = true
  <-> forall e, In e ps -> isObject (snd e) = true ->
                leaves (snd e) <> [] /\ leafy (snd e) = true.
Proof.
  cbn [leafy]. induction ps as [|[k v] ps IH].
  - split; [intros _ e []|reflexivity].
  - rewrite andb_true_iff, IH. split.
    + intros [Hv Hps] e [<-|He] Hobj; [|apply Hps; assumption].
      cbn [snd] in *. rewrite Hobj in Hv. apply andb_true_iff in Hv.
      destruct Hv as [Hl Hv]. split; [|assumption].
      destruct (leaves v); [discriminate|discriminate].
    + intros Hall. split; [|intros e He; apply Hall; right; assumption].
      destruct (isObject v) eqn:Hobj; [|reflexivity].
      destruct (Hall (k, v) (or_introl eq_refl) Hobj) as [Hl Hv].
      cbn [snd] in *. rewrite Hv. destruct (leaves v); [contradiction|reflexivity].
Qed.

Lemma replace_Permutation (k : string) (w w' : value) (N : DynamicObject) :
  lookup k N = Some w ->
  exists N', Permutation N ((k, w) :: N')
             /\ Permutation (replace k w' N) ((k, w') :: N').
Proof.
  induction N as [|[k0 v0] N IH]; [discriminate|].
  cbn [lookup replace]. destruct (k =? k0) eqn:E.
  - apply String.eqb_eq in E. subst. intros [= ->]. exists N. split; reflexivity.
  - intros Hl. destruct (IH Hl) as [N' [H1 H2]]. exists ((k0, v0) :: N'). split.
    + rewrite H1. apply perm_swap.
    + rewrite H2. apply perm_swap.
Qed.

Lemma leaves_insert (c : okind) (k : string) (w : value) (N : DynamicObject) :
  lookup k N = None ->
  Permutation (leaves (VObj c (obj_set k w N)))
    (leaves_of_entry (k, w) ++ leaves (VObj c N)).
Proof.
  intros Hl. rewrite !leaves_obj. unfold obj_set, has_key. rewrite Hl.
  rewrite <- (Permutation_flat_map leaves_of_entry (insert_new_Permutation k w N)).
  reflexivity.
Qed.

Lemma leaves_replace (c : okind) (k : string) (w w' : value) (N : DynamicObject) :
  lookup k N = Some w ->
  exists rest,
    Permutation (leaves (VObj c N)) (leaves_of_entry (k, w) ++ rest)
    /\ Permutation (leaves (VObj c (obj_set k w' N))) (leaves_of_entry (k, w') ++ rest).
Proof.
  intros Hl. destruct (@replace_Permutation k w w' N Hl) as [N' [H1 H2]].
  exists (flat_map leaves_of_entry N'). rewrite !leaves_obj. unfold obj_set, has_key.
  rewrite Hl. split.
  - rewrite (Permutation_flat_map leaves_of_entry H1). reflexivity.
  - rewrite (Permutation_flat_map leaves_of_entry H2). reflexivity.
Qed.

Lemma In_leaves_entry (c : okind) (N : DynamicObject) (k : string) (w : value) :
  NoDup (keys N) -> lookup k N = Some w ->
  forall q w0,
    In (q, w0) (if isObject w then leaves w else [([], w)]) ->
    In (k :: q, w0) (leaves (VObj c N)).
Proof.
  intros Hnd Hl q w0 Hin. apply In_under. rewrite under_leaves by assumption.
  rewrite Hl. assumption.
Qed.

Lemma no_arrays_primitive (v : value) : isObject v = false -> no_arrays v = true.
Proof. destruct v; try reflexivity. discriminate. Qed.

Lemma no_arrays_obj_set (c : okind) (k : string) (w : value) (N : DynamicObject) :
  no_arrays (VObj c N) = true -> no_arrays w = true ->
  no_arrays (VObj c (obj_set k w N)) = true.
Proof.
  intros HN Hw. apply no_arrays_obj in HN. destruct HN as [-> HN].
  apply no_arrays_obj. split; [reflexivity|]. intros e He.
  apply In_obj_set in He. destruct He as [->|He]; [assumption|apply HN; assumption].
Qed.

Lemma leafy_obj_set (c : okind) (k : string) (w : value) (N : DynamicObject) :
  leafy (VObj c N) = true ->
  (isObject w = true -> leaves w <> [] /\ leafy w = true) ->
  leafy (VObj c (obj_set k w N)) = true.
Proof.
  intros HN Hw. apply leafy_obj. intros e He Hobj.
  apply In_obj_set in He. destruct He as [->|He]; [apply Hw; assumption|].
  rewrite leafy_obj in HN. apply HN; assumption.
Qed.

(** One more key whose path neither continues nor is continued by the
    path of a leaf: the loop stores the value at that path and touches no
    other leaf. *)
Lemma assign_parts_adds_leaf (p : list string) (v : value) :
  forall c N,
    proper_path p = true ->
    isObject v = false ->
    well_formed (VObj c N) = true ->
    leafy (VObj c N) = true ->
    no_arrays (VObj c N) = true ->
    (forall q w, In (q, w) (leaves (VObj c N)) ->
                 is_prefix p q = false /\ is_prefix q p = false) ->
    exists Y,
      assign_parts p v (VObj c N) = Ok (VObj c Y)
      /\ well_formed (VObj c Y) = true
      /\ leafy (VObj c Y) = true
      /\ no_arrays (VObj c Y) = true
      /\ Permutation (leaves (VObj c Y)) ((p, v) :: leaves (VObj c N)).
Proof.
  induction p as [|k p IH]; intros c N Hproper Hprim Hwf Hleafy Hplain Hfree;
    [discriminate|].
  cbn [proper_path forallb] in Hproper. apply andb_true_iff in Hproper.
  destruct Hproper as [Hk Hp]. unfold nonempty in Hk. apply negb_true_iff in Hk.
  apply String.eqb_neq in Hk.
  pose proof Hwf as Hwf0. apply well_formed_obj in Hwf0. destruct Hwf0 as [Hnd Hchildren].
  assert (forall w, lookup k N = Some w -> isObject w = true) as Hnode.
  { intros w Hl. destruct (isObject w) eqn:Hobj; [reflexivity|].
    pose proof (@In_leaves_entry c N k w Hnd Hl [] w) as Hin. rewrite Hobj in Hin.
    specialize (Hin (or_introl eq_refl)). destruct (Hfree _ _ Hin) as [_ H].
    destruct p; simpl in H; rewrite String.eqb_refl in H; discriminate. }
  destruct p as [|k' p].
  - rewrite assign_parts_last by assumption. cbn [put].
    assert (lookup k N = None) as Hl.
    { destruct (lookup k N) as [w|] eqn:Hl; [|reflexivity].
      pose proof (Hnode w eq_refl) as Hobj.
      rewrite leafy_obj in Hleafy.
      destruct (Hleafy (k, w) (@lookup_Some_In _ _ _ Hl) Hobj) as [Hne _]. cbn [snd] in Hne.
      destruct (leaves w) as [|[q w0] lw] eqn:Hlw; [contradiction|].
      pose proof (@In_leaves_entry c N k w Hnd Hl q w0) as Hin. rewrite Hobj, Hlw in Hin.
      specialize (Hin (or_introl eq_refl)). destruct (Hfree _ _ Hin) as [H _].
      simpl in H. rewrite String.eqb_refl in H. discriminate. }
    exists (obj_set k v N). split; [reflexivity|]. split; [|split; [|split]].
    + apply well_formed_obj_set; [assumption|apply well_formed_primitive; assumption].
    + apply leafy_obj_set; [assumption|]. intros H. congruence.
    + apply no_arrays_obj_set; [assumption|apply no_arrays_primitive; assumption].
    + rewrite (@leaves_insert c k v N Hl). unfold leaves_of_entry. cbn [fst snd].
      rewrite Hprim. reflexivity.
  - assert (k' <> "") as Hk'.
    { cbn [forallb] in Hp. apply andb_true_iff in Hp. destruct Hp as [Hk' _].
      unfold nonempty in Hk'. apply negb_true_iff in Hk'. apply String.eqb_neq. assumption. }
    rewrite assign_parts_descend by assumption.
    assert (truthy_primitive_at k N = false) as ->.
    { unfold truthy_primitive_at. destruct (lookup k N) as [w|] eqn:Hl; [|reflexivity].
      rewrite (Hnode w eq_refl). apply andb_false_r. }
    assert (exists cn m, node k N = VObj cn m
                         /\ well_formed (VObj cn m) = true
                         /\ leafy (VObj cn m) = true
                         /\ no_arrays (VObj cn m) = true
                         /\ (forall q w, In (q, w) (leaves (VObj cn m)) ->
                                         In (k :: q, w) (leaves (VObj c N)))
                         /\ (lookup k N = None /\ m = [] /\ cn = KObject
                             \/ lookup k N = Some (VObj cn m)))
      as [cn [m [Hnodeeq [Hwfm [Hleafym [Hplainm [Hsub Hcase]]]]]]].
    { unfold node. destruct (lookup k N) as [w|] eqn:Hl.
      - pose proof (Hnode w eq_refl) as Hobj.
        destruct w as [| | | | | |cn m]; try discriminate.
        exists cn, m. split; [reflexivity|].
        pose proof (@lookup_Some_In _ _ _ Hl) as Hin.
        split; [apply (Hchildren _ Hin)|]. split; [|split].
        + rewrite leafy_obj in Hleafy. apply (Hleafy _ Hin eq_refl).
        + apply no_arrays_obj in Hplain. destruct Hplain as [_ Hplain].
          apply (Hplain _ Hin).
        + split; [|right; reflexivity]. intros q w Hq.
          apply (@In_leaves_entry c N k (VObj cn m) Hnd Hl q w Hq).
      - exists KObject, []. repeat split; try reflexivity.
        + intros q w [].
        + left. repeat split. }
    rewrite Hnodeeq.
    destruct (IH cn m) as [Y [Hrun [HwfY [HleafyY [HplainY HpermY]]]]]; try assumption.
    { intros q w Hq. specialize (Hfree _ _ (Hsub q w Hq)).
      rewrite !is_prefix_cons in Hfree. assumption. }
    rewrite Hrun. cbn [bind]. exists (obj_set k (VObj cn Y) N).
    split; [reflexivity|].
    assert (leaves (VObj cn Y) <> []) as HneY.
    { intros Hnil. rewrite Hnil in HpermY.
      apply Permutation_nil in HpermY. discriminate. }
    split; [apply well_formed_obj_set; assumption|].
    split; [apply leafy_obj_set; [assumption|intros _; split; assumption]|].
    split; [apply no_arrays_obj_set; assumption|].
    assert (Permutation (leaves_of_entry (k, VObj cn Y))
              ((k :: k' :: p, v) :: leaves_of_entry (k, VObj cn m))) as Hentry.
    { unfold leaves_of_entry. cbn [fst snd isObject].
      rewrite (Permutation_map (fun pv => (k :: fst pv, snd pv)) HpermY). reflexivity. }
    destruct Hcase as [[Hl [-> ->]]|Hl].
    + rewrite (@leaves_insert c k (VObj KObject Y) N Hl), Hentry. reflexivity.
    + destruct (@leaves_replace c k (VObj cn m) (VObj cn Y) N Hl) as [rest [H1 H2]].
      rewrite H2, H1, Hentry. reflexivity.
Qed.

Lemma build_prefix_free (L : list (list string * value)) :
  forall c N,
    prefix_free (map fst L) = true ->
    (forall pv, In pv L -> proper_path (fst pv) = true /\ isObject (snd pv) = false) ->
    well_formed (VObj c N) = true ->
    leafy (VObj c N) = true ->
    no_arrays (VObj c N) = true ->
    (forall pv q w, In pv L -> In (q, w) (leaves (VObj c N)) ->
                    is_prefix (fst pv) q = false /\ is_prefix q (fst pv) = false) ->
    exists Y,
      build L (VObj c N) = Ok (VObj c Y)
      /\ well_formed (VObj c Y) = true
      /\ leafy (VObj c Y) = true
      /\ no_arrays (VObj c Y) = true
      /\ Permutation (leaves (VObj c Y)) (L ++ leaves (VObj c N)).
Proof.
  induction L as [|[p v] L IH]; intros c N Hfree Hall Hwf Hleafy Hplain Hnew.
  - exists N. repeat split; try assumption. reflexivity.
  - cbn [map fst] in Hfree. apply prefix_free_pairs in Hfree.
    destruct Hfree as [Hp Hfree].
    destruct (Hall (p, v) (or_introl eq_refl)) as [Hproper Hprim]. cbn [fst snd] in *.
    destruct (@assign_parts_adds_leaf p v c N Hproper Hprim Hwf Hleafy Hplain)
      as [Y1 [Hrun [Hwf1 [Hleafy1 [Hplain1 Hperm1]]]]].
    { intros q w Hq. apply (Hnew (p, v) q w (or_introl eq_refl) Hq). }
    rewrite build_cons, Hrun. cbn [bind].
    destruct (IH c Y1 Hfree) as [Y [HY [HwfY [HleafyY [HplainY HpermY]]]]];
      try assumption.
    + intros pv Hpv. apply Hall. right. assumption.
    + intros pv q w Hpv Hq. apply (Permutation_in _ Hperm1) in Hq.
      destruct Hq as [[= <- <-]|Hq].
      * destruct (Hp (fst pv) (in_map fst _ _ Hpv)) as [H1 H2]. split; assumption.
      * apply (Hnew pv q w); [right|]; assumption.
    + exists Y. repeat split; try assumption. rewrite HpermY, Hperm1.
      apply Permutation_sym. apply Permutation_middle.
Qed.

Lemma leafy_ordinary (X : value) :
  leafy X = true ->
  (forall p v, In (p, v) (leaves X) -> forall s, In s p -> reserved s = false) ->
  ordinary_keys X = true.
Proof.
  induction X as [| | | | | |c ps IH] using value_nested_ind;
    try (intros _ _; reflexivity).
  intros Hleafy Hleaves. rewrite leafy_obj in Hleafy.
  apply ordinary_keys_obj. intros [k child] He. cbn [fst snd].
  assert (forall q w,
             In (q, w) (if isObject child then leaves child else [([], child)]) ->
             In (k :: q, w) (leaves (VObj c ps))) as Hsub.
  { intros q w Hq. rewrite leaves_obj. apply in_flat_map. exists (k, child).
    split; [assumption|]. unfold leaves_of_entry. cbn [fst snd].
    destruct (isObject child).
    - apply in_map_iff. exists (q, w). split; [reflexivity|assumption].
    - destruct Hq as [[= <- <-]|[]]. left. reflexivity. }
  destruct (isObject child) eqn:Hobj.
  - destruct (Hleafy (k, child) He Hobj) as [Hne Hchild]. cbn [snd] in Hne, Hchild.
    split.
    + destruct (leaves child) as [|[q w] l] eqn:Hl; [contradiction|].
      apply (Hleaves (k :: q) w); [|left; reflexivity].
      apply Hsub. left. reflexivity.
    + rewrite Forall_forall in IH. apply (IH (k, child) He Hchild).
      intros q w Hq s Hs. apply (Hleaves (k :: q) w); [|right; assumption].
      apply Hsub. assumption.
  - split; [|apply ordinary_keys_primitive; assumption].
    apply (Hleaves [k] child); [|left; reflexivity].
    apply Hsub. left. reflexivity.
Qed.

(** X18: the round trip from a flat object.  For a flat object none of
    whose values is an object, whose keys have no empty part (no leading,
    trailing or doubled separator), none of whose keys continues another
    one after a separator, and no key or part of a key of which is the
    name of a member of [Object.prototype], with a separator that occurs
    in none of those names, [unflatten] succeeds and [flatten] of its
    result holds exactly the entries of the flat object: the same keys
    with the same values. *)
Theorem flatten_unflatten_roundtrip (c : okind) (F : DynamicObject) (separator : string) :
  flat_domain separator F = true ->
  ordinary_flat separator F = true ->
  ordinary_separator separator = true ->
  exists Y F',
    unflatten (VObj c F) separator = Ok (obj Y)
    /\ flatten (obj Y) separator = Ok (obj F')
    /\ forall key, lookup key F' = lookup key F.
Proof.
  unfold flat_domain. rewrite !andb_true_iff. intros [[Hflat Hproper] Hfree] Hord Hsep.
  unfold single_depth in Hflat. rewrite forallb_forall in Hflat, Hproper.
  unfold ordinary_flat in Hord. rewrite forallb_forall in Hord.
  assert (map fst (map (split_key separator) F) = map (split separator) (keys F)) as Hpaths.
  { unfold keys. rewrite !map_map. reflexivity. }
  destruct (@build_prefix_free (map (split_key separator) F) KObject [])
    as [Y [HY [_ [Hleafy [_ Hperm]]]]].
  - rewrite Hpaths. assumption.
  - intros pv Hpv. apply in_map_iff in Hpv. destruct Hpv as [[k v] [<- He]].
    unfold split_key. cbn [fst snd]. split.
    + apply Hproper. apply in_map_iff. exists (k, v). split; [reflexivity|assumption].
    + apply negb_true_iff. apply (Hflat (k, v) He).
  - reflexivity.
  - reflexivity.
  - reflexivity.
  - intros pv q w _ [].
  - exists Y, (flattened_entries separator (VObj KObject Y)). split; [|split].
    + cbn [unflatten]. rewrite unflatten_loop_build. assumption.
    + apply flatten_ordinary; [reflexivity| |assumption].
      apply leafy_ordinary; [assumption|]. intros p v Hp s Hs.
      apply (Permutation_in _ Hperm) in Hp. cbn [leaves] in Hp.
      rewrite app_nil_r in Hp. apply in_map_iff in Hp.
      destruct Hp as [[k w] [[= <- <-] He]].
      assert (In k (keys F)) as Hk
          by (apply in_map_iff; exists (k, w); split; [reflexivity|assumption]).
      specialize (Hord k Hk). apply andb_true_iff in Hord. destruct Hord as [_ Hparts].
      rewrite forallb_forall in Hparts. apply negb_true_iff. apply Hparts. assumption.
    + intros key. rewrite flattened_entries_lookup. symmetry.
      apply lookup_Permutation.
      * apply (NoDup_map_inv (split separator)).
        apply prefix_free_NoDup. assumption.
      * rewrite <- Permutation_rev, Hperm. cbn [leaves]. rewrite app_nil_r, map_map.
        apply Permutation_refl'. symmetry.
        transitivity (map (fun e : string * value => e) F); [|apply map_id].
        apply map_ext. intros [k v]. unfold join_path, split_key. cbn [fst snd].
        rewrite concat_split. reflexivity.
Qed.

Lemma flatten_unflatten_roundtrip_witness :
  exists Y F',
    unflatten (obj [("a.b", VNum 1); ("c", VStr "x"); ("a.d.e", VNull)]) "." = Ok (obj Y)
    /\ flatten (obj Y) "." = Ok (obj F')
    /\ forall key,
        lookup key F'
        = lookup key [("a.b", VNum 1); ("c", VStr "x"); ("a.d.e", VNull)].
Proof.
  apply (@flatten_unflatten_roundtrip KObject
           [("a.b", VNum 1); ("c", VStr "x"); ("a.d.e", VNull)] ".");
    reflexivity.
Defined.

(** ** flatten after a reordering *)

Lemma Permutation_flat_map_pointwise (A B : Type) (f g : A -> list B) (l : list A) :
  (forall e, In e l -> Permutation (f e) (g e)) ->
  Permutation (flat_map f l) (flat_map g l).
Proof.
  induction l as [|e l IH]; intros H; [constructor|].
  cbn [flat_map]. apply Permutation_app.
  - apply H. left. reflexivity.
  - apply IH. intros e' He'. apply H. right. assumption.
Qed.

Lemma flat_map_filter_nil (A B : Type) (f : A -> list B) (p : A -> bool) (l : list A) :
  (forall e, In e l -> p e = false -> f e = []) ->
  flat_map f (filter p l) = flat_map f l.
Proof.
  induction l as [|e l IH]; intros H; [reflexivity|].
  cbn [filter flat_map].
  rewrite <- IH by (intros e' He'; apply H; right; assumption).
  destruct (p e) eqn:E; [reflexivity|].
  rewrite (H e (or_introl eq_refl) E). reflexivity.
Qed.

Lemma filter_split_Permutation (A : Type) (p : A -> bool) (l : list A) :
  Permutation (filter p l ++ filter (fun e => negb (p e)) l) l.
Proof.
  induction l as [|e l IH]; [constructor|].
  cbn [filter]. destruct (p e); cbn [negb app].
  - constructor. assumption.
  - apply Permutation_sym. apply Permutation_cons_app. apply Permutation_sym. assumption.
Qed.

Lemma pickBy_Permutation (p : value -> bool) (o : DynamicObject) :
  NoDup (keys o) ->
  Permutation (filter (fun e => p (snd e)) o) (pickBy p o).
Proof.
  intros Hnd. unfold pickBy.
  apply (@assign_all_Permutation (filter (fun e => p (snd e)) o) []).
  cbn [keys map app]. apply keys_filter_NoDup. assumption.
Qed.

Lemma flattened_entries_same_leaves (sep : string) (X Y : value) :
  Permutation (leaves Y) (leaves X) ->
  NoDup (flat_keys sep X) ->
  forall key, lookup key (flattened_entries sep Y) = lookup key (flattened_entries sep X).
Proof.
  intros Hperm Hnd key. rewrite !flattened_entries_lookup. symmetry.
  apply lookup_Permutation.
  - unfold keys. rewrite map_rev.
    apply (Permutation_NoDup (Permutation_rev _)).
    rewrite map_map. exact Hnd.
  - rewrite <- !Permutation_rev. apply Permutation_map. apply Permutation_sym.
    assumption.
Qed.

Lemma leaves_of_entry_Permutation (k : string) (v v' : value) :
  isObject v = true -> isObject v' = true ->
  Permutation (leaves v') (leaves v) ->
  Permutation (leaves_of_entry (k, v')) (leaves_of_entry (k, v)).
Proof.
  intros Hobj Hobj' Hperm. unfold leaves_of_entry. cbn [fst snd].
  rewrite Hobj, Hobj'. apply Permutation_map. assumption.
Qed.

Lemma sort_leaves (X : value) :
  well_formed X = true -> no_arrays X = true ->
  Permutation (leaves (sort_nested X)) (leaves X).
Proof.
  induction X as [| | | | | |c ps IH] using value_nested_ind; try reflexivity.
  intros Hwf Hna. apply well_formed_obj in Hwf. destruct Hwf as [Hnd Hwf].
  apply no_arrays_obj in Hna. destruct Hna as [-> Hna].
  unfold sort_nested. cbn [isObject]. rewrite sort_unfold. cbn [toPairs].
  rewrite !leaves_obj.
  assert (Permutation (fromPairs (sortBy0 (mapValues sort_nested ps)))
            (mapValues sort_nested ps)) as ->.
  { unfold fromPairs. rewrite <- assign_all_Permutation.
    - cbn [app]. apply Permutation_sym. apply sortBy0_Permutation.
    - cbn [keys map app].
      apply (Permutation_NoDup
               (Permutation_map fst (sortBy0_Permutation (mapValues sort_nested ps)))).
      fold (keys (mapValues sort_nested ps)). rewrite keys_mapValues. assumption. }
  unfold mapValues. rewrite flat_map_concat_map, map_map, <- flat_map_concat_map.
  apply Permutation_flat_map_pointwise. intros [k v] He. cbn [fst snd].
  rewrite Forall_forall in IH. specialize (IH (k, v) He (Hwf _ He) (Hna _ He)).
  cbn [snd] in IH. destruct (isObject v) eqn:Hobj.
  - apply leaves_of_entry_Permutation; try assumption.
    unfold sort_nested. rewrite Hobj. reflexivity.
  - unfold sort_nested. rewrite Hobj. reflexivity.
Qed.

Lemma clear_leaves (X : value) :
  isObject X = true -> well_formed X = true -> no_arrays X = true ->
  Permutation (leaves (clear_nested X)) (leaves X).
Proof.
  induction X as [| | | | | |c ps IH] using value_nested_ind; try discriminate.
  intros _ Hwf Hna. apply well_formed_obj in Hwf. destruct Hwf as [Hnd Hwf].
  apply no_arrays_obj in Hna. destruct Hna as [-> Hna].
  unfold clear_nested. rewrite clear_default_unfold. cbn [toPairs].
  rewrite !leaves_obj. unfold assign, omitBy.
  set (objects := mapValues clear_nested (pickBy isObject ps)).
  assert (NoDup (keys objects)) as Hndo
      by (unfold objects; rewrite keys_mapValues; apply pickBy_NoDup).
  rewrite <- assign_all_Permutation.
  - rewrite flat_map_app.
    rewrite <- (Permutation_flat_map leaves_of_entry
                  (@pickBy_Permutation (fun v => negb (isEmpty v)) objects Hndo)).
    rewrite <- (Permutation_flat_map leaves_of_entry
                  (@pickBy_Permutation (fun v => negb (isObject v)) ps Hnd)).
    rewrite flat_map_filter_nil.
    + unfold objects.
      rewrite <- (Permutation_flat_map leaves_of_entry
                    (Permutation_map (fun e => (fst e, clear_nested (snd e)))
                       (@pickBy_Permutation isObject ps Hnd))).
      etransitivity;
        [|apply (Permutation_flat_map leaves_of_entry
                   (filter_split_Permutation (fun e => isObject (snd e)) ps))].
      rewrite (flat_map_app leaves_of_entry (filter (fun e => isObject (snd e)) ps)).
      apply Permutation_app; [|reflexivity].
      rewrite flat_map_concat_map, map_map, <- flat_map_concat_map.
      apply Permutation_flat_map_pointwise. intros [k v] He. cbn [fst snd].
      apply filter_In in He. destruct He as [He Hobj]. cbn [snd] in Hobj.
      rewrite Forall_forall in IH.
      apply leaves_of_entry_Permutation; [assumption|reflexivity|].
      apply (IH (k, v) He Hobj (Hwf _ He) (Hna _ He)).
    + intros [k v] He Hempty. apply negb_false_iff in Hempty. cbn [snd] in Hempty.
      unfold objects, mapValues in He. apply in_map_iff in He.
      destruct He as [[k0 v0] [[= <- <-] _]].
      unfold leaves_of_entry. cbn [fst snd]. unfold clear_nested in *.
      cbn [isObject isEmpty] in *. destruct (clear_default v0); [reflexivity|discriminate].
  - apply NoDup_app_disjoint.
    + apply pickBy_NoDup.
    + apply pickBy_NoDup.
    + intros k Hk1 Hk2. unfold keys in Hk1, Hk2.
      apply in_map_iff in Hk1, Hk2.
      destruct Hk1 as [[k1 v1] [<- H1]], Hk2 as [[k2 v2] [Heq H2]]. cbn [fst] in Heq.
      subst k2. apply In_pickBy in H1, H2. destruct H1 as [H1 _], H2 as [H2 Hprim].
      unfold objects, mapValues in H1. apply in_map_iff in H1.
      destruct H1 as [[k0 v0] [[= <- <-] H1]]. apply In_pickBy in H1.
      destruct H1 as [H1 Hobj]. cbn [snd] in Hobj, Hprim.
      pose proof (@In_lookup_NoDup _ _ _ Hnd H1) as L1.
      pose proof (@In_lookup_NoDup _ _ _ Hnd H2) as L2.
      rewrite L1 in L2. injection L2 as <-. rewrite Hobj in Hprim. discriminate.
Qed.

Lemma In_sort_object (ps : DynamicObject) (e : string * value) :
  In e (sort (VObj KObject ps)) ->
  exists v0, In (fst e, v0) ps /\ snd e = sort_nested v0.
Proof.
  rewrite sort_unfold. unfold fromPairs. intros Hin.
  apply In_assign_all in Hin. destruct Hin as [Hin|[]].
  apply (Permutation_in _ (Permutation_sym (sortBy0_Permutation _))) in Hin.
  unfold mapValues in Hin. apply in_map_iff in Hin.
  destruct Hin as [[k0 v0] [<- Hin]]. cbn [fst snd toPairs] in *.
  exists v0. split; [assumption|reflexivity].
Qed.

Lemma sort_ordinary (X : value) :
  no_arrays X = true -> ordinary_keys X = true ->
  ordinary_keys (VObj KObject (sort X)) = true.
Proof.
  induction X as [| | | | | |c ps IH] using value_nested_ind;
    try (intros _ _; reflexivity).
  intros Hna Hord. apply no_arrays_obj in Hna. destruct Hna as [-> Hna].
  rewrite ordinary_keys_obj in Hord. apply ordinary_keys_obj. intros e He.
  apply In_sort_object in He. destruct He as [v0 [Hin Hv]].
  destruct (Hord _ Hin) as [Hk Hv0]. cbn [fst snd] in Hk, Hv0.
  split; [assumption|]. rewrite Hv. unfold sort_nested.
  destruct (isObject v0) eqn:Hobj; [|assumption].
  rewrite Forall_forall in IH. apply (IH (fst e, v0) Hin); [|assumption].
  apply (Hna _ Hin).
Qed.

Lemma In_clear_default_object (ps : DynamicObject) (e : string * value) :
  In e (clear_default (VObj KObject ps)) ->
  exists v0, In (fst e, v0) ps /\ (snd e = v0 \/ snd e = clear_nested v0).
Proof.
  rewrite clear_default_unfold. unfold assign. cbn [toPairs]. intros Hin.
  apply In_assign_all in Hin. destruct Hin as [Hin|Hin].
  - apply In_pickBy in Hin. destruct Hin as [Hin _].
    exists (snd e). split; [destruct e; assumption|left; reflexivity].
  - apply In_pickBy in Hin. destruct Hin as [Hin _].
    unfold mapValues in Hin. apply in_map_iff in Hin.
    destruct Hin as [[k0 v0] [<- Hin]]. apply In_pickBy in Hin.
    destruct Hin as [Hin _]. exists v0. split; [assumption|right; reflexivity].
Qed.

Lemma clear_ordinary (X : value) :
  no_arrays X = true -> ordinary_keys X = true ->
  ordinary_keys (VObj KObject (clear_default X)) = true.
Proof.
  induction X as [| | | | | |c ps IH] using value_nested_ind;
    try (intros _ _; reflexivity).
  intros Hna Hord. apply no_arrays_obj in Hna. destruct Hna as [-> Hna].
  rewrite ordinary_keys_obj in Hord. apply ordinary_keys_obj. intros e He.
  apply In_clear_default_object in He. destruct He as [v0 [Hin Hv]].
  destruct (Hord _ Hin) as [Hk Hv0]. cbn [fst snd] in Hk, Hv0.
  split; [assumption|]. destruct Hv as [->| ->]; [assumption|].
  unfold clear_nested. rewrite Forall_forall in IH.
  apply (IH (fst e, v0) Hin); [|assumption]. apply (Hna _ Hin).
Qed.

(** X19: sorting does not change what [flatten] yields.  For a Structure
    without arrays, with unique keys, none of them the name of a member
    of [Object.prototype], no two leaves of which get the same flat key,
    and a separator that occurs in none of those names, [flatten] of the
    sorted Structure holds the same values under the same keys as
    [flatten] of the Structure. *)
Theorem flatten_after_sort (ps : DynamicObject) (separator : string) :
  well_formed (obj ps) = true ->
  no_arrays (obj ps) = true ->
  nodup_keys (flat_keys separator (obj ps)) = true ->
  ordinary_keys (obj ps) = true ->
  ordinary_separator separator = true ->
  exists F F',
    flatten (obj ps) separator = Ok (obj F)
    /\ flatten (obj (sort (obj ps))) separator = Ok (obj F')
    /\ forall key, lookup key F' = lookup key F.
Proof.
  intros Hwf Hna Hnd Hord Hsep. apply nodup_keys_NoDup in Hnd.
  exists (flattened_entries separator (obj ps)),
    (flattened_entries separator (obj (sort (obj ps)))).
  split; [apply flatten_ordinary; [reflexivity|assumption|assumption]|].
  split; [apply flatten_ordinary;
          [reflexivity|apply sort_ordinary; assumption|assumption]|].
  apply flattened_entries_same_leaves; [|assumption].
  apply (@sort_leaves (obj ps) Hwf Hna).
Qed.

Lemma flatten_after_sort_witness :
  exists F F',
    flatten (obj [("b", VNum 1); ("a", obj [("d", VNum 1); ("c", VNum 2)])]) "."
    = Ok (obj F)
    /\ flatten
         (obj (sort (obj [("b", VNum 1); ("a", obj [("d", VNum 1); ("c", VNum 2)])])))
         "."
       = Ok (obj F')
    /\ forall key, lookup key F' = lookup key F.
Proof.
  apply (@flatten_after_sort
           [("b", VNum 1); ("a", obj [("d", VNum 1); ("c", VNum 2)])] ".");
    reflexivity.
Defined.

(** X20: clearing does not change what [flatten] yields.  For a Structure
    without arrays, with unique keys, none of them the name of a member
    of [Object.prototype], no two leaves of which get the same flat key,
    and a separator that occurs in none of those names, [flatten] of the
    cleared Structure (default mode) holds the same values under the same
    keys as [flatten] of the Structure. *)
Theorem flatten_after_clear (ps : DynamicObject) (separator : string) :
  well_formed (obj ps) = true ->
  no_arrays (obj ps) = true ->
  nodup_keys (flat_keys separator (obj ps)) = true ->
  ordinary_keys (obj ps) = true ->
  ordinary_separator separator = true ->
  exists F F',
    flatten (obj ps) separator = Ok (obj F)
    /\ flatten (obj (clear (obj ps) false)) separator = Ok (obj F')
    /\ forall key, lookup key F' = lookup key F.
Proof.
  intros Hwf Hna Hnd Hord Hsep. apply nodup_keys_NoDup in Hnd.
  exists (flattened_entries separator (obj ps)),
    (flattened_entries separator (obj (clear (obj ps) false))).
  split; [apply flatten_ordinary; [reflexivity|assumption|assumption]|].
  split; [apply flatten_ordinary;
          [reflexivity|apply (clear_ordinary (obj ps)); assumption|assumption]|].
  apply flattened_entries_same_leaves; [|assumption].
  apply (@clear_leaves (obj ps) eq_refl Hwf Hna).
Qed.

Lemma flatten_after_clear_witness :
  exists F F',
    flatten (obj [("b", VNum 1); ("e", obj [("x", obj [])]); ("a", obj [("d", VNum 1)])])
      "."
    = Ok (obj F)
    /\ flatten
         (obj (clear
                 (obj [("b", VNum 1); ("e", obj [("x", obj [])]);
                       ("a", obj [("d", VNum 1)])]) false))
         "."
       = Ok (obj F')
    /\ forall key, lookup key F' = lookup key F.
Proof.
  apply (@flatten_after_clear
           [("b", VNum 1); ("e", obj [("x", obj [])]); ("a", obj [("d", VNum 1)])] ".");
    reflexivity.
Defined.

(** ** The init command, case by case *)

Lemma run_save_config (w : world) (configPath : string)
  (chalk : style -> string -> string) :
  run w (save_config configPath chalk)
  = Serialized (config_json w)
      :: match config_json w with
         | Raised message => [LoggedError (chalk Red message); Exited 0]
         | Returned data =>
             Wrote configPath data (write_result w configPath data)
               :: match write_result w configPath data with
                  | Raised message => [LoggedError (chalk Red message); Exited 0]
                  | Returned _ =>
                      [Logged ("Linguify config saved to "
                                 ++ chalk Cyan (chalk Underline configPath)
                                 ++ " successfully")%string;
                       Logged (chalk Green "Linguify initiated successfully")]
                  end
         end.
Proof.
  unfold save_config. cbn [run]. destruct (config_json w) as [data|message];
    [|reflexivity].
  cbn [run]. destruct (write_result w configPath data); reflexivity.
Qed.

Lemma run_init (w : world) (configPath : string) (chalk : style -> string -> string) :
  run w (init configPath chalk)
  = Logged (chalk Blue "Initiating linguify")
      :: Checked configPath (file_exists w configPath)
      :: if file_exists w configPath then
           Prompted overwrite_question (user_answer w overwrite_question)
             :: match user_answer w overwrite_question with
                | Raised message => [LoggedError (chalk Red message); Exited 0]
                | Returned overwrite =>
                    if truthy overwrite then
                      Logged (chalk Yellow "Overwriting linguify config")
                        :: run w (save_config configPath chalk)
                    else [Logged (chalk Yellow "Exiting linguify initiating"); Exited 0]
                end
         else run w (save_config configPath chalk).
Proof.
  unfold init. cbn [run]. destruct (file_exists w configPath); [|reflexivity].
  cbn [run]. destruct (user_answer w overwrite_question) as [overwrite|message];
    [|reflexivity].
  destruct (truthy overwrite); reflexivity.
Qed.

(** X21: [init] never overwrites an existing config file without
    consent: when the file exists and the prompt does not return a truthy
    [overwrite] (the user declines, cancels, or the prompt fails), no file
    is written, whatever the rest of the world answers. *)
Theorem init_never_overwrites_without_consent
  (configPath : string) (chalk : style -> string -> string) (w : world) :
  file_exists w configPath = true ->
  consents w = false ->
  filter is_write (run w (init configPath chalk)) = [].
Proof.
  intros Hexists Hno. rewrite run_init, Hexists. unfold consents in Hno.
  destruct (user_answer w overwrite_question) as [overwrite|message]; [|reflexivity].
  rewrite Hno. reflexivity.
Qed.

Lemma init_never_overwrites_without_consent_witness :
  filter is_write
    (run {| file_exists := fun _ => true;
            user_answer := fun _ => Returned VUndef;
            config_json := Returned "{}";
            write_result := fun _ _ => Returned tt |}
       (init "linguify.config.json" (fun _ s => s)))
  = [].
Proof.
  apply (@init_never_overwrites_without_consent "linguify.config.json" (fun _ s => s)
           {| file_exists := fun _ => true;
              user_answer := fun _ => Returned VUndef;
              config_json := Returned "{}";
              write_result := fun _ _ => Returned tt |});
    reflexivity.
Defined.

(** X22: when the config file does not exist, or the user consents to
    overwrite it, and the default config serializes, [init] writes exactly
    once: the serialized default config, to the config path; the user is
    prompted exactly when the file exists. *)
Theorem init_writes_default_config
  (configPath : string) (chalk : style -> string -> string) (w : world)
  (data : string) :
  file_exists w configPath = false \/ consents w = true ->
  config_json w = Returned data ->
  filter is_write (run w (init configPath chalk))
  = [Wrote configPath data (write_result w configPath data)]
  /\ (In (Prompted overwrite_question (user_answer w overwrite_question))
        (run w (init configPath chalk))
      <-> file_exists w configPath = true).
Proof.
  intros Hgo Hjson. rewrite run_init, run_save_config, Hjson.
  destruct (file_exists w configPath) eqn:Hexists.
  - destruct Hgo as [Hgo|Hgo]; [discriminate|]. unfold consents in Hgo.
    destruct (user_answer w overwrite_question) as [overwrite|message];
      [|discriminate].
    rewrite Hgo. split.
    + destruct (write_result w configPath data); reflexivity.
    + split; [reflexivity|]. intros _. right. right. left. reflexivity.
  - split.
    + destruct (write_result w configPath data); reflexivity.
    + split; [|discriminate]. intros Hin.
      destruct Hin as [H|[H|[H|Hin]]]; try discriminate.
      destruct (write_result w configPath data);
        repeat (destruct Hin as [H|Hin]; [discriminate|]); destruct Hin.
Qed.

Lemma init_writes_default_config_witness :
  filter is_write
    (run {| file_exists := fun _ => false;
            user_answer := fun _ => Returned VUndef;
            config_json := Returned "{}";
            write_result := fun _ _ => Returned tt |}
       (init "linguify.config.json" (fun _ s => s)))
  = [Wrote "linguify.config.json" "{}" (Returned tt)].
Proof.
  apply (proj1 (@init_writes_default_config "linguify.config.json" (fun _ s => s)
                  {| file_exists := fun _ => false;
                     user_answer := fun _ => Returned VUndef;
                     config_json := Returned "{}";
                     write_result := fun _ _ => Returned tt |}
                  "{}" (or_introl eq_refl) eq_refl)).
Defined.

(** X23: [init] never exits with a non-zero code.  A run ends without
    exiting exactly when the config file was written; otherwise it ends
    with [process.exit(0)], also after a failure: when a call throws, the
    run ends by printing the message of the exception in red on the error
    console and exiting with code 0. *)
Theorem init_always_exits_with_zero
  (configPath : string) (chalk : style -> string -> string) (w : world) :
  (forall code, In (Exited code) (run w (init configPath chalk)) -> code = 0%Z)
  /\ (filter is_exit (run w (init configPath chalk)) = []
      <-> exists data, In (Wrote configPath data (Returned tt))
                         (run w (init configPath chalk)))
  /\ (forall message e,
         In e (run w (init configPath chalk)) -> raised message e ->
         exists before,
           run w (init configPath chalk)
           = before ++ [LoggedError (chalk Red message); Exited 0%Z]).
Proof.
  rewrite run_init, run_save_config.
  split; [|split].
  - intros code Hin.
    destruct (file_exists w configPath);
      [destruct (user_answer w overwrite_question) as [overwrite|m0];
       [destruct (truthy overwrite)|]|];
      try (destruct (config_json w) as [data|m1];
           [destruct (write_result w configPath data) as [[]|m2]|]);
      cbn in Hin;
      repeat (destruct Hin as [H|Hin];
              [try discriminate H; injection H as <-; reflexivity|]);
      destruct Hin.
  - destruct (file_exists w configPath);
      [destruct (user_answer w overwrite_question) as [overwrite|m0];
       [destruct (truthy overwrite)|]|];
      try (destruct (config_json w) as [data|m1];
           [destruct (write_result w configPath data) as [[]|m2]|]);
      (split;
       [intros Hnone; try discriminate Hnone; exists data; cbn; tauto
       |intros [d Hin]; cbn in Hin;
        repeat (destruct Hin as [H|Hin]; [try discriminate H|]);
        try destruct Hin; reflexivity]).
  - intros message e Hin Hraised.
    destruct (file_exists w configPath);
      [destruct (user_answer w overwrite_question) as [overwrite|m0];
       [destruct (truthy overwrite)|]|];
      try (destruct (config_json w) as [data|m1];
           [destruct (write_result w configPath data) as [[]|m2]|]);
      cbn in Hin;
      repeat (destruct Hin as [<-|Hin]);
      try destruct Hin;
      destruct Hraised as [H|[H|[f [d H]]]]; try discriminate H;
      injection H; intros; subst;
      match goal with
      | |- exists before, ?L = _ => exists (firstn (List.length L - 2) L); reflexivity
      end.
Qed.

Lemma init_always_exits_with_zero_witness :
  exists before,
    run {| file_exists := fun _ => false;
           user_answer := fun _ => Returned VUndef;
           config_json := Returned "{}";
           write_result := fun _ _ => Raised "EACCES: permission denied" |}
      (init "linguify.config.json" (fun _ s => s))
    = before ++ [LoggedError "EACCES: permission denied"; Exited 0%Z].
Proof.
  apply (proj2 (proj2 (@init_always_exits_with_zero "linguify.config.json"
                         (fun _ s => s)
                         {| file_exists := fun _ => false;
                            user_answer := fun _ => Returned VUndef;
                            config_json := Returned "{}";
                            write_result :=
                              fun _ _ => Raised "EACCES: permission denied" |}))
           "EACCES: permission denied"
           (Wrote "linguify.config.json" "{}" (Raised "EACCES: permission denied"))).
  - right. right. right. left. reflexivity.
  - right. right. exists "linguify.config.json", "{}". reflexivity.
Defined.

(** ** clear and flatten agree on what is empty *)

Lemma lookup_all_None (l : DynamicObject) : (forall k, lookup k l = None) -> l = [].
Proof.
  destruct l as [|[k v] l]; [reflexivity|]. intros H. specialize (H k).
  simpl in H. rewrite String.eqb_refl in H. discriminate.
Qed.

Lemma flattened_entries_nil_leaves (sep : string) (X : value) :
  flattened_entries sep X = [] <-> leaves X = [].
Proof.
  split; intros H.
  - assert (rev (map (join_path sep) (leaves X)) = []) as Hrev.
    { apply lookup_all_None. intros k. rewrite <- flattened_entries_lookup, H. reflexivity. }
    destruct (leaves X) as [|pv l]; [reflexivity|].
    cbn [map rev] in Hrev. apply app_eq_nil in Hrev. destruct Hrev. discriminate.
  - apply lookup_all_None. intros k. rewrite flattened_entries_lookup, H. reflexivity.
Qed.

Lemma clean_has_leaf (v : value) : clean v -> isEmpty v = false -> leaves v <> [].
Proof.
  intros Hclean. induction Hclean as [ps Hnd Hclean IH Hne].
  destruct ps as [|[k w] ps]; [discriminate|]. intros _.
  rewrite leaves_obj. cbn [flat_map]. unfold leaves_of_entry at 1. cbn [fst snd].
  destruct (isObject w) eqn:Hobj; [|discriminate].
  specialize (IH k w (or_introl eq_refl) Hobj (Hne k w (or_introl eq_refl) Hobj)).
  destruct (leaves w); [contradiction|discriminate].
Qed.

(** X24: [clear] prunes exactly what [flatten] drops: for a Structure
    without arrays and with unique keys, none of them the name of a
    member of [Object.prototype], and a separator that occurs in none of
    those names, the cleared Structure (default mode) is empty if and
    only if [flatten] yields no entry for it. *)
Theorem clear_prunes_what_flatten_drops (ps : DynamicObject) (separator : string) :
  well_formed (obj ps) = true ->
  no_arrays (obj ps) = true ->
  ordinary_keys (obj ps) = true ->
  ordinary_separator separator = true ->
  (clear (obj ps) false = [] <-> flatten (obj ps) separator = Ok (obj [])).
Proof.
  intros Hwf Hna Hord Hsep.
  pose proof (@clear_leaves (obj ps) eq_refl Hwf Hna) as Hperm.
  assert (flatten (obj ps) separator = Ok (obj []) <-> leaves (obj ps) = []) as ->.
  { rewrite <- (flattened_entries_nil_leaves separator).
    rewrite (@flatten_ordinary separator (obj ps) eq_refl Hord Hsep).
    split; intros H; [injection H as H; exact H|rewrite H; reflexivity]. }
  split.
  - intros Hempty. unfold clear_nested, obj in *.
    cbn [clear] in Hempty. rewrite Hempty in Hperm.
    apply Permutation_nil in Hperm. assumption.
  - intros Hnone. rewrite Hnone in Hperm. apply Permutation_sym, Permutation_nil in Hperm.
    pose proof (clear_nested_clean (obj ps)) as Hclean.
    pose proof (clean_has_leaf Hclean) as Hleaf.
    unfold clear_nested, obj in *. cbn [clear].
    destruct (clear_default (VObj KObject ps)) as [|e l]; [reflexivity|].
    exfalso. apply Hleaf; [reflexivity|assumption].
Qed.

Lemma clear_prunes_what_flatten_drops_witness :
  clear (obj [("a", obj [("x", obj [])]); ("b", obj [])]) false = []
  <-> flatten (obj [("a", obj [("x", obj [])]); ("b", obj [])]) "." = Ok (obj []).
Proof.
  apply (@clear_prunes_what_flatten_drops [("a", obj [("x", obj [])]); ("b", obj [])] ".");
    reflexivity.
Defined.

(** ** The round trip and clear *)

Lemma keys_ok_deep_obj (sep : string) (c : okind) (ps : DynamicObject) :
  keys_ok_deep sep (VObj c ps) = true
  <-> c = KObject
      /\ NoDup (keys ps)
      /\ forall e, In e ps ->
                   key_ok sep (fst e) (snd e) = true /\ keys_ok_deep sep (snd e) = true.
Proof.
  cbn [keys_ok_deep]. rewrite !andb_true_iff, nodup_keys_NoDup.
  assert (okind_eqb c KObject = true <-> c = KObject) as ->
      by (destruct c; split; intros H; try reflexivity; discriminate H).
  assert ((fix all (ps : list (string * value)) : bool :=
             match ps with
             | [] => true
             | (k, child) :: rest =>
                 key_ok sep k child && keys_ok_deep sep child && all rest
             end) ps = true
          <-> forall e, In e ps ->
                        key_ok sep (fst e) (snd e) = true
                        /\ keys_ok_deep sep (snd e) = true) as ->; [|tauto].
  induction ps as [|[k v] ps IH].
  - split; [intros _ e []|reflexivity].
  - rewrite !andb_true_iff, IH. split.
    + intros [[Hk Hv] Hps] e [<-|He]; [split; assumption|apply Hps; assumption].
    + intros Hall. split; [apply (Hall (k, v)); left; reflexivity|].
      intros e He. apply Hall. right. assumption.
Qed.

Lemma keys_ok_deep_well_formed (sep : string) (X : value) :
  keys_ok_deep sep X = true -> well_formed X = true /\ no_arrays X = true.
Proof.
  induction X as [| | | | | |c ps IH] using value_nested_ind; try (split; reflexivity).
  intros Hok. apply keys_ok_deep_obj in Hok. destruct Hok as [-> [Hnd Hall]].
  rewrite Forall_forall in IH. split.
  - apply well_formed_obj. split; [assumption|]. intros e He.
    apply (IH e He). apply (Hall e He).
  - apply no_arrays_obj. split; [reflexivity|]. intros e He.
    apply (IH e He). apply (Hall e He).
Qed.

Lemma key_ok_clear_nested (sep k : string) (v : value) :
  isObject v = true -> key_ok sep k (clear_nested v) = key_ok sep k v.
Proof. intros Hobj. unfold key_ok. cbn [clear_nested isObject]. rewrite Hobj. reflexivity. Qed.

Lemma clear_entries_ok (sep : string) (X : value) :
  isObject X = true -> keys_ok_deep sep X = true ->
  entries_ok sep (clear_default X).
Proof.
  induction X as [| | | | | |c ps IH] using value_nested_ind; try discriminate.
  intros _ Hok. apply keys_ok_deep_obj in Hok. destruct Hok as [-> [Hnd Hall]].
  rewrite clear_default_unfold. cbn [toPairs]. unfold assign, omitBy. split.
  - apply assign_all_NoDup. apply pickBy_NoDup.
  - intros e He. apply In_assign_all in He. destruct He as [He|He].
    + apply In_pickBy in He. destruct He as [He Hprim]. apply negb_true_iff in Hprim.
      split; [apply (Hall e He)|]. destruct (snd e); try reflexivity. discriminate.
    + apply In_pickBy in He. destruct He as [He Hne]. apply negb_true_iff in Hne.
      unfold mapValues in He. apply in_map_iff in He.
      destruct He as [[k v] [<- He]]. cbn [fst snd] in *.
      apply In_pickBy in He. destruct He as [He Hobj]. cbn [snd] in Hobj.
      destruct (Hall (k, v) He) as [Hk Hv]. cbn [fst snd] in Hk, Hv.
      split; [rewrite key_ok_clear_nested; assumption|].
      unfold clear_nested in *. apply faithful_obj. split; [reflexivity|].
      split; [intros Hnil; rewrite Hnil in Hne; discriminate|].
      rewrite Forall_forall in IH. apply (IH (k, v) He Hobj Hv).
Qed.

Lemma lookup_ext_Permutation (l l' : DynamicObject) :
  NoDup (keys l) -> NoDup (keys l') ->
  (forall k, lookup k l = lookup k l') ->
  Permutation l l'.
Proof.
  intros Hnd Hnd' Hext. apply NoDup_Permutation.
  - apply (NoDup_map_inv fst). assumption.
  - apply (NoDup_map_inv fst). assumption.
  - intros [k v]. split; intros Hin.
    + apply lookup_Some_In. rewrite <- Hext. apply In_lookup_NoDup; assumption.
    + apply lookup_Some_In. rewrite Hext. apply In_lookup_NoDup; assumption.
Qed.

Lemma flattened_entries_NoDup (sep : string) (X : value) :
  NoDup (keys (flattened_entries sep X)).
Proof.
  destruct X as [| | | | | |c ps]; try constructor.
  rewrite flattened_entries_flat_map. apply assign_all_NoDup. constructor.
Qed.

(** X25: the round trip is [clear].  For a Structure without arrays, whose
    keys are unique, non-empty, without the separator and not the name of
    a member of [Object.prototype], the key of a nested Structure being
    moreover not cut together with the separator that follows it, and a
    separator that occurs in none of those names,
    [unflatten(flatten(X))] succeeds and holds the same keys and values
    at every depth as [clear(X)]: the round trip loses the empty nested
    Structures, and nothing else. *)
Theorem unflatten_flatten_is_clear (ps : DynamicObject) (separator : string) :
  keys_ok_deep separator (obj ps) = true ->
  ordinary_keys (obj ps) = true ->
  ordinary_separator separator = true ->
  exists Y,
    (r <- flatten (obj ps) separator ;; unflatten r separator) = Ok (obj Y)
    /\ same_structure (obj Y) (obj (clear (obj ps) false)).
Proof.
  intros Hok Hord Hsep.
  destruct (keys_ok_deep_well_formed separator (obj ps) Hok) as [Hwf Hna].
  pose proof (@clear_entries_ok separator (obj ps) eq_refl Hok) as Hdom.
  pose proof (@clear_leaves (obj ps) eq_refl Hwf Hna) as Hleaves.
  unfold clear_nested in Hleaves.
  set (C := clear_default (obj ps)) in *.
  pose proof (@flattened_entries_leaves separator (VObj KObject C) KObject C eq_refl Hdom)
    as HflatC.
  assert (NoDup (flat_keys separator (obj ps))) as Hndk.
  { unfold flat_keys. rewrite <- (Permutation_map _ Hleaves).
    replace (map (fun pv : list string * value => String.concat separator (fst pv))
               (leaves (VObj KObject C)))
      with (map fst (map (join_path separator) (leaves (VObj KObject C))))
      by (rewrite map_map; reflexivity).
    apply (Permutation_NoDup (Permutation_map fst HflatC)).
    apply flattened_entries_NoDup. }
  assert (Permutation (flattened_entries separator (obj ps)) (flattened_entries separator (obj C)))
    as Hflat.
  { apply lookup_ext_Permutation; try apply flattened_entries_NoDup.
    intros k. symmetry. apply flattened_entries_same_leaves; assumption. }
  assert (Permutation
            (map (split_key separator) (flattened_entries separator (obj ps)))
            (leaves (VObj KObject C))) as Hperm.
  { rewrite (Permutation_map (split_key separator) Hflat).
    unfold obj. rewrite (Permutation_map (split_key separator) HflatC), map_map.
    apply Permutation_refl'.
    transitivity (map (fun pv : list string * value => pv) (leaves (VObj KObject C)));
      [|apply map_id].
    apply map_ext_in. intros [p v] Hin. unfold split_key, join_path. cbn [fst snd].
    rewrite (@split_join_leaf separator KObject C p v Hdom Hin). reflexivity. }
  destruct (@build_leaves separator (VObj KObject C) C eq_refl Hdom
              (map (split_key separator) (flattened_entries separator (obj ps))))
    as [Y [HY Hsame]].
  - intros x Hx. apply (Permutation_in _ Hperm). assumption.
  - exists Y. split.
    + rewrite (@flatten_ordinary separator (obj ps) eq_refl Hord Hsep).
      cbn [bind unflatten]. rewrite unflatten_loop_build. assumption.
    + apply Hsame. assumption.
Qed.

Lemma unflatten_flatten_is_clear_witness :
  exists Y,
    (r <- flatten (obj [("a", obj [("b", VNum 1); ("e", obj [])]); ("f", obj [])]) "."
     ;; unflatten r ".") = Ok (obj Y)
    /\ same_structure (obj Y)
         (obj (clear (obj [("a", obj [("b", VNum 1); ("e", obj [])]); ("f", obj [])])
                 false)).
Proof.
  apply (@unflatten_flatten_is_clear
           [("a", obj [("b", VNum 1); ("e", obj [])]); ("f", obj [])] ".");
    reflexivity.
Defined.

(** ** A tree is determined by its leaves *)

Lemma lookup_None_under (c : okind) (ps : DynamicObject) (k : string) :
  well_formed (VObj c ps) = true -> leafy (VObj c ps) = true ->
  (lookup k ps = None <-> under k (leaves (VObj c ps)) = []).
Proof.
  intros Hwf Hleafy. apply well_formed_obj in Hwf. destruct Hwf as [Hnd _].
  rewrite under_leaves by assumption.
  destruct (lookup k ps) as [child|] eqn:Hl; [|tauto].
  split; [discriminate|]. intros Hnil. exfalso.
  destruct (isObject child) eqn:Hobj; [|discriminate].
  rewrite leafy_obj in Hleafy.
  destruct (Hleafy (k, child) (@lookup_Some_In _ _ _ Hl) Hobj) as [Hne _].
  contradiction.
Qed.

Lemma same_leaves_same_structure (Y : value) :
  forall Y',
    isObject Y = true -> isObject Y' = true ->
    well_formed Y = true -> well_formed Y' = true ->
    leafy Y = true -> leafy Y' = true ->
    no_arrays Y = true -> no_arrays Y' = true ->
    Permutation (leaves Y) (leaves Y') ->
    same_structure Y Y'.
Proof.
  induction Y as [| | | | | |c ps IH] using value_nested_ind; try discriminate.
  intros [| | | | | |c' ps'] _ Hobj' Hwf Hwf' Hleafy Hleafy' Hna Hna' Hperm;
    try discriminate.
  pose proof (fun k => @lookup_None_under c ps k Hwf Hleafy) as Hnone.
  pose proof (fun k => @lookup_None_under c' ps' k Hwf' Hleafy') as Hnone'.
  pose proof Hwf as Hwf0. pose proof Hwf' as Hwf0'.
  apply well_formed_obj in Hwf0, Hwf0'.
  destruct Hwf0 as [Hnd Hchildren], Hwf0' as [Hnd' Hchildren'].
  pose proof Hna as Hna0. pose proof Hna' as Hna0'.
  apply no_arrays_obj in Hna0, Hna0'.
  destruct Hna0 as [-> Hplain], Hna0' as [-> Hplain'].
  rewrite leafy_obj in Hleafy, Hleafy'.
  apply same_object.
  - intros k. rewrite Hnone, Hnone'.
    pose proof (Permutation_under k Hperm) as Hu.
    split; intros Hnil; rewrite Hnil in Hu.
    + apply Permutation_nil. assumption.
    + apply Permutation_nil. apply Permutation_sym. assumption.
  - intros k v1 v2 H1 H2.
    pose proof (Permutation_under k Hperm) as Hu.
    rewrite !under_leaves in Hu by assumption. rewrite H1, H2 in Hu.
    pose proof (@lookup_Some_In _ _ _ H1) as Hin1.
    pose proof (@lookup_Some_In _ _ _ H2) as Hin2.
    destruct (isObject v1) eqn:Hobj1, (isObject v2) eqn:Hobj2.
    + rewrite Forall_forall in IH.
      apply (IH (k, v1) Hin1 v2); try assumption.
      * apply (Hchildren _ Hin1).
      * apply (Hchildren' _ Hin2).
      * apply (Hleafy _ Hin1 Hobj1).
      * apply (Hleafy' _ Hin2 Hobj2).
      * apply (Hplain _ Hin1).
      * apply (Hplain' _ Hin2).
    + exfalso. apply Permutation_sym in Hu.
      pose proof (Permutation_in _ Hu (or_introl eq_refl)) as Hin.
      apply leaves_paths_nonempty in Hin. contradiction.
    + exfalso.
      pose proof (Permutation_in _ Hu (or_introl eq_refl)) as Hin.
      apply leaves_paths_nonempty in Hin. contradiction.
    + apply Permutation_length_1 in Hu. injection Hu as <-.
      apply same_primitive. assumption.
Qed.

Lemma unflatten_flat_domain (c : okind) (F : DynamicObject) (sep : string) :
  flat_domain sep F = true ->
  exists Y,
    unflatten (VObj c F) sep = Ok (obj Y)
    /\ well_formed (obj Y) = true
    /\ leafy (obj Y) = true
    /\ no_arrays (obj Y) = true
    /\ Permutation (leaves (obj Y)) (map (split_key sep) F).
Proof.
  unfold flat_domain. rewrite !andb_true_iff. intros [[Hflat Hproper] Hfree].
  unfold single_depth in Hflat. rewrite forallb_forall in Hflat, Hproper.
  assert (map fst (map (split_key sep) F) = map (split sep) (keys F)) as Hpaths.
  { unfold keys. rewrite !map_map. reflexivity. }
  destruct (@build_prefix_free (map (split_key sep) F) KObject [])
    as [Y [HY [Hwf [Hleafy [Hna Hperm]]]]].
  - rewrite Hpaths. assumption.
  - intros pv Hpv. apply in_map_iff in Hpv. destruct Hpv as [[k v] [<- He]].
    unfold split_key. cbn [fst snd]. split.
    + apply Hproper. apply in_map_iff. exists (k, v). split; [reflexivity|assumption].
    + apply negb_true_iff. apply (Hflat (k, v) He).
  - reflexivity.
  - reflexivity.
  - reflexivity.
  - intros pv q w _ [].
  - exists Y. cbn [unflatten]. rewrite unflatten_loop_build.
    split; [assumption|]. repeat split; try assumption.
    cbn [leaves] in Hperm. rewrite app_nil_r in Hperm. assumption.
Qed.

(** X26: the result of [unflatten] does not depend on the order of the
    keys.  Two flat objects with the same entries in different orders,
    none of whose values is an object, whose keys have no empty part and
    do not continue one another, no key or part of a key being the name
    of a member of [Object.prototype], are unflattened into Structures
    with the same keys and values at every depth. *)
Theorem unflatten_order_independent
  (c c' : okind) (F F' : DynamicObject) (separator : string) :
  flat_domain separator F = true ->
  flat_domain separator F' = true ->
  Permutation F F' ->
  ordinary_flat separator F = true ->
  exists Y Y',
    unflatten (VObj c F) separator = Ok (obj Y)
    /\ unflatten (VObj c' F') separator = Ok (obj Y')
    /\ same_structure (obj Y) (obj Y').
Proof.
  intros Hdom Hdom' Hperm _.
  destruct (@unflatten_flat_domain c F separator Hdom)
    as [Y [HY [Hwf [Hleafy [Hna Hleaves]]]]].
  destruct (@unflatten_flat_domain c' F' separator Hdom')
    as [Y' [HY' [Hwf' [Hleafy' [Hna' Hleaves']]]]].
  exists Y, Y'. split; [assumption|]. split; [assumption|].
  apply same_leaves_same_structure; try assumption; try reflexivity.
  rewrite Hleaves, Hleaves'. apply Permutation_map. assumption.
Qed.

Lemma unflatten_order_independent_witness :
  exists Y Y',
    unflatten (obj [("a.b", VNum 1); ("c", VStr "x"); ("a.d", VNull)]) "." = Ok (obj Y)
    /\ unflatten (obj [("c", VStr "x"); ("a.d", VNull); ("a.b", VNum 1)]) "."
       = Ok (obj Y')
    /\ same_structure (obj Y) (obj Y').
Proof.
  apply (@unflatten_order_independent KObject KObject
           [("a.b", VNum 1); ("c", VStr "x"); ("a.d", VNull)]
           [("c", VStr "x"); ("a.d", VNull); ("a.b", VNum 1)] ".");
    [reflexivity|reflexivity| |reflexivity].
  apply (Permutation_cons_app [("c", VStr "x"); ("a.d", VNull)] []).
  reflexivity.
Defined.
